(** * operators.h: the vector/matrix operator layer over the dense engine

    [operators.h] gives [math::vector<_T>] and [math::matrix<_T>] the usual
    algebraic operators and a few named functions in [math::eigen].  Every
    function is one forwarding call into the dense linear-algebra engine
    (Eigen), applied to the native representation that [eigen()] exposes.

    The development has four layers:
    - [Scalar]: the element type [_T] with the arithmetic the engine uses,
      instantiated with exact reals and with IEEE-754 binary64;
    - [Eigen]: the engine kernels the layer forwards to, on dense
      column-major data;
    - [math]: the functions of [operators.h], one definition per function,
      as computations over a store of objects (operands are references);
    - the overload table [fn] with the declared parameter and return types,
      and [run], which dispatches an entry of the table to its definition. *)

From Stdlib Require Import ZArith List Reals Lra Lia.
From Stdlib Require Import Floats.SpecFloat.
From stdpp Require Import base option list gmap strings.

(** ** Outcomes

    The layer has no [throw] and no check of its own.  A call either
    produces its value, or the kernel it forwards to fails ([eigen_assert]
    on a shape the kernel does not accept; a kernel returns [None] then),
    or an operand is not a live object of the expected type, which is
    undefined behaviour on the caller's side. *)

Inductive fault :=
  | EngineAssertion
  | InvalidReference.

Inductive outcome (A : Type) :=
  | Ok (a : A)
  | Fault (e : fault).
Arguments Ok {A} a.
Arguments Fault {A} e.

#[export] Instance outcome_fmap : FMap outcome := fun A B f m =>
  match m with
  | Ok a => Ok (f a)
  | Fault e => Fault e
  end.

(** ** The element type

    [operators.h] is generic in [_T].  The engine needs the four arithmetic
    operations, absolute value, square root, the order (for [maxCoeff] and
    for the guard of [normalize]) and the conversion of an integer constant
    ([RealScalar(1)], the norm order [p]). *)

Class Scalar (T : Type) := {
  of_int : Z -> T;
  sadd : T -> T -> T;
  ssub : T -> T -> T;
  smul : T -> T -> T;
  sdiv : T -> T -> T;
  sabs : T -> T;
  ssqrt : T -> T;
  slt : T -> T -> bool
}.

(** [std::pow] of the C library, used by the engine for a norm order other
    than 1, 2 and Infinity.  IEEE-754 does not fix its results, so it is an
    interface of its own. *)
Class Libm (T : Type) := pow : T -> T -> T.

(** Exact real arithmetic. *)
#[export] Instance R_scalar : Scalar R := {|
  of_int := IZR;
  sadd := Rplus;
  ssub := Rminus;
  smul := Rmult;
  sdiv := Rdiv;
  sabs := Rabs;
  ssqrt := sqrt;
  slt := fun x y => if Rlt_dec x y then true else false
|}.

(** [pow] on the reals for a non-negative base, as the norms use it. *)
Definition Rpow (x y : R) : R :=
  if Req_dec_T x 0 then (if Req_dec_T y 0 then 1%R else 0%R)
  else Rpower x y.

#[export] Instance R_libm : Libm R := Rpow.

(** IEEE-754 binary64 ([double]), round to nearest even. *)
Definition binary64 := spec_float.

Definition b64_of_Z (n : Z) : binary64 := binary_normalize 53 1024 n 0 false.

#[export] Instance b64_scalar : Scalar binary64 := {|
  of_int := b64_of_Z;
  sadd := SFadd 53 1024;
  ssub := SFsub 53 1024;
  smul := SFmul 53 1024;
  sdiv := SFdiv 53 1024;
  sabs := SFabs;
  ssqrt := SFsqrt 53 1024;
  slt := SFltb
|}.

(** ** The engine kernels *)

Module Eigen.
Section Kernels.
Context {T : Type} `{Scalar T}.

(** A dense column vector. *)
Definition Vec := list T.

(** A dense matrix in the engine's default column-major storage:
    coefficient (i, j) is at index [j * rows + i]. *)
Record Mat := mkMat { rows : nat; cols : nat; coeffs : list T }.

Definition well_formed (m : Mat) : Prop :=
  length (coeffs m) = (cols m * rows m)%nat.

Definition coeff (m : Mat) (i j : nat) : T :=
  nth (j * rows m + i) (coeffs m) (of_int 0).

Definition tabulate (r c : nat) (f : nat -> nat -> T) : list T :=
  flat_map (fun j => map (fun i => f i j) (seq 0 r)) (seq 0 c).

(** Coefficient-wise binary expressions assert equal sizes. *)
Definition cwise (f : T -> T -> T) (a b : Vec) : option Vec :=
  if Nat.eqb (length a) (length b) then Some (zip_with f a b)
  else None.

Definition add := cwise sadd.
Definition sub := cwise ssub.
Definition cwiseProduct := cwise smul.
Definition cwiseQuotient := cwise sdiv.

Definition unaryExpr (f : T -> T) (a : Vec) : Vec := map f a.

Definition scale_r (a : Vec) (s : T) : Vec := map (fun x => smul x s) a.
Definition scale_l (s : T) (a : Vec) : Vec := map (fun x => smul s x) a.
Definition quot (a : Vec) (s : T) : Vec := map (fun x => sdiv x s) a.

(** Reductions start from the first coefficient; an empty one is 0.  The
    coefficients are combined one after the other, from the first to the
    last.  The engine is free to combine them in another order (packets,
    unrolled partial sums), which gives the same result only where the
    operation is associative: in exact arithmetic, and in binary64 where
    no partial result is rounded. *)
Definition redux (f : T -> T -> T) (a : list T) : T :=
  match a with
  | [] => of_int 0
  | x :: xs => fold_left f xs x
  end.

Definition sum (a : list T) : T := redux sadd a.

Definition smax (x y : T) : T := if slt x y then y else x.
Definition maxCoeff (a : list T) : T := redux smax a.

Definition squaredNorm (a : list T) : T := sum (map (fun x => smul x x) a).
Definition norm (a : list T) : T := ssqrt (squaredNorm a).

(** [lpNorm<p>]: specialised for 1, 2 and Infinity (which is -1), and
    [pow(sum |x|^p, 1/p)] otherwise. *)
Definition Infinity : Z := (-1)%Z.

Definition lpNorm `{Libm T} (p : Z) (a : Vec) : T :=
  if Z.eqb p 1 then sum (map sabs a)
  else if Z.eqb p 2 then norm a
  else if Z.eqb p Infinity then maxCoeff (map sabs a)
  else pow (sum (map (fun x => pow (sabs x) (of_int p)) a))
           (sdiv (of_int 1) (of_int p)).

(** In-place [normalize()]: divides by the norm; the vector is left as it
    is when its squared norm is not positive (the engine's documented
    behaviour since version 3.3). *)
Definition normalize (a : Vec) : Vec :=
  let z := squaredNorm a in
  if slt (of_int 0) z then quot a (ssqrt z) else a.

(** [a.transpose() * b], a 1x1 product. *)
Definition dot (a b : Vec) : option T :=
  if Nat.eqb (length a) (length b) then Some (sum (zip_with smul a b))
  else None.

Definition transpose (m : Mat) : Mat :=
  mkMat (cols m) (rows m) (tabulate (cols m) (rows m) (fun i j => coeff m j i)).

Definition mcwise (f : T -> T -> T) (a b : Mat) : option Mat :=
  if Nat.eqb (rows a) (rows b) && Nat.eqb (cols a) (cols b)
  then Some (mkMat (rows a) (cols a) (zip_with f (coeffs a) (coeffs b)))
  else None.

Definition madd := mcwise sadd.
Definition msub := mcwise ssub.

Definition mscale_r (m : Mat) (s : T) : Mat :=
  mkMat (rows m) (cols m) (map (fun x => smul x s) (coeffs m)).
Definition mscale_l (s : T) (m : Mat) : Mat :=
  mkMat (rows m) (cols m) (map (fun x => smul s x) (coeffs m)).
Definition mquot (m : Mat) (s : T) : Mat :=
  mkMat (rows m) (cols m) (map (fun x => sdiv x s) (coeffs m)).

(** Matrix times column vector.  In this product and the two that follow,
    each coefficient of the result is the sum of its terms taken in the
    order of the summation index, every product and every partial sum
    rounded on its own.  The engine's product kernels accumulate in an
    order that depends on the storage order and on the packet size, and
    may fuse a product with a sum; the shape of the result and its value
    in exact arithmetic do not depend on that, its last bits in binary64
    do.  What is proved of these products below is therefore stated for
    shapes and for exact arithmetic. *)
Definition mulMV (m : Mat) (v : Vec) : option Vec :=
  if Nat.eqb (cols m) (length v)
  then Some (map (fun i =>
             sum (map (fun j => smul (coeff m i j) (nth j v (of_int 0)))
                      (seq 0 (cols m))))
           (seq 0 (rows m)))
  else None.

(** Transposed vector times matrix; the row is stored as a vector. *)
Definition mulVM (v : Vec) (m : Mat) : option Vec :=
  if Nat.eqb (length v) (rows m)
  then Some (map (fun j =>
             sum (map (fun i => smul (nth i v (of_int 0)) (coeff m i j))
                      (seq 0 (rows m))))
           (seq 0 (cols m)))
  else None.

Definition mulMM (a b : Mat) : option Mat :=
  if Nat.eqb (cols a) (rows b)
  then Some (mkMat (rows a) (cols b)
             (tabulate (rows a) (cols b) (fun i j =>
                sum (map (fun k => smul (coeff a i k) (coeff b k j))
                         (seq 0 (cols a))))))
  else None.

(** Frobenius norm. *)
Definition mnorm (m : Mat) : T := norm (coeffs m).
End Kernels.

Arguments Vec T : clear implicits.
Arguments Mat T : clear implicits.

(** [inverse()] is computed by a decomposition inside the engine; what it
    yields, on a singular operand in particular, is the engine's. *)
Class Inverse (T : Type) := inverse : Mat T -> option (Mat T).
End Eigen.

(** ** The layer *)

Module math.

Definition loc := nat.

Section Containers.
Context {T : Type}.

(** Modelled from the spec: [vector.h] and [matrix.h] are not among the
    sources.  The spec's data model gives a vector-like and a matrix-like
    container that expose an accessor [eigen()] to the engine's native
    representation, and a non-owning view ("map") that describes the
    shape of a contiguous buffer it does not own. *)
Record vector := mk_vector { vector_eigen : Eigen.Vec T }.
Record matrix := mk_matrix { matrix_eigen : Eigen.Mat T }.

Record vector_map := mk_vector_map { vm_data : loc; vm_size : nat }.
Record matrix_map := mk_matrix_map {
  mm_data : loc; mm_rows : nat; mm_cols : nat }.

(** What a stream has received: the engine formats its own objects. *)
Inductive printed :=
  | PrintedVec (v : Eigen.Vec T)
  | PrintedMat (m : Eigen.Mat T).

(** The store.  Operands are passed by reference, so they are locations
    of objects; a view points at an array that someone else owns. *)
Inductive object :=
  | VectorObj (v : vector)
  | MatrixObj (m : matrix)
  | ArrayObj (a : list T)
  | StreamObj (out : list printed).

Definition heap := gmap loc object.

(** Computations over the store. *)
Definition M (A : Type) : Type := heap -> outcome (A * heap).

#[export] Instance M_ret : MRet M := fun A a h => Ok (a, h).
#[export] Instance M_bind : MBind M := fun A B f m h =>
  match m h with
  | Ok (a, h') => f a h'
  | Fault e => Fault e
  end.

(** A kernel call: a failed assertion of the engine ends the call. *)
Definition lift {A} (o : option A) : M A := fun h =>
  match o with
  | Some a => Ok (a, h)
  | None => Fault EngineAssertion
  end.

Definition read_vector (l : loc) : M vector := fun h =>
  match h !! l with
  | Some (VectorObj v) => Ok (v, h)
  | _ => Fault InvalidReference
  end.

Definition read_matrix (l : loc) : M matrix := fun h =>
  match h !! l with
  | Some (MatrixObj m) => Ok (m, h)
  | _ => Fault InvalidReference
  end.

(** A view reads the first [vm_size] elements of its array. *)
Definition read_vector_map (v : vector_map) : M (Eigen.Vec T) := fun h =>
  match h !! vm_data v with
  | Some (ArrayObj a) =>
      if Nat.leb (vm_size v) (length a) then Ok (take (vm_size v) a, h)
      else Fault InvalidReference
  | _ => Fault InvalidReference
  end.

Definition read_matrix_map (v : matrix_map) : M (Eigen.Mat T) := fun h =>
  match h !! mm_data v with
  | Some (ArrayObj a) =>
      if Nat.leb (mm_cols v * mm_rows v) (length a)
      then Ok (Eigen.mkMat (mm_rows v) (mm_cols v)
                 (take (mm_cols v * mm_rows v) a), h)
      else Fault InvalidReference
  | _ => Fault InvalidReference
  end.

(** Writing through [eigen()] of a non-const vector, and assignment. *)
Definition write_vector (l : loc) (v : vector) : M unit := fun h =>
  match h !! l with
  | Some (VectorObj _) => Ok (tt, <[l := VectorObj v]> h)
  | _ => Fault InvalidReference
  end.

Definition put (l : loc) (p : printed) : M unit := fun h =>
  match h !! l with
  | Some (StreamObj out) => Ok (tt, <[l := StreamObj (out ++ [p])]> h)
  | _ => Fault InvalidReference
  end.

(** A temporary: the value of a subexpression bound to a reference. *)
Definition temporary (o : object) : M loc := fun h =>
  let l := fresh (dom h) in Ok (l, <[l := o]> h).
End Containers.

Arguments vector T : clear implicits.
Arguments matrix T : clear implicits.
Arguments printed T : clear implicits.
Arguments object T : clear implicits.
Arguments heap T : clear implicits.
Arguments M T A : clear implicits.

Section Operators.
Context {T : Type} `{Scalar T}.

(** ostream *)
Definition operator_shl_matrix (stream mat : loc) : M T loc :=
  m ← read_matrix mat;
  _ ← put stream (PrintedMat (matrix_eigen m));
  mret stream.

(** ostream *)
Definition operator_shl_vector (stream vec : loc) : M T loc :=
  v ← read_vector vec;
  _ ← put stream (PrintedVec (vector_eigen v));
  mret stream.

(** vector-scalar multiplication *)
Definition operator_mul_vector_scalar (vec : loc) (scalar : T)
  : M T (vector T) :=
  v ← read_vector vec;
  mret (mk_vector (Eigen.scale_r (vector_eigen v) scalar)).

(** vector-scalar multiplication *)
Definition operator_mul_scalar_vector (scalar : T) (vec : loc)
  : M T (vector T) :=
  v ← read_vector vec;
  mret (mk_vector (Eigen.scale_l scalar (vector_eigen v))).

(** vector-scalar division *)
Definition operator_div_vector_scalar (vec : loc) (scalar : T)
  : M T (vector T) :=
  v ← read_vector vec;
  mret (mk_vector (Eigen.quot (vector_eigen v) scalar)).

(** vector-vector multiplication *)
Definition operator_mul_vector_vector (vecT vec : loc) : M T T :=
  a ← read_vector vecT;
  b ← read_vector vec;
  lift (Eigen.dot (vector_eigen a) (vector_eigen b)).

(** vector-vector multiplication (with eigen:Map) *)
Definition operator_mul_map_vector (vecT : vector_map) (vec : loc)
  : M T T :=
  a ← read_vector_map vecT;
  b ← read_vector vec;
  lift (Eigen.dot a (vector_eigen b)).

(** vector-vector multiplication (with eigen:Map) *)
Definition operator_mul_vector_map (vecT : loc) (vec : vector_map)
  : M T T :=
  a ← read_vector vecT;
  b ← read_vector_map vec;
  lift (Eigen.dot (vector_eigen a) b).

(** vector-vector addition *)
Definition operator_add_vector_vector (lhs rhs : loc) : M T (vector T) :=
  a ← read_vector lhs;
  b ← read_vector rhs;
  r ← lift (Eigen.add (vector_eigen a) (vector_eigen b));
  mret (mk_vector r).

(** vector-vector addition (with eigen::Map) *)
Definition operator_add_map_vector (lhs : vector_map) (rhs : loc)
  : M T (vector T) :=
  a ← read_vector_map lhs;
  b ← read_vector rhs;
  r ← lift (Eigen.add a (vector_eigen b));
  mret (mk_vector r).

(** vector-vector addition (with eigen::Map) *)
Definition operator_add_vector_map (lhs : loc) (rhs : vector_map)
  : M T (vector T) :=
  a ← read_vector lhs;
  b ← read_vector_map rhs;
  r ← lift (Eigen.add (vector_eigen a) b);
  mret (mk_vector r).

(** vector-vector addition *)
Definition operator_add_assign (lhs rhs : loc) : M T loc :=
  a ← read_vector lhs;
  b ← read_vector rhs;
  r ← lift (Eigen.add (vector_eigen a) (vector_eigen b));
  _ ← write_vector lhs (mk_vector r);
  mret lhs.

(** vector-vector subtraction *)
Definition operator_sub_assign (lhs rhs : loc) : M T loc :=
  a ← read_vector lhs;
  b ← read_vector rhs;
  r ← lift (Eigen.sub (vector_eigen a) (vector_eigen b));
  _ ← write_vector lhs (mk_vector r);
  mret lhs.

(** vector-scalar multiplication *)
Definition operator_mul_assign (lhs : loc) (rhs : T) : M T loc :=
  a ← read_vector lhs;
  _ ← write_vector lhs (mk_vector (Eigen.scale_r (vector_eigen a) rhs));
  mret lhs.

(** vector-scalar division *)
Definition operator_div_assign (lhs : loc) (rhs : T) : M T loc :=
  a ← read_vector lhs;
  _ ← write_vector lhs (mk_vector (Eigen.quot (vector_eigen a) rhs));
  mret lhs.

(** vector-vector subtraction *)
Definition operator_sub_vector_vector (lhs rhs : loc)
  : M T (Eigen.Vec T) :=
  a ← read_vector lhs;
  b ← read_vector rhs;
  lift (Eigen.sub (vector_eigen a) (vector_eigen b)).

(** vector-vector subtraction (with eigen::Map) *)
Definition operator_sub_map_vector (lhs : vector_map) (rhs : loc)
  : M T (Eigen.Vec T) :=
  a ← read_vector_map lhs;
  b ← read_vector rhs;
  lift (Eigen.sub a (vector_eigen b)).

(** vector-vector subtraction (with eigen::Map) *)
Definition operator_sub_vector_map (lhs : loc) (rhs : vector_map)
  : M T (Eigen.Vec T) :=
  a ← read_vector lhs;
  b ← read_vector_map rhs;
  lift (Eigen.sub (vector_eigen a) b).

(** matrix-scalar multiplication *)
Definition operator_mul_matrix_scalar (mat : loc) (scalar : T)
  : M T (Eigen.Mat T) :=
  m ← read_matrix mat;
  mret (Eigen.mscale_r (matrix_eigen m) scalar).

(** matrix-scalar multiplication *)
Definition operator_mul_scalar_matrix (scalar : T) (mat : loc)
  : M T (Eigen.Mat T) :=
  m ← read_matrix mat;
  mret (Eigen.mscale_l scalar (matrix_eigen m)).

(** matrix-scalar division *)
Definition operator_div_matrix_scalar (mat : loc) (scalar : T)
  : M T (Eigen.Mat T) :=
  m ← read_matrix mat;
  mret (Eigen.mquot (matrix_eigen m) scalar).

(** matrix-vector multiplication *)
Definition operator_mul_matrix_vector (mat vec : loc)
  : M T (Eigen.Vec T) :=
  m ← read_matrix mat;
  v ← read_vector vec;
  lift (Eigen.mulMV (matrix_eigen m) (vector_eigen v)).

(** matrix-vector multiplication (with eigen::Map) *)
Definition operator_mul_matmap_vector (mat : matrix_map) (vec : loc)
  : M T (Eigen.Vec T) :=
  m ← read_matrix_map mat;
  v ← read_vector vec;
  lift (Eigen.mulMV m (vector_eigen v)).

(** matrix-vector multiplication (with eigen::Map) *)
Definition operator_mul_matrix_map (mat : loc) (vec : vector_map)
  : M T (Eigen.Vec T) :=
  m ← read_matrix mat;
  v ← read_vector_map vec;
  lift (Eigen.mulMV (matrix_eigen m) v).

(** vector-matrix multiplication *)
Definition operator_mul_vector_matrix (vecT mat : loc)
  : M T (Eigen.Vec T) :=
  v ← read_vector vecT;
  m ← read_matrix mat;
  lift (Eigen.mulVM (vector_eigen v) (matrix_eigen m)).

(** matrix-matrix multiplication *)
Definition operator_mul_matrix_matrix (lhs rhs : loc)
  : M T (Eigen.Mat T) :=
  a ← read_matrix lhs;
  b ← read_matrix rhs;
  lift (Eigen.mulMM (matrix_eigen a) (matrix_eigen b)).

(** matrix-matrix addition *)
Definition operator_add_matrix_matrix (lhs rhs : loc)
  : M T (Eigen.Mat T) :=
  a ← read_matrix lhs;
  b ← read_matrix rhs;
  lift (Eigen.madd (matrix_eigen a) (matrix_eigen b)).

(** matrix-matrix subtraction *)
Definition operator_sub_matrix_matrix (lhs rhs : loc)
  : M T (Eigen.Mat T) :=
  a ← read_matrix lhs;
  b ← read_matrix rhs;
  lift (Eigen.msub (matrix_eigen a) (matrix_eigen b)).
End Operators.

Module eigen.
Section Functions.
Context {T : Type} `{Scalar T}.

(** transpose a matrix *)
Definition transpose (mat : loc) : M T (matrix T) :=
  m ← read_matrix mat;
  mret (mk_matrix (Eigen.transpose (matrix_eigen m))).

(** inverse of a matrix *)
Definition inverse `{Eigen.Inverse T} (mat : loc) : M T (matrix T) :=
  m ← read_matrix mat;
  r ← lift (Eigen.inverse (matrix_eigen m));
  mret (mk_matrix r).

(** general l-norm of a vector *)
Definition norm_l `{Libm T} (_l : Z) (vec : loc) : M T T :=
  v ← read_vector vec;
  mret (Eigen.lpNorm _l (vector_eigen v)).

(** norm of a vector *)
Definition norm (vec : loc) : M T T :=
  v ← read_vector vec;
  mret (Eigen.norm (vector_eigen v)).

(** normalize a vector via general l-norm *)
Definition normalize_l `{Libm T} (_l : Z) (vec : loc) : M T unit :=
  n ← norm_l _l vec;
  q ← operator_div_vector_scalar vec n;
  write_vector vec q.

(** normalize a vector *)
Definition normalize (vec : loc) : M T unit :=
  v ← read_vector vec;
  write_vector vec (mk_vector (Eigen.normalize (vector_eigen v))).

(** Frobenius norm of a matrix *)
Definition norm_matrix (mat : loc) : M T T :=
  m ← read_matrix mat;
  mret (Eigen.mnorm (matrix_eigen m)).

(** accumulate/sum all entries of a vector *)
Definition sum (vec : loc) : M T T :=
  v ← read_vector vec;
  mret (Eigen.sum (vector_eigen v)).

(** coefficient-wise vector multiplication: a[i] * b[i] = c[i] *)
Definition cprod (vec1 vec2 : loc) : M T (vector T) :=
  a ← read_vector vec1;
  b ← read_vector vec2;
  r ← lift (Eigen.cwiseProduct (vector_eigen a) (vector_eigen b));
  mret (mk_vector r).

(** coefficient-wise vector multiplication (with eigen::Map) *)
Definition cprod_map_vector (vec1 : vector_map) (vec2 : loc)
  : M T (vector T) :=
  a ← read_vector_map vec1;
  b ← read_vector vec2;
  r ← lift (Eigen.cwiseProduct a (vector_eigen b));
  mret (mk_vector r).

(** coefficient-wise vector multiplication (with eigen::Map) *)
Definition cprod_vector_map (vec1 : loc) (vec2 : vector_map)
  : M T (vector T) :=
  a ← read_vector vec1;
  b ← read_vector_map vec2;
  r ← lift (Eigen.cwiseProduct (vector_eigen a) b);
  mret (mk_vector r).

(** coefficient-wise vector division: a[i] / b[i] = c[i] *)
Definition cdiv (vec1 vec2 : loc) : M T (vector T) :=
  a ← read_vector vec1;
  b ← read_vector vec2;
  r ← lift (Eigen.cwiseQuotient (vector_eigen a) (vector_eigen b));
  mret (mk_vector r).

(** applying unary operation *)
Definition unary (vec1 : loc) (func : T -> T) : M T (vector T) :=
  a ← read_vector vec1;
  mret (mk_vector (Eigen.unaryExpr func (vector_eigen a))).
End Functions.
End eigen.
End math.


(** ** The overload table

    One entry per function definition of [operators.h], in source order,
    with the C++ name, the declared parameter types and the declared return
    type. *)

Inductive ctype :=
  | TVoid            (* void *)
  | TInt             (* the template argument int _l *)
  | TScalar          (* _T *)
  | TScalarCRef      (* const _T& *)
  | TVector          (* vector<_T> *)
  | TVectorCRef      (* const vector<_T>& *)
  | TVectorRef       (* vector<_T>& *)
  | TVectorMap       (* const typename vector<_T>::map_type& *)
  | TVectorEigen     (* typename vector<_T>::eigen_type *)
  | TMatrix          (* matrix<_T> *)
  | TMatrixCRef      (* const matrix<_T>& *)
  | TMatrixMap       (* const typename matrix<_T>::map_type& *)
  | TMatrixEigen     (* typename matrix<_T>::eigen_type *)
  | TFunc            (* const _Func& *)
  | TStreamRef.      (* std::ostream& *)

#[export] Instance ctype_eq_dec : EqDecision ctype.
Proof. solve_decision. Defined.

Inductive fn :=
  | ShlMatrix | ShlVector
  | Transpose | Inverse | NormL | Norm | NormalizeL | Normalize
  | NormMatrix | Sum
  | MulVectorScalar | MulScalarVector | DivVectorScalar
  | MulVectorVector | MulMapVector | MulVectorMap
  | Cprod | CprodMapVector | CprodVectorMap | Cdiv | Unary
  | AddVectorVector | AddMapVector | AddVectorMap
  | AddAssign | SubAssign | MulAssign | DivAssign
  | SubVectorVector | SubMapVector | SubVectorMap
  | MulMatrixScalar | MulScalarMatrix | DivMatrixScalar
  | MulMatrixVector | MulMatmapVector | MulMatrixMap
  | MulVectorMatrix
  | MulMatrixMatrix | AddMatrixMatrix | SubMatrixMatrix.

#[export] Instance fn_eq_dec : EqDecision fn.
Proof. solve_decision. Defined.

Definition all_fns : list fn :=
  [ ShlMatrix; ShlVector;
    Transpose; Inverse; NormL; Norm; NormalizeL; Normalize;
    NormMatrix; Sum;
    MulVectorScalar; MulScalarVector; DivVectorScalar;
    MulVectorVector; MulMapVector; MulVectorMap;
    Cprod; CprodMapVector; CprodVectorMap; Cdiv; Unary;
    AddVectorVector; AddMapVector; AddVectorMap;
    AddAssign; SubAssign; MulAssign; DivAssign;
    SubVectorVector; SubMapVector; SubVectorMap;
    MulMatrixScalar; MulScalarMatrix; DivMatrixScalar;
    MulMatrixVector; MulMatmapVector; MulMatrixMap;
    MulVectorMatrix;
    MulMatrixMatrix; AddMatrixMatrix; SubMatrixMatrix ].

Definition name (f : fn) : string :=
  match f with
  | ShlMatrix | ShlVector => "operator<<"
  | Transpose => "transpose"
  | Inverse => "inverse"
  | NormL | Norm | NormMatrix => "norm"
  | NormalizeL | Normalize => "normalize"
  | Sum => "sum"
  | MulVectorScalar | MulScalarVector | MulVectorVector | MulMapVector
  | MulVectorMap | MulMatrixScalar | MulScalarMatrix | MulMatrixVector
  | MulMatmapVector | MulMatrixMap | MulVectorMatrix | MulMatrixMatrix =>
      "operator*"
  | DivVectorScalar | DivMatrixScalar => "operator/"
  | Cprod | CprodMapVector | CprodVectorMap => "cprod"
  | Cdiv => "cdiv"
  | Unary => "unary"
  | AddVectorVector | AddMapVector | AddVectorMap | AddMatrixMatrix =>
      "operator+"
  | AddAssign => "operator+="
  | SubAssign => "operator-="
  | MulAssign => "operator*="
  | DivAssign => "operator/="
  | SubVectorVector | SubMapVector | SubVectorMap | SubMatrixMatrix =>
      "operator-"
  end.

Definition params (f : fn) : list ctype :=
  match f with
  | ShlMatrix => [TStreamRef; TMatrixCRef]
  | ShlVector => [TStreamRef; TVectorCRef]
  | Transpose | Inverse | NormMatrix => [TMatrixCRef]
  | NormL => [TInt; TVectorCRef]
  | Norm | Sum => [TVectorCRef]
  | NormalizeL => [TInt; TVectorRef]
  | Normalize => [TVectorRef]
  | MulVectorScalar | DivVectorScalar => [TVectorCRef; TScalarCRef]
  | MulScalarVector => [TScalarCRef; TVectorCRef]
  | MulVectorVector | Cprod | Cdiv | AddVectorVector | SubVectorVector =>
      [TVectorCRef; TVectorCRef]
  | MulMapVector | CprodMapVector | AddMapVector | SubMapVector =>
      [TVectorMap; TVectorCRef]
  | MulVectorMap | CprodVectorMap | AddVectorMap | SubVectorMap =>
      [TVectorCRef; TVectorMap]
  | Unary => [TVectorCRef; TFunc]
  | AddAssign | SubAssign => [TVectorRef; TVectorCRef]
  | MulAssign | DivAssign => [TVectorRef; TScalarCRef]
  | MulMatrixScalar | DivMatrixScalar => [TMatrixCRef; TScalarCRef]
  | MulScalarMatrix => [TScalarCRef; TMatrixCRef]
  | MulMatrixVector => [TMatrixCRef; TVectorCRef]
  | MulMatmapVector => [TMatrixMap; TVectorCRef]
  | MulMatrixMap => [TMatrixCRef; TVectorMap]
  | MulVectorMatrix => [TVectorCRef; TMatrixCRef]
  | MulMatrixMatrix | AddMatrixMatrix | SubMatrixMatrix =>
      [TMatrixCRef; TMatrixCRef]
  end.

Definition ret (f : fn) : ctype :=
  match f with
  | ShlMatrix | ShlVector => TStreamRef
  | Transpose | Inverse => TMatrix
  | NormL | Norm | NormMatrix | Sum => TScalar
  | NormalizeL | Normalize => TVoid
  | MulVectorScalar | MulScalarVector | DivVectorScalar => TVector
  | MulVectorVector | MulMapVector | MulVectorMap => TScalar
  | Cprod | CprodMapVector | CprodVectorMap | Cdiv | Unary => TVector
  | AddVectorVector | AddMapVector | AddVectorMap => TVector
  | AddAssign | SubAssign | MulAssign | DivAssign => TVectorRef
  | SubVectorVector | SubMapVector | SubVectorMap => TVectorEigen
  | MulMatrixScalar | MulScalarMatrix | DivMatrixScalar => TMatrixEigen
  | MulMatrixVector | MulMatmapVector | MulMatrixMap | MulVectorMatrix =>
      TVectorEigen
  | MulMatrixMatrix | AddMatrixMatrix | SubMatrixMatrix => TMatrixEigen
  end.

(** What a value of each declared type is in the embedding: a reference is
    the location of its object, a view is the view record. *)
Definition denote (T : Type) (c : ctype) : Type :=
  match c with
  | TVoid => unit
  | TInt => Z
  | TScalar | TScalarCRef => T
  | TVector => math.vector T
  | TVectorCRef | TVectorRef => math.loc
  | TVectorMap => math.vector_map
  | TVectorEigen => Eigen.Vec T
  | TMatrix => math.matrix T
  | TMatrixCRef => math.loc
  | TMatrixMap => math.matrix_map
  | TMatrixEigen => Eigen.Mat T
  | TFunc => T -> T
  | TStreamRef => math.loc
  end.

Fixpoint arrow (T : Type) (ps : list ctype) (R : Type) : Type :=
  match ps with
  | [] => R
  | p :: ps => denote T p -> arrow T ps R
  end.

Fixpoint operands (T : Type) (ps : list ctype) : Type :=
  match ps with
  | [] => unit
  | p :: ps => (denote T p * operands T ps)%type
  end.

Fixpoint call {T : Type} {R : Type} (ps : list ctype)
  : arrow T ps R -> operands T ps -> R :=
  match ps with
  | [] => fun f _ => f
  | p :: ps => fun f args => call ps (f (fst args)) (snd args)
  end.

Section Dispatch.
Context {T : Type} `{Scalar T} `{Libm T} `{Eigen.Inverse T}.

(** The definition behind each entry; its type is the declared one. *)
Definition definition (f : fn)
  : arrow T (params f) (math.M T (denote T (ret f))) :=
  match f with
  | ShlMatrix => math.operator_shl_matrix
  | ShlVector => math.operator_shl_vector
  | Transpose => math.eigen.transpose
  | Inverse => math.eigen.inverse
  | NormL => math.eigen.norm_l
  | Norm => math.eigen.norm
  | NormalizeL => math.eigen.normalize_l
  | Normalize => math.eigen.normalize
  | NormMatrix => math.eigen.norm_matrix
  | Sum => math.eigen.sum
  | MulVectorScalar => math.operator_mul_vector_scalar
  | MulScalarVector => math.operator_mul_scalar_vector
  | DivVectorScalar => math.operator_div_vector_scalar
  | MulVectorVector => math.operator_mul_vector_vector
  | MulMapVector => math.operator_mul_map_vector
  | MulVectorMap => math.operator_mul_vector_map
  | Cprod => math.eigen.cprod
  | CprodMapVector => math.eigen.cprod_map_vector
  | CprodVectorMap => math.eigen.cprod_vector_map
  | Cdiv => math.eigen.cdiv
  | Unary => math.eigen.unary
  | AddVectorVector => math.operator_add_vector_vector
  | AddMapVector => math.operator_add_map_vector
  | AddVectorMap => math.operator_add_vector_map
  | AddAssign => math.operator_add_assign
  | SubAssign => math.operator_sub_assign
  | MulAssign => math.operator_mul_assign
  | DivAssign => math.operator_div_assign
  | SubVectorVector => math.operator_sub_vector_vector
  | SubMapVector => math.operator_sub_map_vector
  | SubVectorMap => math.operator_sub_vector_map
  | MulMatrixScalar => math.operator_mul_matrix_scalar
  | MulScalarMatrix => math.operator_mul_scalar_matrix
  | DivMatrixScalar => math.operator_div_matrix_scalar
  | MulMatrixVector => math.operator_mul_matrix_vector
  | MulMatmapVector => math.operator_mul_matmap_vector
  | MulMatrixMap => math.operator_mul_matrix_map
  | MulVectorMatrix => math.operator_mul_vector_matrix
  | MulMatrixMatrix => math.operator_mul_matrix_matrix
  | AddMatrixMatrix => math.operator_add_matrix_matrix
  | SubMatrixMatrix => math.operator_sub_matrix_matrix
  end.

Definition run (f : fn) (args : operands T (params f))
  : math.M T (denote T (ret f)) :=
  call (params f) (definition f) args.
End Dispatch.


(** ** Vocabulary of the statements *)

Import math.

Section Expressions.
Context {T : Type} `{Scalar T}.

(** [(a + b) - b]: the sum is a temporary [vector<_T>] that the left
    parameter of [operator-] is bound to. *)
Definition add_then_sub (a b : loc) : M T (Eigen.Vec T) :=
  t ← operator_add_vector_vector a b;
  l ← temporary (VectorObj t);
  operator_sub_vector_vector l b.

(** [transpose(transpose(M))]. *)
Definition transpose_twice (mat : loc) : M T (matrix T) :=
  t ← eigen.transpose mat;
  l ← temporary (MatrixObj t);
  eigen.transpose l.

(** The value a computation returns, the store left aside. *)
Definition value_of {A} (m : M T A) (h : heap T) : outcome A := fst <$> m h.

(** A computation that only reads the store. *)
Definition read_only {A} (m : M T A) : Prop :=
  forall h a h', m h = Ok (a, h') -> h' = h.

(** A vector literal. *)
Definition ints (l : list Z) : vector T := mk_vector (map of_int l).

(** An operand that refers to a live object of its declared type. *)
Definition live (h : heap T) (c : ctype) : denote T c -> Prop :=
  match c with
  | TVectorCRef | TVectorRef =>
      fun l => exists v, h !! l = Some (VectorObj v)
  | TMatrixCRef => fun l => exists m, h !! l = Some (MatrixObj m)
  | TStreamRef => fun l => exists out, h !! l = Some (StreamObj out)
  | TVectorMap => fun v =>
      exists a, h !! vm_data v = Some (ArrayObj a) /\ vm_size v <= length a
  | TMatrixMap => fun v =>
      exists a, h !! mm_data v = Some (ArrayObj a) /\
                mm_cols v * mm_rows v <= length a
  | _ => fun _ => True
  end.

Fixpoint all_live (h : heap T) (ps : list ctype) : operands T ps -> Prop :=
  match ps with
  | [] => fun _ => True
  | p :: ps => fun args => live h p (fst args) /\ all_live h ps (snd args)
  end.

(** The cofactor formula for the inverse, a kernel to run examples with;
    the theorems hold for whatever kernel the engine has. *)
Definition skip (k x : nat) : nat := if Nat.ltb x k then x else S x.

Definition minor (m : Eigen.Mat T) (i j : nat) : Eigen.Mat T :=
  Eigen.mkMat (Eigen.rows m - 1) (Eigen.cols m - 1)
    (Eigen.tabulate (Eigen.rows m - 1) (Eigen.cols m - 1)
       (fun a b => Eigen.coeff m (skip i a) (skip j b))).

Definition sign (k : nat) : T :=
  if Nat.even k then of_int 1 else of_int (-1).

Fixpoint det (n : nat) (m : Eigen.Mat T) : T :=
  match n with
  | O => of_int 1
  | S n' =>
      Eigen.sum (map (fun j =>
        smul (smul (sign j) (Eigen.coeff m 0 j)) (det n' (minor m 0 j)))
        (seq 0 (S n')))
  end.

Definition cofactor_inverse (m : Eigen.Mat T) : option (Eigen.Mat T) :=
  if Nat.eqb (Eigen.rows m) (Eigen.cols m) then
    let n := Eigen.rows m in
    Some (Eigen.mkMat n n (Eigen.tabulate n n (fun i j =>
            sdiv (smul (sign (i + j)) (det (n - 1) (minor m j i))) (det n m))))
  else None.
End Expressions.

(** The operations that compute a value: the four operators and the named
    functions other than [normalize]. *)
Definition value_operations : list string :=
  ["operator+"; "operator-"; "operator*"; "operator/"; "transpose";
   "inverse"; "norm"; "sum"; "cprod"; "cdiv"; "unary"]%string.

Definition is_value_operation (f : fn) : bool :=
  bool_decide (name f ∈ value_operations).

(** Declared types that are returned by value. *)
Definition by_value (c : ctype) : bool :=
  match c with
  | TScalar | TVector | TMatrix | TVectorEigen | TMatrixEigen => true
  | _ => false
  end.

(** The layer's own result types: its containers and the element type. *)
Definition layer_result (c : ctype) : bool :=
  match c with
  | TScalar | TVector | TMatrix => true
  | _ => false
  end.

(** The engine's native dense types. *)
Definition engine_result (c : ctype) : bool :=
  match c with
  | TVectorEigen | TMatrixEigen => true
  | _ => false
  end.

(** Views, and the owning parameter type a view stands in for. *)
Definition is_view (c : ctype) : bool :=
  match c with
  | TVectorMap | TMatrixMap => true
  | _ => false
  end.

Definition owner_of (c : ctype) : ctype :=
  match c with
  | TVectorMap => TVectorCRef
  | TMatrixMap => TMatrixCRef
  | c => c
  end.

(** [g] is an overload of [f] that takes a view where [f] takes a
    container. *)
Definition view_overload_of (f g : fn) : bool :=
  bool_decide (name g = name f) &&
  bool_decide (map owner_of (params g) = params f) &&
  existsb is_view (params g).

Definition view_overloads (f : fn) : list fn :=
  filter (fun g => view_overload_of f g = true) all_fns.

(** The sum of a list of reals, from the right. *)
Definition Rsum (l : list R) : R := fold_right Rplus 0%R l.

(** A real vector that is not the zero vector. *)
Definition some_nonzero (v : list R) : Prop := exists x, x ∈ v /\ x <> 0%R.

(** Binary64 values and a tolerance test. *)
Definition DBL_MAX : binary64 := SFmax_float 53 1024.
Definition pos_inf : binary64 := S754_infinity false.
(** 2^-600; its square is below the least subnormal. *)
Definition two_pow_m600 : binary64 := S754_finite false 4503599627370496 (-652).
Definition b64_half : binary64 := S754_finite false 4503599627370496 (-53).
Definition b64_quarter : binary64 := S754_finite false 4503599627370496 (-54).

Definition within (tol x y : binary64) : bool :=
  SFleb (SFabs (SFsub 53 1024 x y)) tol.

(** ** Vocabulary of the further properties *)

Section MoreExpressions.
Context {T : Type} `{Scalar T}.

(** The identity matrix of size [n]. *)
Definition identity (n : nat) : Eigen.Mat T :=
  Eigen.mkMat n n
    (Eigen.tabulate n n (fun i j => if Nat.eqb i j then of_int 1 else of_int 0)).

(** The operand a function can write through: its first parameter that is
    a reference to a non-const object, [vector<_T>&] or [std::ostream&]. *)
Fixpoint mutable_operand (ps : list ctype) : operands T ps -> option loc :=
  match ps with
  | [] => fun _ => None
  | p :: ps => fun args =>
      match p return denote T p -> option loc with
      | TVectorRef | TStreamRef => fun l => Some l
      | _ => fun _ => mutable_operand ps (snd args)
      end (fst args)
  end.

(** Two objects of the same type. *)
Definition same_kind (o o' : object T) : Prop :=
  match o, o' with
  | VectorObj _, VectorObj _ | MatrixObj _, MatrixObj _
  | ArrayObj _, ArrayObj _ | StreamObj _, StreamObj _ => True
  | _, _ => False
  end.

(** [(vec * s) / s]. *)
Definition scale_then_divide (vec : loc) (s : T) : M T (vector T) :=
  t ← operator_mul_vector_scalar vec s;
  l ← temporary (VectorObj t);
  operator_div_vector_scalar l s.

(** [cdiv(cprod(a, b), b)]. *)
Definition cprod_then_cdiv (a b : loc) : M T (vector T) :=
  t ← eigen.cprod a b;
  l ← temporary (VectorObj t);
  eigen.cdiv l b.

(** [unary(unary(vec, f), g)]. *)
Definition unary_twice (vec : loc) (f g : T -> T) : M T (vector T) :=
  t ← eigen.unary vec f;
  l ← temporary (VectorObj t);
  eigen.unary l g.

(** [mat * transpose(mat)]. *)
Definition times_own_transpose (mat : loc) : M T (Eigen.Mat T) :=
  t ← eigen.transpose mat;
  l ← temporary (MatrixObj t);
  operator_mul_matrix_matrix mat l.

(** [norm(vec * s)]. *)
Definition norm_of_scaled (vec : loc) (s : T) : M T T :=
  t ← operator_mul_vector_scalar vec s;
  l ← temporary (VectorObj t);
  eigen.norm l.

(** [sum(a + b)]. *)
Definition sum_of_sum (a b : loc) : M T T :=
  t ← operator_add_vector_vector a b;
  l ← temporary (VectorObj t);
  eigen.sum l.

(** [stream << vec << mat]. *)
Definition print_vector_then_matrix (stream vec mat : loc) : M T loc :=
  s ← operator_shl_vector stream vec;
  operator_shl_matrix s mat.

(** [lhs = lhs + rhs] and its siblings, written with the binary operator
    and an assignment. *)
Definition assign_sum (lhs rhs : loc) : M T loc :=
  t ← operator_add_vector_vector lhs rhs;
  _ ← write_vector lhs t;
  mret lhs.

Definition assign_difference (lhs rhs : loc) : M T loc :=
  t ← operator_sub_vector_vector lhs rhs;
  _ ← write_vector lhs (mk_vector t);
  mret lhs.

Definition assign_product (lhs : loc) (s : T) : M T loc :=
  t ← operator_mul_vector_scalar lhs s;
  _ ← write_vector lhs t;
  mret lhs.

Definition assign_quotient (lhs : loc) (s : T) : M T loc :=
  t ← operator_div_vector_scalar lhs s;
  _ ← write_vector lhs t;
  mret lhs.
End MoreExpressions.

Definition b64_zero : binary64 := S754_zero false.

(** ** Binary64 numbers as whole numbers of units *)

Section Binary64Units.
Local Open Scope Z_scope.

(** Every finite binary64 number is a whole number of units of 2^-1074,
    the least subnormal.  [b64_units] is that whole number, so that the
    exact sum, difference and distance of two binary64 numbers are those
    of two integers. *)
Definition b64_units (x : binary64) : Z :=
  match x with
  | S754_finite s m e => cond_Zopp s (Zpos m) * 2 ^ (e + 1074)
  | _ => 0
  end.

(** Zero, subnormal or normal: neither an infinity nor a NaN. *)
Definition b64_finite (x : binary64) : bool :=
  match x with
  | S754_zero _ | S754_finite _ _ _ => true
  | _ => false
  end.

(** A finite number in its canonical representation, as every [double]
    is. *)
Definition b64_number (x : binary64) : bool :=
  valid_binary 53 1024 x && b64_finite x.

Definition b64_negative_zero (x : binary64) : bool :=
  match x with
  | S754_zero true => true
  | _ => false
  end.

(** The sum of [x] and [y] is computed without rounding: it is finite and
    its value is the exact sum.  (A negative zero on the left is left
    out: it does not come back from [-0 + y - y].) *)
Definition exact_sum (x y : binary64) : bool :=
  valid_binary 53 1024 x && valid_binary 53 1024 y &&
  b64_finite x && b64_finite y && negb (b64_negative_zero x) &&
  valid_binary 53 1024 (SFadd 53 1024 x y) && b64_finite (SFadd 53 1024 x y) &&
  Z.eqb (b64_units (SFadd 53 1024 x y)) (b64_units x + b64_units y).

(** A finite number whose exponent is not below that of the subnormals. *)
Definition b64_grid (x : binary64) : Prop :=
  match x with
  | S754_zero _ => True
  | S754_finite _ _ e => -1074 <= e
  | _ => False
  end.

(** [v] approximates [x] with an error of at most 2^-52 times [|v|]. *)
Definition near (v x : Z) : Prop := Z.abs (v - x) * 2 ^ 52 <= Z.abs v.
End Binary64Units.

(** ** Binary64 numbers as real numbers *)

(** 2^e, for an exponent of either sign. *)
Definition bpow (e : Z) : R := powerRZ 2 e.

(** The real number that a binary64 number stands for; the infinities and
    NaN are given the value 0 and are told apart by [b64_finite]. *)
Definition B2R (x : binary64) : R :=
  match x with
  | S754_finite s m e => (IZR (cond_Zopp s (Zpos m)) * bpow e)%R
  | _ => 0%R
  end.

(** The value of a mantissa and an exponent. *)
Definition val (m : positive) (e : Z) : R := (IZR (Zpos m) * bpow e)%R.

(** A mantissa of 53 digits and an exponent in range: a normal number. *)
Definition normal_me (m : positive) (e : Z) : Prop :=
  (2 ^ 52 <= Zpos m < 2 ^ 53 /\ -1074 <= e <= 971)%Z.

(** 2^-52, the distance from 1 to the next binary64 number: the relative
    error of a rounding to one of the two neighbours of the exact value is
    at most this. *)
Definition unit_roundoff : R := bpow (-52).

(** [r] is one of the two binary64 neighbours of the exact value [x]. *)
Definition rnd (r x : R) : Prop :=
  (r * (1 - unit_roundoff) <= x <= r * (1 + unit_roundoff))%R.

(** The growth factor of one rounding. *)
Definition growth : R := (/ (1 - unit_roundoff))%R.

(** [r] approximates [x >= 0] after [k] roundings: each of the two is at
    most the other times [growth ^ k]. *)
Definition approx (k : nat) (r x : R) : Prop :=
  (0 <= x /\ x <= r * growth ^ k /\ r <= x * growth ^ k)%R.

(** Zero of either sign, or a normal number. *)
Definition zero_or_normal (x : binary64) : Prop :=
  match x with
  | S754_zero _ => True
  | S754_finite _ m e => normal_me m e
  | _ => False
  end.

(** Positive zero, or a positive normal number. *)
Definition nonneg_normal (x : binary64) : Prop :=
  match x with
  | S754_zero s => s = false
  | S754_finite s m e => s = false /\ normal_me m e
  | _ => False
  end.

(** Zero, or a normal number of magnitude from 2^-200 up to 2^200: far
    enough from the ends of the binary64 range for squares, sums and
    quotients of such numbers neither to overflow nor to underflow. *)
Definition b64_moderate (x : binary64) : bool :=
  match x with
  | S754_zero _ => true
  | S754_finite _ m e =>
      (2 ^ 52 <=? Zpos m)%Z && (Zpos m <? 2 ^ 53)%Z &&
      (-252 <=? e)%Z && (e <=? 147)%Z
  | _ => false
  end.

Definition b64_nonzero (x : binary64) : bool :=
  match x with
  | S754_finite _ _ _ => true
  | _ => false
  end.

Definition b64_square (x : binary64) : R := (B2R x * B2R x)%R.

Definition b64_magnitude (x : binary64) : R := Rabs (B2R x).


(** ** Facts about the store monad *)

Section MonadFacts.
Context {T : Type} `{Scalar T}.
Implicit Types (h : heap T) (l : loc).

Lemma read_only_ret {A} (a : A) : read_only (T:=T) (mret a).
Proof. intros h a' h' E. by inversion E. Qed.

Lemma read_only_lift {A} (o : option A) : read_only (T:=T) (lift o).
Proof. intros h a h' E. unfold lift in E. destruct o; by inversion E. Qed.

Lemma read_only_bind {A B} (m : M T A) (k : A -> M T B) :
  read_only m -> (forall a, read_only (k a)) -> read_only (m ≫= k).
Proof.
  intros Hm Hk h b h' E. unfold mbind, M_bind in E.
  destruct (m h) as [[a h1]|e] eqn:Em; [|discriminate].
  apply Hm in Em. subst h1. by apply (Hk a) in E.
Qed.

Lemma read_only_read_vector l : read_only (read_vector (T:=T) l).
Proof.
  intros h a h' E. unfold read_vector in E.
  destruct (h !! l) as [[]|]; by inversion E.
Qed.

Lemma read_only_read_matrix l : read_only (read_matrix (T:=T) l).
Proof.
  intros h a h' E. unfold read_matrix in E.
  destruct (h !! l) as [[]|]; by inversion E.
Qed.

Lemma read_only_read_vector_map v : read_only (read_vector_map (T:=T) v).
Proof.
  intros h a h' E. unfold read_vector_map in E.
  destruct (h !! vm_data v) as [[]|]; try discriminate.
  destruct (Nat.leb _ _); by inversion E.
Qed.

Lemma read_only_read_matrix_map v : read_only (read_matrix_map (T:=T) v).
Proof.
  intros h a h' E. unfold read_matrix_map in E.
  destruct (h !! mm_data v) as [[]|]; try discriminate.
  destruct (Nat.leb _ _); by inversion E.
Qed.

(** Reading a live operand. *)
Lemma bind_read_vector {B} l v (k : vector T -> M T B) h :
  h !! l = Some (VectorObj v) -> (read_vector l ≫= k) h = k v h.
Proof. intros E. unfold mbind, M_bind, read_vector. by rewrite E. Qed.

Lemma bind_read_matrix {B} l m (k : matrix T -> M T B) h :
  h !! l = Some (MatrixObj m) -> (read_matrix l ≫= k) h = k m h.
Proof. intros E. unfold mbind, M_bind, read_matrix. by rewrite E. Qed.

Lemma bind_read_vector_map {B} v a (k : Eigen.Vec T -> M T B) h :
  h !! vm_data v = Some (ArrayObj a) -> vm_size v <= length a ->
  (read_vector_map v ≫= k) h = k (take (vm_size v) a) h.
Proof.
  intros E Hle. unfold mbind, M_bind, read_vector_map. rewrite E.
  by rewrite (proj2 (Nat.leb_le _ _) Hle).
Qed.

Lemma bind_read_matrix_map {B} v a (k : Eigen.Mat T -> M T B) h :
  h !! mm_data v = Some (ArrayObj a) -> mm_cols v * mm_rows v <= length a ->
  (read_matrix_map v ≫= k) h =
  k (Eigen.mkMat (mm_rows v) (mm_cols v) (take (mm_cols v * mm_rows v) a)) h.
Proof.
  intros E Hle. unfold mbind, M_bind, read_matrix_map. rewrite E.
  by rewrite (proj2 (Nat.leb_le _ _) Hle).
Qed.

Lemma bind_lift {A B} (o : option A) (k : A -> M T B) h :
  (lift o ≫= k) h =
  match o with Some a => k a h | None => Fault EngineAssertion end.
Proof. unfold mbind, M_bind, lift. by destruct o. Qed.

Lemma bind_write_vector {B} l v w (k : unit -> M T B) h :
  h !! l = Some (VectorObj v) ->
  (write_vector l w ≫= k) h = k tt (<[l := VectorObj w]> h).
Proof. intros E. unfold mbind, M_bind, write_vector. by rewrite E. Qed.

Lemma bind_assoc {A B C} (m : M T A) (k1 : A -> M T B) (k2 : B -> M T C) h :
  ((m ≫= k1) ≫= k2) h = (m ≫= (fun a => k1 a ≫= k2)) h.
Proof. unfold mbind, M_bind. by destruct (m h) as [[a h1]|e]. Qed.

Lemma bind_ret {A B} (a : A) (k : A -> M T B) h : (mret a ≫= k) h = k a h.
Proof. reflexivity. Qed.

Lemma bind_temporary {B} (o : object T) (k : loc -> M T B) h :
  (temporary o ≫= k) h = k (fresh (dom h)) (<[fresh (dom h) := o]> h).
Proof. reflexivity. Qed.

Lemma fresh_not_live h : h !! fresh (dom h) = None.
Proof. unfold heap in *. apply not_elem_of_dom_1, is_fresh. Qed.

Lemma lookup_after_temporary h l (o o' : object T) :
  h !! l = Some o -> <[fresh (dom h) := o']> h !! l = Some o.
Proof.
  intros E. unfold heap in *. rewrite lookup_insert_ne; [done|].
  intros Heq. subst l. pose proof (fresh_not_live h) as F.
  unfold heap in *. congruence.
Qed.
End MonadFacts.

Create HintDb frame.
#[export] Hint Resolve read_only_ret read_only_lift read_only_read_vector
  read_only_read_matrix read_only_read_vector_map read_only_read_matrix_map
  : frame.

Ltac head_of t := match t with ?f _ => head_of f | _ => t end.

Ltac unfold_call :=
  match goal with
  | |- read_only ?m => let f := head_of m in unfold f
  end.

Ltac read_only_steps :=
  repeat first
    [ apply read_only_bind; [ | intros ? ]
    | solve [ auto with frame ] ].

(** Rewrites the reads of live operands at the head of a computation. *)
Ltac reads :=
  repeat first
    [ rewrite bind_assoc
    | rewrite bind_ret
    | erewrite bind_read_vector by eassumption
    | erewrite bind_read_matrix by eassumption
    | erewrite bind_read_vector_map by eassumption
    | erewrite bind_read_matrix_map by eassumption
    | erewrite bind_write_vector by eassumption
    | rewrite bind_lift ].

(** ** Operands are left unchanged (C9) *)

Section Frame.
Context {T : Type} `{Scalar T} `{Libm T} `{Eigen.Inverse T}.

(** C9.  Every operation that computes a value (the operators +, -, *, /
    and the named functions transpose, inverse, norm, sum, cprod, cdiv,
    unary, in all their overloads) returns by value, and the store it
    returns with is the store it was called with: no operand is changed. *)
Theorem value_operations_leave_operands_unchanged
    (f : fn) (args : operands T (params f)) :
  is_value_operation f = true ->
  by_value (ret f) = true /\ read_only (run f args).
Proof.
  destruct f; intros Hn; try discriminate Hn; (split; [reflexivity|]);
  clear Hn; simpl in args; destruct args as (x & y); try destruct y as (y & z);
  cbv [run call definition fst snd params]; unfold_call; read_only_steps.
Qed.
End Frame.

Lemma value_operations_leave_operands_unchanged_witness :
  is_value_operation AddVectorVector = true /\
  (by_value (ret AddVectorVector) = true /\
   read_only (run (T:=R) (H1:=cofactor_inverse) AddVectorVector (1, (2, tt)))).
Proof.
  split; [reflexivity|].
  apply (value_operations_leave_operands_unchanged (T:=R) (H1:=cofactor_inverse)
           AddVectorVector (1, (2, tt))).
  reflexivity.
Defined.

(** ** Result types (C2) *)

(** C2, as stated, fails: vector-vector subtraction and the matrix-matrix
    operators are declared to return the engine's [eigen_type], which is
    not one of the layer's containers. *)
Lemma result_type_counterexample :
  ret SubVectorVector = TVectorEigen /\
  layer_result (ret SubVectorVector) = false /\
  ret AddMatrixMatrix = TMatrixEigen /\
  layer_result (ret AddMatrixMatrix) = false /\
  layer_result (ret SubMatrixMatrix) = false /\
  layer_result (ret MulMatrixMatrix) = false.
Proof. repeat split. Qed.

(** C2, amended.  Every operation that computes a value returns, by value,
    a layer container, a scalar or the engine's native dense type.  The
    native type is returned by exactly these: vector-vector subtraction,
    the matrix-scalar operators, the matrix-vector and vector-matrix
    products and the matrix-matrix operators, in all their overloads.
    [normalize] returns nothing, a compound assignment returns the
    reference to its left operand, [operator<<] the stream. *)
Theorem result_types (f : fn) :
  (is_value_operation f = true ->
     by_value (ret f) = true /\
     (layer_result (ret f) = true \/ engine_result (ret f) = true)) /\
  (engine_result (ret f) = true <->
     f ∈ [SubVectorVector; SubMapVector; SubVectorMap;
          MulMatrixScalar; MulScalarMatrix; DivMatrixScalar;
          MulMatrixVector; MulMatmapVector; MulMatrixMap; MulVectorMatrix;
          MulMatrixMatrix; AddMatrixMatrix; SubMatrixMatrix]) /\
  (is_value_operation f = false ->
     (name f = "normalize"%string /\ ret f = TVoid) \/
     (name f ∈ ["operator+="; "operator-="; "operator*="; "operator/="]%string
        /\ ret f = TVectorRef /\ head (params f) = Some TVectorRef) \/
     (name f = "operator<<"%string /\ ret f = TStreamRef)).
Proof.
  split; [|split].
  - destruct f; intros Hn; try discriminate Hn; (split; [reflexivity|]);
      cbn; auto.
  - rewrite <- (bool_decide_spec (f ∈ _)).
    destruct f; vm_compute;
      (split; intros E; first [reflexivity | exact I | discriminate E | destruct E]).
  - destruct f; intros Hn; try discriminate Hn; cbn.
    all: first
      [ left; split; reflexivity
      | right; right; split; reflexivity
      | right; left; split; [|split; reflexivity] ].
    all: rewrite <- (bool_decide_spec (_ ∈ _)); reflexivity.
Qed.

Lemma result_types_witness :
  is_value_operation SubVectorVector = true /\
  by_value (ret SubVectorVector) = true /\
  (layer_result (ret SubVectorVector) = true \/
   engine_result (ret SubVectorVector) = true).
Proof.
  split; [reflexivity|].
  apply (proj1 (result_types SubVectorVector)). reflexivity.
Defined.

(** ** Compound assignment (C4) *)

Section CompoundAssignment.
Context {T : Type} `{Scalar T}.

(** C4.  With [lhs] and [rhs] live vectors [a] and [b] of equal length,
    [lhs += rhs] and [lhs -= rhs] store the elementwise sum and difference
    in [lhs]; [lhs *= s] and [lhs /= s] store every element multiplied and
    divided by [s].  Nothing else in the store changes and the result is
    the reference [lhs] itself.  [lhs] and [rhs] may be the same object. *)
Theorem compound_assignment_in_place
    (h : heap T) (lhs rhs : loc) (a b : vector T) (s : T) :
  h !! lhs = Some (VectorObj a) ->
  h !! rhs = Some (VectorObj b) ->
  length (vector_eigen a) = length (vector_eigen b) ->
  operator_add_assign lhs rhs h =
    Ok (lhs, <[lhs := VectorObj
                 (mk_vector (zip_with sadd (vector_eigen a) (vector_eigen b)))]> h) /\
  operator_sub_assign lhs rhs h =
    Ok (lhs, <[lhs := VectorObj
                 (mk_vector (zip_with ssub (vector_eigen a) (vector_eigen b)))]> h) /\
  operator_mul_assign lhs s h =
    Ok (lhs, <[lhs := VectorObj
                 (mk_vector (map (fun x => smul x s) (vector_eigen a)))]> h) /\
  operator_div_assign lhs s h =
    Ok (lhs, <[lhs := VectorObj
                 (mk_vector (map (fun x => sdiv x s) (vector_eigen a)))]> h).
Proof.
  intros Ha Hb Hlen.
  unfold operator_add_assign, operator_sub_assign, operator_mul_assign,
    operator_div_assign.
  reads. unfold Eigen.add, Eigen.sub, Eigen.cwise.
  rewrite Hlen, Nat.eqb_refl. reads. repeat split.
Qed.
End CompoundAssignment.

Lemma compound_assignment_in_place_witness :
  let h : heap R :=
    {[ 1 := VectorObj (ints [1; 2; 3]%Z); 2 := VectorObj (ints [4; 5; 6]%Z) ]} in
  operator_add_assign 1 2 h =
    Ok (1, <[1 := VectorObj (mk_vector
                (zip_with Rplus (map IZR [1; 2; 3]%Z) (map IZR [4; 5; 6]%Z)))]> h).
Proof.
  intros h.
  refine (proj1 (compound_assignment_in_place h 1 2
            (ints [1; 2; 3]%Z) (ints [4; 5; 6]%Z) 0%R _ _ _));
    reflexivity.
Defined.

(** ** The concrete scenario (C7) *)

Lemma scenario_binary64 (h : heap binary64) (a b : loc) :
  h !! a = Some (VectorObj (ints [1; 2; 3]%Z)) ->
  h !! b = Some (VectorObj (ints [4; 5; 6]%Z)) ->
  operator_add_vector_vector a b h = Ok (ints [5; 7; 9]%Z, h) /\
  operator_mul_vector_vector a b h = Ok (of_int 32, h) /\
  eigen.cprod a b h = Ok (ints [4; 10; 18]%Z, h).
Proof.
  intros Ha Hb.
  unfold operator_add_vector_vector, operator_mul_vector_vector, eigen.cprod.
  reads. repeat split.
Qed.

Lemma scenario_real (h : heap R) (a b : loc) :
  h !! a = Some (VectorObj (ints [1; 2; 3]%Z)) ->
  h !! b = Some (VectorObj (ints [4; 5; 6]%Z)) ->
  operator_add_vector_vector a b h = Ok (ints [5; 7; 9]%Z, h) /\
  operator_mul_vector_vector a b h = Ok (of_int 32, h) /\
  eigen.cprod a b h = Ok (ints [4; 10; 18]%Z, h).
Proof.
  intros Ha Hb.
  unfold operator_add_vector_vector, operator_mul_vector_vector, eigen.cprod.
  reads. cbn. unfold mret, M_ret, ints. cbn.
  repeat split; repeat f_equal; lra.
Qed.

(** C7.  With [a = [1,2,3]] and [b = [4,5,6]], in binary64 and in exact
    arithmetic alike: [a + b] is [[5,7,9]], the inner product [a * b] is
    32 and [cprod(a, b)] is [[4,10,18]]. *)
Theorem concrete_scenario :
  (forall (h : heap binary64) (a b : loc),
     h !! a = Some (VectorObj (ints [1; 2; 3]%Z)) ->
     h !! b = Some (VectorObj (ints [4; 5; 6]%Z)) ->
     operator_add_vector_vector a b h = Ok (ints [5; 7; 9]%Z, h) /\
     operator_mul_vector_vector a b h = Ok (of_int 32, h) /\
     eigen.cprod a b h = Ok (ints [4; 10; 18]%Z, h)) /\
  (forall (h : heap R) (a b : loc),
     h !! a = Some (VectorObj (ints [1; 2; 3]%Z)) ->
     h !! b = Some (VectorObj (ints [4; 5; 6]%Z)) ->
     operator_add_vector_vector a b h = Ok (ints [5; 7; 9]%Z, h) /\
     operator_mul_vector_vector a b h = Ok (of_int 32, h) /\
     eigen.cprod a b h = Ok (ints [4; 10; 18]%Z, h)).
Proof. split; [exact scenario_binary64 | exact scenario_real]. Qed.

Lemma concrete_scenario_witness :
  let h : heap binary64 :=
    {[ 1 := VectorObj (ints [1; 2; 3]%Z); 2 := VectorObj (ints [4; 5; 6]%Z) ]} in
  operator_add_vector_vector 1 2 h = Ok (ints [5; 7; 9]%Z, h) /\
  operator_mul_vector_vector 1 2 h = Ok (of_int 32, h) /\
  eigen.cprod 1 2 h = Ok (ints [4; 10; 18]%Z, h).
Proof.
  intros h. apply (proj1 concrete_scenario h 1 2); reflexivity.
Defined.

(** ** Binary64 rounding *)

Section Binary64Rounding.
Local Open Scope Z_scope.

Lemma digits2_pos_size (p : positive) : digits2_pos p = Pos.size p.
Proof. induction p; cbn; congruence. Qed.

Lemma Zpos_size (p : positive) : Zpos (Pos.size p) = Z.log2 (Zpos p) + 1.
Proof. destruct p; cbn; lia. Qed.

Lemma Zpos_digits (p : positive) : Zpos (digits2_pos p) = Z.log2 (Zpos p) + 1.
Proof. rewrite digits2_pos_size. apply Zpos_size. Qed.

Lemma iter_pos_nat {A} (f : A -> A) (p : positive) (x : A) :
  SpecFloat.iter_pos f p x = Nat.iter (Pos.to_nat p) f x.
Proof.
  revert x. induction p as [p IH|p IH|]; intros x; cbn [SpecFloat.iter_pos].
  - rewrite !IH, Pos2Nat.inj_xI. cbn [Nat.iter Nat.mul].
    rewrite Nat.add_0_r, <- !Nat.iter_add. rewrite <- Nat.iter_succ_r. reflexivity.
  - rewrite !IH, Pos2Nat.inj_xO. cbn [Nat.mul].
    rewrite Nat.add_0_r, <- !Nat.iter_add. reflexivity.
  - reflexivity.
Qed.

Lemma Pos_iter_nat {A} (f : A -> A) (p : positive) (x : A) :
  Pos.iter f x p = Nat.iter (Pos.to_nat p) f x.
Proof. apply Pos2Nat.inj_iter. Qed.

Lemma Zpos_iter_xO (m : positive) (n : nat) :
  Zpos (Nat.iter n xO m) = Zpos m * 2 ^ Z.of_nat n.
Proof.
  induction n as [|n IH]; [cbn; lia|].
  rewrite Nat2Z.inj_succ, Z.pow_succ_r by lia.
  change (Nat.iter (S n) xO m) with (xO (Nat.iter n xO m)).
  rewrite Pos2Z.inj_xO, IH. lia.
Qed.

Lemma shr_exact (m : positive) (n : nat) :
  Nat.iter n shr_1 (Build_shr_record (Zpos (Nat.iter n xO m)) false false) =
  Build_shr_record (Zpos m) false false.
Proof.
  induction n as [|n IH]; [reflexivity|].
  rewrite Nat.iter_succ_r.
  change (Nat.iter (S n) xO m) with (xO (Nat.iter n xO m)).
  cbn [shr_1 orb]. exact IH.
Qed.

Lemma fexp_canonical (m : positive) (e : Z) :
  bounded 53 1024 m e = true ->
  fexp 53 1024 (Zpos (digits2_pos m) + e) = e /\ e <= 971.
Proof.
  unfold bounded, canonical_mantissa. intros Hb.
  apply andb_prop in Hb as [Hc He].
  apply Z.eqb_eq in Hc. apply Z.leb_le in He. split; [exact Hc|lia].
Qed.

Lemma binary_round_aux_canonical (s : bool) (m : positive) (e : Z) :
  bounded 53 1024 m e = true ->
  binary_round_aux 53 1024 s (Zpos m) e loc_Exact = S754_finite s m e.
Proof.
  intros Hb. destruct (fexp_canonical m e Hb) as [Hc He].
  unfold binary_round_aux, shr_fexp. cbn [Zdigits2 shr_record_of_loc].
  rewrite Hc, Z.sub_diag. cbn [shr shr_m loc_of_shr_record round_nearest_even].
  cbn [Zdigits2 shr_record_of_loc].
  rewrite Hc, Z.sub_diag. cbn [shr shr_m].
  replace (e <=? 1024 - 53) with true by (symmetry; apply Z.leb_le; lia).
  reflexivity.
Qed.

Lemma binary_round_exact (s : bool) (m : positive) (e : Z) (M : positive) (E : Z) :
  bounded 53 1024 m e = true ->
  Zpos M * 2 ^ Z.max 0 (E - e) = Zpos m * 2 ^ Z.max 0 (e - E) ->
  binary_round 53 1024 s M E = S754_finite s m e.
Proof.
  intros Hb Hv. destruct (fexp_canonical m e Hb) as [Hc He].
  assert (Zpos (digits2_pos M) + E = Zpos (digits2_pos m) + e) as Hd.
  { rewrite !Zpos_digits.
    assert (Z.log2 (Zpos M * 2 ^ Z.max 0 (E - e)) =
            Z.log2 (Zpos m * 2 ^ Z.max 0 (e - E))) as Hl by (by rewrite Hv).
    rewrite !Z.log2_mul_pow2 in Hl by lia. lia. }
  unfold binary_round. rewrite Hd, Hc. unfold shl_align.
  destruct (Z.lt_trichotomy E e) as [Hlt|[->|Hgt]].
  - (* the given mantissa is longer: shifted right in the rounding *)
    assert (e - E = Zpos (Z.to_pos (e - E))) as Hp by (rewrite Z2Pos.id; lia).
    set (p := Z.to_pos (e - E)) in *.
    rewrite Z.max_l, Z.max_r, Z.pow_0_r, Z.mul_1_r in Hv by lia.
    rewrite Hp in Hv |- *.
    assert (M = Nat.iter (Pos.to_nat p) xO m) as HM.
    { apply Pos2Z.inj. rewrite Zpos_iter_xO, positive_nat_Z. exact Hv. }
    unfold binary_round_aux, shr_fexp. cbn [Zdigits2 shr_record_of_loc].
    rewrite Hd, Hc, Hp. cbn [shr].
    rewrite iter_pos_nat, HM, shr_exact.
    cbn [shr_m loc_of_shr_record round_nearest_even Zdigits2 shr_record_of_loc].
    replace (E + Zpos p) with e by lia.
    rewrite Hc, Z.sub_diag. cbn [shr shr_m].
    replace (e <=? 1024 - 53) with true by (symmetry; apply Z.leb_le; lia).
    reflexivity.
  - rewrite Z.sub_diag, Z.max_id, Z.pow_0_r, !Z.mul_1_r in Hv.
    injection Hv as ->. rewrite Z.sub_diag.
    by apply binary_round_aux_canonical.
  - assert (e - E = Zneg (Z.to_pos (E - e))) as Hp.
    { rewrite <- Pos2Z.opp_pos, Z2Pos.id; lia. }
    set (d := Z.to_pos (E - e)) in *.
    assert (E - e = Zpos d) as Hd' by (unfold d; rewrite Z2Pos.id; lia).
    rewrite Z.max_r, Z.max_l, Z.pow_0_r, Z.mul_1_r in Hv by lia.
    rewrite Hd' in Hv. rewrite Hp.
    assert (Pos.iter xO M d = m) as HM.
    { apply Pos2Z.inj. rewrite Pos_iter_nat, Zpos_iter_xO, positive_nat_Z.
      exact Hv. }
    rewrite HM. by apply binary_round_aux_canonical.
Qed.

(** ** Sums without rounding *)

Lemma valid_exponent (m : positive) (e : Z) :
  bounded 53 1024 m e = true -> -1074 <= e.
Proof.
  intros Hb. destruct (fexp_canonical m e Hb) as [Hc _].
  unfold fexp, emin in Hc. lia.
Qed.

Lemma shl_align_value (m : positive) (e ez : Z) :
  ez <= e -> Zpos (fst (shl_align m e ez)) = Zpos m * 2 ^ (e - ez).
Proof.
  intros Hle. unfold shl_align.
  destruct (Z.eq_dec ez e) as [->|Hne].
  - rewrite Z.sub_diag. cbn [fst]. rewrite Z.pow_0_r. lia.
  - assert (ez - e = Zneg (Z.to_pos (e - ez))) as ->.
    { rewrite <- Pos2Z.opp_pos, Z2Pos.id; lia. }
    cbn [fst]. rewrite Pos_iter_nat, Zpos_iter_xO, positive_nat_Z.
    rewrite Z2Pos.id by lia. reflexivity.
Qed.

Lemma cond_Zopp_mul (s : bool) (a b : Z) :
  cond_Zopp s a * b = cond_Zopp s (a * b).
Proof. destruct s; cbn; lia. Qed.

Lemma aligned_units (s : bool) (m : positive) (e ez : Z) :
  -1074 <= ez -> ez <= e ->
  cond_Zopp s (Zpos (fst (shl_align m e ez))) * 2 ^ (ez + 1074) =
  b64_units (S754_finite s m e).
Proof.
  intros H1 H2. rewrite shl_align_value by done. cbn [b64_units].
  rewrite !cond_Zopp_mul. f_equal. rewrite <- Z.mul_assoc. f_equal.
  rewrite <- Z.pow_add_r by lia. f_equal. lia.
Qed.

(** A valid number is the only one with its value. *)
Lemma binary_normalize_units (s : bool) (m : positive) (e : Z) (N E : Z) :
  bounded 53 1024 m e = true ->
  -1074 <= E ->
  N * 2 ^ (E + 1074) = b64_units (S754_finite s m e) ->
  binary_normalize 53 1024 N E false = S754_finite s m e.
Proof.
  intros Hb HE Hv. pose proof (valid_exponent m e Hb) as He.
  cbn [b64_units] in Hv.
  assert (0 < 2 ^ (E + 1074)) as HpE by (apply Z.pow_pos_nonneg; lia).
  assert (0 < 2 ^ (e + 1074)) as Hpe by (apply Z.pow_pos_nonneg; lia).
  assert (forall M : positive,
            Zpos M * 2 ^ (E + 1074) = Zpos m * 2 ^ (e + 1074) ->
            Zpos M * 2 ^ Z.max 0 (E - e) = Zpos m * 2 ^ Z.max 0 (e - E)) as Hkey.
  { intros M HM. destruct (Z.le_ge_cases e E) as [Hle|Hle].
    - rewrite Z.max_r, Z.max_l, Z.pow_0_r, Z.mul_1_r by lia.
      replace (E + 1074) with ((E - e) + (e + 1074)) in HM by lia.
      rewrite (Z.pow_add_r 2 (E - e)), Z.mul_assoc in HM by lia.
      apply Z.mul_reg_r in HM; [exact HM|lia].
    - rewrite Z.max_l, Z.max_r, Z.pow_0_r, Z.mul_1_r by lia.
      replace (e + 1074) with ((e - E) + (E + 1074)) in HM by lia.
      rewrite (Z.pow_add_r 2 (e - E)), Z.mul_assoc in HM by lia.
      apply Z.mul_reg_r in HM; [exact HM|lia]. }
  destruct N as [|M|M], s; cbn [cond_Zopp binary_normalize] in *; try lia.
  - apply binary_round_exact; [done|]. apply Hkey. lia.
  - apply binary_round_exact; [done|]. apply Hkey. lia.
Qed.

Lemma exact_sum_spec (x y : binary64) :
  exact_sum x y = true ->
  valid_binary 53 1024 x = true /\ valid_binary 53 1024 y = true /\
  b64_finite x = true /\ b64_finite y = true /\
  b64_negative_zero x = false /\
  valid_binary 53 1024 (SFadd 53 1024 x y) = true /\
  b64_finite (SFadd 53 1024 x y) = true /\
  b64_units (SFadd 53 1024 x y) = b64_units x + b64_units y.
Proof.
  unfold exact_sum. intros H.
  repeat (apply andb_prop in H as [H ?]).
  repeat split; try assumption.
  - by apply negb_true_iff.
  - by apply Z.eqb_eq.
Qed.

Lemma exact_sum_sub (x y : binary64) :
  exact_sum x y = true -> SFsub 53 1024 (SFadd 53 1024 x y) y = x.
Proof.
  intros H. apply exact_sum_spec in H
    as (Hvx & Hvy & Hfx & Hfy & Hnz & Hvs & Hfs & Hunits).
  destruct x as [sx| | |sx mx ex], y as [sy| | |sy my ey]; try discriminate.
  - (* zero and zero *) by destruct sx, sy.
  - (* zero and a finite number *)
    destruct sx; [discriminate|].
    cbn [SFadd SFsub]. rewrite Z.sub_diag. reflexivity.
  - (* a finite number and zero *) reflexivity.
  - (* two finite numbers *)
    cbn [valid_binary] in Hvx, Hvy.
    pose proof (valid_exponent _ _ Hvx) as Hex.
    pose proof (valid_exponent _ _ Hvy) as Hey.
    destruct (SFadd 53 1024 (S754_finite sx mx ex) (S754_finite sy my ey))
      as [ss| | |ss ms es] eqn:Hs; try discriminate.
    + (* the sum is zero *)
      cbn [SFsub]. cbn [b64_units] in Hunits.
      rewrite <- (binary_normalize_units (negb sy) my ey
                    (cond_Zopp (negb sy) (Zpos my)) ey) by (cbn; done || lia).
      apply binary_normalize_units; [done|lia|]. cbn [b64_units].
      destruct sx, sy; cbn [cond_Zopp negb] in *; lia.
    + cbn [valid_binary] in Hvs.
      pose proof (valid_exponent _ _ Hvs) as Hes.
      cbn [SFsub]. apply binary_normalize_units; [done|lia|].
      rewrite Z.mul_sub_distr_r, !aligned_units by lia.
      lia.
Qed.

(** ** Integers below 2^53 *)

Lemma integer_canonical (n : Z) :
  n <> 0 -> Z.abs n < 2 ^ 53 ->
  exists m e, bounded 53 1024 m e = true /\
    b64_units (S754_finite (n <? 0) m e) = n * 2 ^ 1074.
Proof.
  intros Hn Hlt.
  set (d := Z.log2 (Z.abs n) + 1).
  assert (0 <= Z.log2 (Z.abs n) < 53) as Hlog.
  { split; [apply Z.log2_nonneg|]. apply Z.log2_lt_pow2; lia. }
  set (q := Z.abs n * 2 ^ (53 - d)).
  assert (0 < 2 ^ (53 - d)) as Hp by (apply Z.pow_pos_nonneg; lia).
  assert (0 < q) as Hq by (unfold q; lia).
  exists (Z.to_pos q), (d - 53).
  assert (Zpos (Z.to_pos q) = q) as Hzq by (apply Z2Pos.id; lia).
  split.
  - unfold bounded, canonical_mantissa. apply andb_true_intro. split.
    + apply Z.eqb_eq. rewrite Zpos_digits, Hzq. unfold q.
      rewrite Z.log2_mul_pow2 by lia. unfold fexp, emin. lia.
    + apply Z.leb_le. lia.
  - cbn [b64_units]. rewrite Hzq. unfold q.
    rewrite cond_Zopp_mul, <- Z.mul_assoc, <- Z.pow_add_r by lia.
    replace (53 - d + (d - 53 + 1074)) with 1074 by lia.
    destruct (Z.ltb_spec n 0); cbn [cond_Zopp]; lia.
Qed.

Lemma b64_of_Z_facts (n : Z) :
  Z.abs n < 2 ^ 53 ->
  valid_binary 53 1024 (b64_of_Z n) = true /\
  b64_finite (b64_of_Z n) = true /\
  b64_negative_zero (b64_of_Z n) = false /\
  b64_units (b64_of_Z n) = n * 2 ^ 1074.
Proof.
  intros Hlt. destruct (Z.eq_dec n 0) as [->|Hn]; [by cbn|].
  destruct (integer_canonical n Hn Hlt) as (m & e & Hb & Hu).
  assert (b64_of_Z n = S754_finite (n <? 0) m e) as ->.
  { unfold b64_of_Z. apply binary_normalize_units; [done|lia|].
    rewrite Hu. reflexivity. }
  by repeat split.
Qed.

Lemma b64_add_integers (x y : Z) :
  Z.abs x < 2 ^ 53 -> Z.abs y < 2 ^ 53 -> Z.abs (x + y) < 2 ^ 53 ->
  SFadd 53 1024 (b64_of_Z x) (b64_of_Z y) = b64_of_Z (x + y).
Proof.
  intros Hx Hy Hxy.
  destruct (b64_of_Z_facts x Hx) as (Hvx & Hfx & Hnx & Hux).
  destruct (b64_of_Z_facts y Hy) as (Hvy & Hfy & Hny & Huy).
  destruct (b64_of_Z x) as [sx| | |sx mx ex] eqn:Ex; try discriminate.
  - assert (x = 0) as -> by (cbn in Hux; lia). destruct sx; [discriminate|].
    destruct (b64_of_Z y) as [sy| | |sy my ey] eqn:Ey; try discriminate.
    + destruct sy; [discriminate|]. assert (y = 0) as -> by (cbn in Huy; lia).
      reflexivity.
    + by rewrite Z.add_0_l, Ey.
  - destruct (b64_of_Z y) as [sy| | |sy my ey] eqn:Ey; try discriminate.
    + assert (y = 0) as -> by (cbn in Huy; lia). by rewrite Z.add_0_r, Ex.
    + cbn [valid_binary] in Hvx, Hvy.
      pose proof (valid_exponent _ _ Hvx). pose proof (valid_exponent _ _ Hvy).
      cbn [SFadd].
      destruct (Z.eq_dec (x + y) 0) as [Hz|Hne].
      * rewrite Hz.
        match goal with |- binary_normalize _ _ ?N _ _ = _ =>
          assert (N = 0) as -> end; [|reflexivity].
        apply (Z.mul_reg_r _ _ (2 ^ (Z.min ex ey + 1074))).
        { apply Z.pow_nonzero; lia. }
        rewrite Z.mul_add_distr_r, !aligned_units, Hux, Huy by lia. lia.
      * destruct (integer_canonical (x + y) Hne Hxy) as (m & e & Hb & Hu).
        assert (b64_of_Z (x + y) = S754_finite (x + y <? 0) m e) as ->.
        { unfold b64_of_Z. apply binary_normalize_units; [done|lia|].
          rewrite Hu. reflexivity. }
        apply binary_normalize_units; [done|lia|].
        rewrite Z.mul_add_distr_r, !aligned_units, Hux, Huy, Hu by lia. lia.
Qed.

Lemma integer_sum_exact (x y : Z) :
  Z.abs x < 2 ^ 53 -> Z.abs y < 2 ^ 53 -> Z.abs (x + y) < 2 ^ 53 ->
  exact_sum (b64_of_Z x) (b64_of_Z y) = true.
Proof.
  intros Hx Hy Hxy. unfold exact_sum.
  rewrite b64_add_integers by done.
  destruct (b64_of_Z_facts x Hx) as (-> & -> & -> & ->).
  destruct (b64_of_Z_facts y Hy) as (-> & -> & _ & ->).
  destruct (b64_of_Z_facts (x + y) Hxy) as (-> & -> & _ & ->).
  cbn [andb negb]. apply Z.eqb_eq. lia.
Qed.

Lemma shr_1_m (mrs : shr_record) :
  0 <= shr_m mrs -> shr_m (shr_1 mrs) = shr_m mrs / 2.
Proof.
  destruct mrs as [m r s]. cbn [shr_m]. intros Hm.
  rewrite <- Z.div2_div.
  destruct m as [|[p|p|]|p]; try reflexivity. lia.
Qed.

Lemma shr_iter_m (n : nat) (mrs : shr_record) :
  0 <= shr_m mrs ->
  shr_m (Nat.iter n shr_1 mrs) = shr_m mrs / 2 ^ Z.of_nat n.
Proof.
  intros Hm. induction n as [|n IH]; [cbn; by rewrite Z.div_1_r|].
  change (Nat.iter (S n) shr_1 mrs) with (shr_1 (Nat.iter n shr_1 mrs)).
  rewrite shr_1_m, IH.
  - rewrite Nat2Z.inj_succ, Z.pow_succ_r, Z.div_div by lia.
    f_equal. lia.
  - rewrite IH. apply Z.div_pos; lia.
Qed.

Lemma Zdigits2_log2 (m : Z) : 0 < m -> Zdigits2 m = Z.log2 m + 1.
Proof. destruct m; try lia. intros _. apply Zpos_digits. Qed.

Lemma round_nearest_even_cases (m : Z) (l : location) :
  round_nearest_even m l = m \/ round_nearest_even m l = m + 1.
Proof.
  destruct l as [|[]]; cbn; auto. destruct (Z.even m); auto.
Qed.

Lemma loc_of_shr_record_of_loc (m : Z) (l : location) :
  loc_of_shr_record (shr_record_of_loc m l) = l.
Proof. by destruct l as [|[]]. Qed.

Lemma shr_m_of_loc (m : Z) (l : location) : shr_m (shr_record_of_loc m l) = m.
Proof. by destruct l as [|[]]. Qed.

(** The first shift and the rounding: the mantissa that comes out is one of
    the two neighbours of the exact value. *)
Lemma round_stage (M E : Z) (l : location) :
  0 < M ->
  let '(mrs, e1) := shr_fexp 53 1024 M E l in
  let m1 := round_nearest_even (shr_m mrs) (loc_of_shr_record mrs) in
  -1074 <= e1 /\ E <= e1 /\ 0 <= m1 <= 2 ^ 53 /\
  (m1 - 1) * 2 ^ (e1 - E) <= M /\ M + 1 <= (m1 + 1) * 2 ^ (e1 - E) /\
  (e1 = E -> l = loc_Exact -> m1 = M) /\
  (2 ^ 52 <= m1 \/ e1 = -1074 \/ (e1 = E /\ M < 2 ^ 52)).
Proof.
  intros HM. unfold shr_fexp.
  rewrite Zdigits2_log2 by done.
  pose proof (Z.log2_nonneg M) as Hlog.
  destruct (Z.log2_spec M HM) as [Hlo Hhi].
  set (d := Z.log2 M + 1) in *.
  replace (Z.succ (Z.log2 M)) with d in Hhi by (unfold d; lia).
  assert (2 ^ d = 2 * 2 ^ Z.log2 M) as Hd.
  { unfold d. rewrite Z.pow_add_r by lia. lia. }
  unfold shr.
  destruct (fexp 53 1024 (d + E) - E) as [|p|p] eqn:Hn.
  - (* no shift *)
    rewrite loc_of_shr_record_of_loc, shr_m_of_loc.
    unfold fexp, emin in Hn.
    assert (d <= 53) by lia.
    assert (M < 2 ^ 53).
    { eapply Z.lt_le_trans; [exact Hhi|]. apply Z.pow_le_mono_r; lia. }
    rewrite Z.sub_diag, Z.pow_0_r, !Z.mul_1_r.
    assert (l = loc_Exact -> round_nearest_even M l = M) as Hex
      by (intros ->; reflexivity).
    destruct (round_nearest_even_cases M l) as [Hr|Hr]; rewrite Hr in *;
      repeat split; try lia; intros _ Hl; specialize (Hex Hl); lia.
  - (* a shift by [p] *)
    rewrite iter_pos_nat, shr_iter_m, shr_m_of_loc, positive_nat_Z
      by (rewrite shr_m_of_loc; lia).
    unfold fexp, emin in Hn.
    replace (E + Z.pos p - E) with (Z.pos p) by lia.
    assert (0 < 2 ^ Z.pos p) as Hp by (apply Z.pow_pos_nonneg; lia).
    pose proof (Z.mul_div_le M (2 ^ Z.pos p) Hp) as Hfl.
    pose proof (Z.mul_succ_div_gt M (2 ^ Z.pos p) Hp) as Hfu.
    set (f := M / 2 ^ Z.pos p) in *.
    assert (0 <= f) by (apply Z.div_pos; lia).
    assert (f < 2 ^ 53) as Hf53.
    { apply Z.div_lt_upper_bound; [done|].
      rewrite <- Z.pow_add_r by lia.
      eapply Z.lt_le_trans; [exact Hhi|]. apply Z.pow_le_mono_r; lia. }
    assert (Z.pos p = d - 53 -> 2 ^ 52 <= f) as Hf52.
    { intros Hpd. apply Z.div_le_lower_bound; [done|].
      rewrite <- Z.pow_add_r by lia.
      replace (Z.pos p + 52) with (Z.log2 M) by (unfold d in *; lia).
      exact Hlo. }
    match goal with |- context [round_nearest_even f ?l'] =>
      destruct (round_nearest_even_cases f l') as [-> | ->] end;
      repeat split; nia.
  - (* a negative shift: none *)
    rewrite loc_of_shr_record_of_loc, shr_m_of_loc.
    unfold fexp, emin in Hn.
    assert (d <= 53) by lia.
    assert (M < 2 ^ 53).
    { eapply Z.lt_le_trans; [exact Hhi|]. apply Z.pow_le_mono_r; lia. }
    rewrite Z.sub_diag, Z.pow_0_r, !Z.mul_1_r.
    assert (l = loc_Exact -> round_nearest_even M l = M) as Hex
      by (intros ->; reflexivity).
    destruct (round_nearest_even_cases M l) as [Hr|Hr]; rewrite Hr in *;
      repeat split; try lia; intros _ Hl; specialize (Hex Hl); lia.
Qed.

(** The second shift only renormalises a mantissa that the rounding carried
    to 2^53; then comes the overflow test. *)
Lemma final_stage (s : bool) (m1 e1 : Z) :
  -1074 <= e1 -> 0 <= m1 <= 2 ^ 53 ->
  (let '(mrs, e2) := shr_fexp 53 1024 m1 e1 loc_Exact in
   match shr_m mrs with
   | Z0 => S754_zero s
   | Zpos m => if e2 <=? 1024 - 53 then S754_finite s m e2
               else S754_infinity s
   | Zneg _ => S754_nan
   end) =
  if m1 =? 0 then S754_zero s
  else if m1 =? 2 ^ 53
       then if e1 + 1 <=? 971 then S754_finite s (2 ^ 52) (e1 + 1)
            else S754_infinity s
       else if e1 <=? 971 then S754_finite s (Z.to_pos m1) e1
            else S754_infinity s.
Proof.
  intros He Hm. unfold shr_fexp. cbn [shr_record_of_loc].
  destruct (Z.eqb_spec m1 0) as [->|Hne].
  { cbn [Zdigits2]. unfold fexp, emin, shr.
    destruct (Z.max (0 + e1 - 53) (3 - 1024 - 53) - e1) eqn:Hn;
      try reflexivity. lia. }
  destruct (Z.eqb_spec m1 (2 ^ 53)) as [->|Hne'].
  { change (Zdigits2 (2 ^ 53)) with 54. unfold fexp, emin.
    replace (Z.max (54 + e1 - 53) (3 - 1024 - 53) - e1) with 1 by lia.
    reflexivity. }
  assert (0 < m1 < 2 ^ 53) as Hr by lia.
  rewrite Zdigits2_log2 by lia.
  assert (Z.log2 m1 < 53) by (apply Z.log2_lt_pow2; lia).
  unfold fexp, emin, shr.
  destruct (Z.max (Z.log2 m1 + 1 + e1 - 53) (3 - 1024 - 53) - e1) eqn:Hn;
    try lia; cbn [shr_m]; destruct m1; try lia; reflexivity.
Qed.

(** What the rounding returns when it does not overflow: a mantissa [m] and
    an exponent [e] such that the exact value lies between the neighbours
    [m - 1] and [m + 1]. *)
Lemma binary_round_aux_faithful (s : bool) (M E : Z) (l : location) :
  0 < M ->
  b64_finite (binary_round_aux 53 1024 s M E l) = true ->
  exists m e : Z,
    b64_units (binary_round_aux 53 1024 s M E l) =
      cond_Zopp s m * 2 ^ (e + 1074) /\
    match binary_round_aux 53 1024 s M E l with
    | S754_finite _ _ e' => e' = e
    | _ => m = 0
    end /\
    -1074 <= e <= 971 /\ E <= e /\ 0 <= m < 2 ^ 53 /\
    (m - 1) * 2 ^ (e - E) <= M /\ M + 1 <= (m + 1) * 2 ^ (e - E) /\
    (e = E -> l = loc_Exact -> m = M) /\
    (2 ^ 52 <= m \/ e = -1074 \/ (e = E /\ M < 2 ^ 52)).
Proof.
  intros HM. unfold binary_round_aux.
  pose proof (round_stage M E l HM) as Hstage.
  destruct (shr_fexp 53 1024 M E l) as [mrs e1].
  set (m1 := round_nearest_even (shr_m mrs) (loc_of_shr_record mrs)) in *.
  destruct Hstage as (He1 & HE & Hm1 & Hlo & Hhi & Hex & Hnorm).
  rewrite final_stage by done.
  destruct (Z.eqb_spec m1 0) as [Hz|Hnz].
  { intros _. exists 0, e1. cbn [b64_units]. rewrite Hz in *.
    assert (e1 = -1074) as He.
    { destruct Hnorm as [?|[?|[-> ?]]]; [lia|done|].
      rewrite Z.sub_diag, Z.pow_0_r in Hhi. lia. }
    destruct s; cbn [cond_Zopp]; repeat split; try lia; exact Hex. }
  destruct (Z.eqb_spec m1 (2 ^ 53)) as [Hc|Hnc].
  { destruct (Z.leb_spec (e1 + 1) 971); [|discriminate]. intros _.
    exists (2 ^ 52), (e1 + 1). cbn [b64_units].
    replace (e1 + 1 - E) with ((e1 - E) + 1) by lia.
    rewrite (Z.pow_add_r 2 (e1 - E) 1) by lia.
    assert (0 < 2 ^ (e1 - E)) by (apply Z.pow_pos_nonneg; lia).
    repeat split; try lia. }
  destruct (Z.leb_spec e1 971); [|discriminate]. intros _.
  exists m1, e1. cbn [b64_units]. rewrite Z2Pos.id by lia.
  repeat split; try lia. tauto.
Qed.

Lemma near_refl (v : Z) : near v v.
Proof. unfold near. rewrite Z.sub_diag. cbn. lia. Qed.

Lemma shl_align_spec (m : positive) (e t : Z) :
  let '(m', e') := shl_align m e t in
  e' = Z.min e t /\ Zpos m' * 2 ^ (e' + 1074) = Zpos m * 2 ^ (e + 1074) \/
  e' = Z.min e t /\ e' < -1074.
Proof.
  pose proof (shl_align_value m e t) as Hv. unfold shl_align in *.
  destruct (t - e) as [|p|p] eqn:Ht; cbn [fst] in *.
  - left. split; [lia|reflexivity].
  - left. split; [lia|reflexivity].
  - destruct (Z_lt_le_dec t (-1074)); [right; lia|left].
    split; [lia|]. rewrite Hv by lia.
    rewrite <- Z.mul_assoc, <- Z.pow_add_r by lia. do 2 f_equal. lia.
Qed.

Lemma cond_Zopp_abs (s : bool) (a : Z) : Z.abs (cond_Zopp s a) = Z.abs a.
Proof. destruct s; cbn; lia. Qed.

Lemma cond_Zopp_sub (s : bool) (a b : Z) :
  cond_Zopp s a - cond_Zopp s b = cond_Zopp s (a - b).
Proof. destruct s; cbn; lia. Qed.

Lemma binary_round_near (s : bool) (M : positive) (E : Z) :
  -1074 <= E ->
  b64_finite (binary_round 53 1024 s M E) = true ->
  b64_grid (binary_round 53 1024 s M E) /\
  near (b64_units (binary_round 53 1024 s M E))
       (cond_Zopp s (Zpos M) * 2 ^ (E + 1074)).
Proof.
  intros HE. unfold binary_round.
  pose proof (shl_align_spec M E (fexp 53 1024 (Zpos (digits2_pos M) + E)))
    as Hal.
  destruct (shl_align M E (fexp 53 1024 (Zpos (digits2_pos M) + E)))
    as [mz ez].
  assert (-1074 <= fexp 53 1024 (Z.pos (digits2_pos M) + E)) as Hf
    by (unfold fexp, emin; lia).
  destruct Hal as [[Hez Hv]|[Hez Hlt]]; [|lia].
  assert (-1074 <= ez) as Hez' by lia.
  intros Hfin.
  destruct (binary_round_aux_faithful s (Zpos mz) ez loc_Exact eq_refl Hfin)
    as (m & e & Hu & Hmatch & He & Hge & Hm & Hlo & Hhi & Hex & Hnorm).
  split.
  - destruct (binary_round_aux 53 1024 s (Z.pos mz) ez loc_Exact);
      try discriminate; cbn [b64_grid]; [done|lia].
  - rewrite Hu, !cond_Zopp_mul, <- Hv. unfold near.
    rewrite cond_Zopp_sub, !cond_Zopp_abs.
    replace (e + 1074) with ((e - ez) + (ez + 1074)) by lia.
    rewrite Z.pow_add_r by lia.
    assert (0 < 2 ^ (ez + 1074)) as HP by (apply Z.pow_pos_nonneg; lia).
    assert (0 < 2 ^ (e - ez)) as HQ by (apply Z.pow_pos_nonneg; lia).
    set (P := 2 ^ (ez + 1074)) in *. set (Q := 2 ^ (e - ez)) in *.
    destruct (Z.eq_dec e ez) as [Heq|Hne].
    + rewrite (Hex Heq eq_refl). unfold Q. rewrite Heq, Z.sub_diag, Z.pow_0_r.
      replace (Z.pos mz * (1 * P) - Z.pos mz * P) with 0 by lia. cbn. lia.
    + assert (2 ^ 52 <= m) as Hm52 by lia.
      replace (m * (Q * P) - Z.pos mz * P) with ((m * Q - Z.pos mz) * P)
        by lia.
      rewrite Z.abs_mul, (Z.abs_eq P), (Z.abs_eq (m * (Q * P))) by nia.
      assert (Z.abs (m * Q - Z.pos mz) <= Q) as HD by lia.
      transitivity (Q * P * 2 ^ 52); [nia|].
      replace (m * (Q * P)) with (Q * P * m) by lia.
      apply Z.mul_le_mono_nonneg_l; [nia|lia].
Qed.

Lemma binary_normalize_near (N E : Z) :
  -1074 <= E ->
  b64_finite (binary_normalize 53 1024 N E false) = true ->
  b64_grid (binary_normalize 53 1024 N E false) /\
  near (b64_units (binary_normalize 53 1024 N E false)) (N * 2 ^ (E + 1074)).
Proof.
  intros HE. destruct N as [|M|M]; cbn [binary_normalize].
  - intros _. split; [done|]. apply near_refl.
  - intros Hf. by apply (binary_round_near false M E).
  - intros Hf. by apply (binary_round_near true M E).
Qed.

Lemma b64_add_near (x y : binary64) :
  b64_grid x -> b64_grid y ->
  b64_finite (SFadd 53 1024 x y) = true ->
  b64_grid (SFadd 53 1024 x y) /\
  near (b64_units (SFadd 53 1024 x y)) (b64_units x + b64_units y).
Proof.
  destruct x as [sx| | |sx mx ex], y as [sy| | |sy my ey]; try done.
  - intros _ _ _. split; [by destruct sx, sy|].
    replace (b64_units (S754_zero sx) + b64_units (S754_zero sy)) with 0
      by reflexivity.
    destruct sx, sy; apply near_refl.
  - intros _ Hy _. split; [done|]. cbn [SFadd b64_units]. rewrite Z.add_0_l.
    apply near_refl.
  - intros Hx _ _. split; [done|]. cbn [SFadd b64_units]. rewrite Z.add_0_r.
    apply near_refl.
  - cbn [b64_grid SFadd]. intros Hx Hy Hf.
    destruct (binary_normalize_near _ _ (Z.min_glb _ _ _ Hx Hy) Hf) as [Hg Hn].
    split; [done|].
    rewrite Z.mul_add_distr_r, !aligned_units in Hn by lia. exact Hn.
Qed.

Lemma b64_sub_near (x y : binary64) :
  b64_grid x -> b64_grid y ->
  b64_finite (SFsub 53 1024 x y) = true ->
  b64_grid (SFsub 53 1024 x y) /\
  near (b64_units (SFsub 53 1024 x y)) (b64_units x - b64_units y).
Proof.
  destruct x as [sx| | |sx mx ex], y as [sy| | |sy my ey]; try done.
  - intros _ _ _. split; [by destruct sx, sy|].
    replace (b64_units (S754_zero sx) - b64_units (S754_zero sy)) with 0
      by reflexivity.
    destruct sx, sy; apply near_refl.
  - intros _ Hy _. split; [done|]. cbn [SFsub b64_units]. rewrite Z.sub_0_l.
    replace (cond_Zopp (negb sy) (Z.pos my) * 2 ^ (ey + 1074))
      with (- (cond_Zopp sy (Z.pos my) * 2 ^ (ey + 1074)))
      by (destruct sy; cbn; lia).
    apply near_refl.
  - intros Hx _ _. split; [done|]. cbn [SFsub b64_units]. rewrite Z.sub_0_r.
    apply near_refl.
  - cbn [b64_grid SFsub]. intros Hx Hy Hf.
    destruct (binary_normalize_near _ _ (Z.min_glb _ _ _ Hx Hy) Hf) as [Hg Hn].
    split; [done|].
    rewrite Z.mul_sub_distr_r, !aligned_units in Hn by lia. exact Hn.
Qed.

Lemma b64_sub_finite (s y : binary64) :
  b64_finite (SFsub 53 1024 s y) = true -> b64_finite y = true ->
  b64_finite s = true.
Proof. by destruct s as [| | |], y as [| | |]. Qed.

Lemma valid_grid (x : binary64) :
  valid_binary 53 1024 x = true -> b64_finite x = true -> b64_grid x.
Proof.
  destruct x; try done. cbn [valid_binary b64_grid]. intros Hb _.
  by apply valid_exponent in Hb.
Qed.

(** [(x + y) - y] in binary64: where it is finite, it is [x] up to
    2^-50 relative to [|x| + |y|]. *)
Lemma b64_add_then_sub_near (x y : binary64) :
  b64_grid x -> b64_grid y ->
  b64_finite (SFsub 53 1024 (SFadd 53 1024 x y) y) = true ->
  b64_grid (SFsub 53 1024 (SFadd 53 1024 x y) y) /\
  Z.abs (b64_units (SFsub 53 1024 (SFadd 53 1024 x y) y) - b64_units x)
    * 2 ^ 50 <= Z.abs (b64_units x) + Z.abs (b64_units y).
Proof.
  intros Hx Hy Hf.
  assert (b64_finite y = true) as Hfy by (by destruct y).
  pose proof (b64_sub_finite _ _ Hf Hfy) as Hfs.
  destruct (b64_add_near x y Hx Hy Hfs) as [Hgs Hns].
  destruct (b64_sub_near _ y Hgs Hy Hf) as [Hgr Hnr].
  split; [exact Hgr|].
  unfold near in *.
  set (A := b64_units x) in *. set (B := b64_units y) in *.
  set (S := b64_units (SFadd 53 1024 x y)) in *.
  set (R := b64_units (SFsub 53 1024 (SFadd 53 1024 x y) y)) in *.
  lia.
Qed.

(** No overflow below the largest binary64 number: the bound is
    [(2^52 - 1) * 2^972], counted in units of 2^-1074. *)
Lemma binary_round_finite (s : bool) (M : positive) (E : Z) :
  -1074 <= E ->
  Zpos M * 2 ^ (E + 1074) < (2 ^ 52 - 1) * 2 ^ 2046 ->
  b64_finite (binary_round 53 1024 s M E) = true.
Proof.
  intros HE Hlt. unfold binary_round.
  pose proof (shl_align_spec M E (fexp 53 1024 (Zpos (digits2_pos M) + E)))
    as Hal.
  rewrite Zpos_digits in *.
  destruct (Z.log2_spec (Zpos M) ltac:(lia)) as [HlogM _].
  pose proof (Z.log2_nonneg (Zpos M)) as Hlog0.
  destruct (shl_align M E (fexp 53 1024 (Z.log2 (Z.pos M) + 1 + E)))
    as [mz ez].
  unfold fexp, emin in Hal.
  destruct Hal as [[Hez Hv]|[Hez Hbad]]; [|lia].
  assert (-1074 <= ez) as Hez' by lia.
  assert (0 < 2 ^ (ez + 1074)) as HP by (apply Z.pow_pos_nonneg; lia).
  (* a short mantissa comes with the least exponent *)
  assert (Zpos mz < 2 ^ 52 -> ez = -1074) as Hshort.
  { intros Hmz. destruct (Z.eq_dec ez (-1074)) as [|Hne]; [done|]. exfalso.
    assert (ez <= Z.log2 (Zpos M) + E - 52) as Hle by lia.
    assert (2 ^ 52 * 2 ^ (ez + 1074) <= Zpos mz * 2 ^ (ez + 1074)) as Hc.
    { rewrite Hv, <- Z.pow_add_r by lia.
      apply Z.le_trans with (2 ^ Z.log2 (Zpos M) * 2 ^ (E + 1074));
        [|apply Z.mul_le_mono_nonneg_r; [apply Z.pow_nonneg|]; lia].
      rewrite <- Z.pow_add_r by lia. apply Z.pow_le_mono_r; lia. }
    apply Z.mul_le_mono_pos_r in Hc; lia. }
  rewrite <- Hv in Hlt. clear Hv Hez.
  unfold binary_round_aux.
  pose proof (round_stage (Zpos mz) ez loc_Exact eq_refl) as Hstage.
  destruct (shr_fexp 53 1024 (Z.pos mz) ez loc_Exact) as [mrs e1].
  set (m1 := round_nearest_even (shr_m mrs) (loc_of_shr_record mrs)) in *.
  destruct Hstage as (He1 & Hge & Hm1 & Hlo & Hhi & Hex & Hnorm).
  rewrite final_stage by done.
  assert (0 < 2 ^ (e1 - ez)) as HQ by (apply Z.pow_pos_nonneg; lia).
  assert (2 ^ (e1 + 1074) = 2 ^ (e1 - ez) * 2 ^ (ez + 1074)) as Hsplit.
  { rewrite <- Z.pow_add_r by lia. f_equal. lia. }
  (* the exponent that the mantissa [m1] allows *)
  assert (2 ^ 52 <= m1 -> (m1 - 1) * 2 ^ (e1 + 1074) < (2 ^ 52 - 1) * 2 ^ 2046)
    as Hbig.
  { intros _. rewrite Hsplit.
    apply Z.le_lt_trans with (Zpos mz * 2 ^ (ez + 1074)); [|done].
    rewrite Z.mul_assoc. apply Z.mul_le_mono_nonneg_r; lia. }
  assert (e1 = -1074 \/ 2 ^ 52 <= m1) as Hcases.
  { destruct Hnorm as [?|[?|[-> Hm]]]; [by right|by left|].
    left. by apply Hshort. }
  destruct (Z.eqb_spec m1 0); [done|].
  destruct (Z.eqb_spec m1 (2 ^ 53)) as [Hc|Hnc].
  - destruct (Z.leb_spec (e1 + 1) 971); [done|]. exfalso.
    destruct Hcases as [?|H52]; [lia|]. specialize (Hbig H52).
    assert (2 ^ 2045 <= 2 ^ (e1 + 1074)) as HW
      by (apply Z.pow_le_mono_r; lia).
    rewrite Hc in Hbig.
    apply (Z.mul_le_mono_nonneg_l _ _ (2 ^ 53 - 1)) in HW; lia.
  - destruct (Z.leb_spec e1 971); [done|]. exfalso.
    destruct Hcases as [?|H52]; [lia|]. specialize (Hbig H52).
    assert (2 ^ 2046 <= 2 ^ (e1 + 1074)) as HW
      by (apply Z.pow_le_mono_r; lia).
    assert ((2 ^ 52 - 1) * 2 ^ 2046 <= (m1 - 1) * 2 ^ (e1 + 1074)); [|lia].
    apply Z.mul_le_mono_nonneg; lia.
Qed.

Lemma binary_normalize_finite (N E : Z) :
  -1074 <= E ->
  Z.abs N * 2 ^ (E + 1074) < (2 ^ 52 - 1) * 2 ^ 2046 ->
  b64_finite (binary_normalize 53 1024 N E false) = true.
Proof.
  intros HE Hlt. destruct N as [|M|M]; cbn [binary_normalize]; [done|..];
    by apply binary_round_finite.
Qed.

Lemma b64_add_finite (x y : binary64) :
  b64_grid x -> b64_grid y ->
  Z.abs (b64_units x) + Z.abs (b64_units y) < (2 ^ 52 - 1) * 2 ^ 2046 ->
  b64_finite (SFadd 53 1024 x y) = true.
Proof.
  destruct x as [sx| | |sx mx ex], y as [sy| | |sy my ey]; try done.
  - intros _ _ _. by destruct sx, sy.
  - cbn [b64_grid SFadd]. intros Hx Hy Hlt.
    apply binary_normalize_finite; [lia|].
    assert (0 < 2 ^ (Z.min ex ey + 1074)) by (apply Z.pow_pos_nonneg; lia).
    rewrite <- (Z.abs_eq (2 ^ (Z.min ex ey + 1074))), <- Z.abs_mul by lia.
    rewrite Z.mul_add_distr_r, !aligned_units by lia. lia.
Qed.

Lemma b64_sub_finite_below (x y : binary64) :
  b64_grid x -> b64_grid y ->
  Z.abs (b64_units x) + Z.abs (b64_units y) < (2 ^ 52 - 1) * 2 ^ 2046 ->
  b64_finite (SFsub 53 1024 x y) = true.
Proof.
  destruct x as [sx| | |sx mx ex], y as [sy| | |sy my ey]; try done.
  - intros _ _ _. by destruct sx, sy.
  - cbn [b64_grid SFsub]. intros Hx Hy Hlt.
    apply binary_normalize_finite; [lia|].
    assert (0 < 2 ^ (Z.min ex ey + 1074)) by (apply Z.pow_pos_nonneg; lia).
    rewrite <- (Z.abs_eq (2 ^ (Z.min ex ey + 1074))), <- Z.abs_mul by lia.
    rewrite Z.mul_sub_distr_r, !aligned_units by lia. lia.
Qed.

(** [(x + y) - y] is finite when [|x| + |y|] is at most 2^1022. *)
Lemma b64_add_then_sub_finite (x y : binary64) :
  b64_grid x -> b64_grid y ->
  Z.abs (b64_units x) + Z.abs (b64_units y) <= 2 ^ 2096 ->
  b64_finite (SFsub 53 1024 (SFadd 53 1024 x y) y) = true.
Proof.
  intros Hx Hy Hle.
  assert (b64_finite (SFadd 53 1024 x y) = true) as Hfs
    by (apply b64_add_finite; [done..|lia]).
  destruct (b64_add_near x y Hx Hy Hfs) as [Hgs Hns].
  apply b64_sub_finite_below; [done..|].
  unfold near in Hns.
  set (A := b64_units x) in *. set (B := b64_units y) in *.
  set (S := b64_units (SFadd 53 1024 x y)) in *.
  lia.
Qed.
End Binary64Rounding.

(** ** Rounding in the range of the normal numbers *)

Section NormalRounding.
Local Open Scope Z_scope.

(** The rounding of a mantissa of at least 53 digits in the range of the
    normal numbers. *)
Lemma round_stage_normal (M E : Z) (l : location) :
  2 ^ 52 <= M -> -1074 <= Z.log2 M - 52 + E ->
  let '(mrs, e1) := shr_fexp 53 1024 M E l in
  let m1 := round_nearest_even (shr_m mrs) (loc_of_shr_record mrs) in
  e1 = E + (Z.log2 M - 52) /\ 2 ^ 52 <= m1 <= 2 ^ 53 /\
  (m1 - 1) * 2 ^ (e1 - E) <= M /\ M + 1 <= (m1 + 1) * 2 ^ (e1 - E).
Proof.
  intros HM52 Hrange. assert (0 < M) as HM by lia. unfold shr_fexp.
  rewrite Zdigits2_log2 by done.
  destruct (Z.log2_spec M HM) as [Hlo Hhi].
  assert (52 <= Z.log2 M) as Hlog by (apply Z.log2_le_pow2; lia).
  set (d := Z.log2 M + 1) in *.
  replace (Z.succ (Z.log2 M)) with d in Hhi by (unfold d; lia).
  unfold shr, fexp, emin.
  replace (Z.max (d + E - 53) (3 - 1024 - 53) - E) with (d - 53)
    by (unfold d; lia).
  destruct (d - 53) as [|p|p] eqn:Hn; try lia.
  - (* exactly 53 digits: no shift *)
    rewrite loc_of_shr_record_of_loc, shr_m_of_loc.
    assert (Z.log2 M = 52) as Hl by (unfold d in Hn; lia).
    rewrite Hl in *. replace d with 53 in Hhi by lia.
    replace (E - E) with 0 by lia. rewrite Z.pow_0_r, !Z.mul_1_r.
    destruct (round_nearest_even_cases M l) as [-> | ->]; lia.
  - rewrite iter_pos_nat, shr_iter_m, shr_m_of_loc, positive_nat_Z
      by (rewrite shr_m_of_loc; lia).
    replace (E + Z.pos p - E) with (Z.pos p) by lia.
    assert (0 < 2 ^ Z.pos p) as Hp by (apply Z.pow_pos_nonneg; lia).
    pose proof (Z.mul_div_le M (2 ^ Z.pos p) Hp) as Hfl.
    pose proof (Z.mul_succ_div_gt M (2 ^ Z.pos p) Hp) as Hfu.
    set (f := M / 2 ^ Z.pos p) in *.
    assert (f < 2 ^ 53) as Hf53.
    { apply Z.div_lt_upper_bound; [done|].
      rewrite <- Z.pow_add_r by lia.
      replace (Z.pos p + 53) with d by lia. exact Hhi. }
    assert (2 ^ 52 <= f) as Hf52.
    { apply Z.div_le_lower_bound; [done|].
      rewrite <- Z.pow_add_r by lia.
      replace (Z.pos p + 52) with (Z.log2 M) by (unfold d in *; lia).
      exact Hlo. }
    match goal with |- context [round_nearest_even f ?l'] =>
      destruct (round_nearest_even_cases f l') as [-> | ->] end;
      (split; [unfold d in Hn; lia|]); repeat split; nia.
Qed.

Lemma binary_round_aux_normal (s : bool) (M E : Z) (l : location) :
  2 ^ 52 <= M -> -1074 <= Z.log2 M - 52 + E -> Z.log2 M + E <= 1022 ->
  exists (m : positive) (e : Z),
    binary_round_aux 53 1024 s M E l = S754_finite s m e /\
    2 ^ 52 <= Zpos m < 2 ^ 53 /\ -1074 <= e <= 971 /\ E <= e /\
    (Zpos m - 1) * 2 ^ (e - E) <= M /\ M + 1 <= (Zpos m + 1) * 2 ^ (e - E).
Proof.
  intros HM Hlo Hhi. unfold binary_round_aux.
  pose proof (round_stage_normal M E l HM Hlo) as Hstage.
  assert (52 <= Z.log2 M) as Hlog by (apply Z.log2_le_pow2; lia).
  destruct (shr_fexp 53 1024 M E l) as [mrs e1].
  set (m1 := round_nearest_even (shr_m mrs) (loc_of_shr_record mrs)) in *.
  destruct Hstage as (He1 & Hm1 & Hl & Hu).
  rewrite final_stage by lia.
  destruct (Z.eqb_spec m1 0) as [Hz|Hnz]; [lia|].
  destruct (Z.eqb_spec m1 (2 ^ 53)) as [Hc|Hnc].
  - destruct (Z.leb_spec (e1 + 1) 971); [|lia].
    exists (2 ^ 52)%positive, (e1 + 1).
    replace (e1 + 1 - E) with ((e1 - E) + 1) by lia.
    rewrite (Z.pow_add_r 2 (e1 - E) 1) by lia.
    assert (0 < 2 ^ (e1 - E)) by (apply Z.pow_pos_nonneg; lia).
    repeat split; lia.
  - destruct (Z.leb_spec e1 971); [|lia].
    exists (Z.to_pos m1), e1. rewrite Z2Pos.id by lia.
    repeat split; lia.
Qed.
End NormalRounding.

(** ** Binary64 values over the reals *)

Section Bpow.
Local Open Scope R_scope.

Lemma bpow_pos (e : Z) : 0 < bpow e.
Proof. apply powerRZ_lt. lra. Qed.

Lemma bpow_add (a b : Z) : bpow (a + b) = bpow a * bpow b.
Proof. apply powerRZ_add. lra. Qed.

Lemma bpow_IZR (k : Z) : (0 <= k)%Z -> bpow k = IZR (2 ^ k).
Proof.
  intros Hk. unfold bpow. rewrite <- (Z2Nat.id k) by done.
  rewrite <- pow_powerRZ, pow_IZR. reflexivity.
Qed.

Lemma bpow_0 : bpow 0 = 1.
Proof. reflexivity. Qed.

Lemma bpow_ge_1 (k : Z) : (0 <= k)%Z -> 1 <= bpow k.
Proof.
  intros Hk. rewrite bpow_IZR by done. apply IZR_le.
  assert (0 < 2 ^ k)%Z by (apply Z.pow_pos_nonneg; lia). lia.
Qed.

Lemma bpow_le (a b : Z) : (a <= b)%Z -> bpow a <= bpow b.
Proof.
  intros Hab. replace b with (a + (b - a))%Z by lia. rewrite bpow_add.
  pose proof (bpow_pos a). pose proof (bpow_ge_1 (b - a) ltac:(lia)). nra.
Qed.

Lemma bpow_lt (a b : Z) : (a < b)%Z -> bpow a < bpow b.
Proof.
  intros Hab. replace b with (a + 1 + (b - a - 1))%Z by lia.
  rewrite !bpow_add.
  pose proof (bpow_pos a). pose proof (bpow_ge_1 (b - a - 1) ltac:(lia)).
  replace (bpow 1) with 2 by (unfold bpow; simpl; lra). nra.
Qed.

Lemma bpow_lt_inv (a b : Z) : bpow a < bpow b -> (a < b)%Z.
Proof.
  intros H. destruct (Z_lt_le_dec a b) as [|Hle]; [done|].
  apply bpow_le in Hle. lra.
Qed.

Lemma bpow_opp (a : Z) : bpow (- a) = / bpow a.
Proof. apply powerRZ_neg'. Qed.

Lemma bpow_inv_mul (a : Z) : bpow a * bpow (- a) = 1.
Proof. rewrite <- bpow_add, Z.add_opp_diag_r. reflexivity. Qed.

Lemma unit_roundoff_pos : 0 < unit_roundoff.
Proof. apply bpow_pos. Qed.

Lemma unit_roundoff_small : unit_roundoff <= / 4.
Proof.
  unfold unit_roundoff. change (-52)%Z with (Z.opp 52). rewrite bpow_opp.
  rewrite bpow_IZR by lia.
  apply Rle_trans with (/ IZR 4); [|lra].
  apply Rinv_le_contravar; [lra|]. apply IZR_le. lia.
Qed.

Lemma val_pos (m : positive) (e : Z) : 0 < val m e.
Proof.
  unfold val. apply Rmult_lt_0_compat; [apply IZR_lt; lia|apply bpow_pos].
Qed.

Lemma val_bounds (m : positive) (e : Z) :
  normal_me m e -> bpow (52 + e) <= val m e < bpow (53 + e).
Proof.
  intros [[Hlo Hhi] _]. unfold val. rewrite !bpow_add.
  rewrite (bpow_IZR 52), (bpow_IZR 53) by lia.
  pose proof (bpow_pos e). apply IZR_le in Hlo. apply IZR_lt in Hhi.
  split; nra.
Qed.

Lemma B2R_abs (s : bool) (m : positive) (e : Z) :
  Rabs (B2R (S754_finite s m e)) = val m e.
Proof.
  cbn [B2R]. fold (val m e). pose proof (val_pos m e) as Hv. unfold val in *.
  destruct s; cbn [cond_Zopp].
  - rewrite opp_IZR, Ropp_mult_distr_l_reverse, Rabs_Ropp.
    apply Rabs_right. lra.
  - apply Rabs_right. lra.
Qed.

Lemma rnd_refl (r : R) : 0 <= r -> rnd r r.
Proof. pose proof unit_roundoff_pos. unfold rnd. intros. split; nra. Qed.

(** The logarithm of a mantissa from the magnitude of the value. *)
Lemma log2_of_value (M E t : Z) :
  (0 < M)%Z -> IZR M * bpow E < bpow t -> (Z.log2 M + E < t)%Z.
Proof.
  intros HM Hlt. destruct (Z.log2_spec M HM) as [Hlo _].
  apply bpow_lt_inv. eapply Rle_lt_trans; [|exact Hlt].
  rewrite bpow_add, (bpow_IZR (Z.log2 M)) by apply Z.log2_nonneg.
  pose proof (bpow_pos E). apply IZR_le in Hlo. nra.
Qed.

Lemma log2_of_value_ge (M E t : Z) :
  (0 < M)%Z -> bpow t <= IZR M * bpow E -> (t <= Z.log2 M + E)%Z.
Proof.
  intros HM Hge. destruct (Z.log2_spec M HM) as [_ Hhi].
  assert (t < Z.succ (Z.log2 M) + E)%Z; [|lia].
  apply bpow_lt_inv. eapply Rle_lt_trans; [exact Hge|].
  rewrite bpow_add, (bpow_IZR (Z.succ (Z.log2 M)))
    by (pose proof (Z.log2_nonneg M); lia).
  pose proof (bpow_pos E). apply IZR_lt in Hhi. nra.
Qed.

(** The rounding in the range of the normal numbers, over the reals: [x]
    is the exact value, known to lie between [M] and [M + 1] units. *)
Lemma round_normal (s : bool) (M E : Z) (l : location) (x : R) :
  (2 ^ 52 <= M)%Z ->
  bpow (-1022) <= IZR M * bpow E -> IZR M * bpow E < bpow 1022 ->
  IZR M * bpow E <= x <= IZR (M + 1) * bpow E ->
  exists (m : positive) (e : Z),
    binary_round_aux 53 1024 s M E l = S754_finite s m e /\
    normal_me m e /\ rnd (val m e) x.
Proof.
  intros HM Hlo Hhi Hx. assert (0 < M)%Z as HM0 by lia.
  pose proof (log2_of_value_ge M E _ HM0 Hlo).
  pose proof (log2_of_value M E _ HM0 Hhi).
  destruct (binary_round_aux_normal s M E l HM) as
    (m & e & Hr & Hm & He & HEe & Hbl & Hbu); [lia..|].
  exists m, e. split; [exact Hr|]. split; [done|].
  unfold rnd, val.
  replace e with ((e - E) + E)%Z at 1 2 by lia.
  rewrite bpow_add, (bpow_IZR (e - E)) by lia.
  apply IZR_le in Hbl, Hbu. rewrite mult_IZR in Hbl, Hbu.
  rewrite minus_IZR in Hbl. rewrite !plus_IZR in Hbu.
  destruct Hx as [Hx1 Hx2]. rewrite plus_IZR in Hx2.
  pose proof (bpow_pos E) as HE.
  assert (0 < IZR (2 ^ (e - E))) as HQ
    by (apply IZR_lt, Z.pow_pos_nonneg; lia).
  assert (IZR (2 ^ 52) <= IZR (Z.pos m)) as Hm52 by (apply IZR_le; lia).
  assert (unit_roundoff * IZR (2 ^ 52) = 1) as Hu.
  { unfold unit_roundoff. rewrite <- (bpow_IZR 52) by lia. rewrite Rmult_comm.
    apply (bpow_inv_mul 52). }
  set (Q := IZR (2 ^ (e - E))) in *. set (P := bpow E) in *.
  set (mr := IZR (Z.pos m)) in *. set (c := IZR (2 ^ 52)) in *.
  assert (Q * P <= unit_roundoff * (mr * (Q * P))) as Hulp.
  { assert (0 < Q * P) as HQP by (apply Rmult_lt_0_compat; assumption).
    replace (Q * P) with (unit_roundoff * (c * (Q * P))) at 1
      by (rewrite <- Rmult_assoc, Hu; ring).
    apply Rmult_le_compat_l; [pose proof unit_roundoff_pos; lra|].
    apply Rmult_le_compat_r; [lra|exact Hm52]. }
  assert (0 < Q * P) as HQP by (apply Rmult_lt_0_compat; assumption).
  clearbody Q P mr c. split.
  - apply Rle_trans with (IZR M * P); [|exact Hx1].
    apply Rle_trans with ((mr - 1) * Q * P);
      [|apply Rmult_le_compat_r; lra].
    replace (mr * (Q * P) * (1 - unit_roundoff)) with (mr * (Q * P) - unit_roundoff * (mr * (Q * P)))
      by ring.
    replace ((mr - 1) * Q * P) with (mr * (Q * P) - Q * P) by ring. lra.
  - apply Rle_trans with ((IZR M + 1) * P); [exact Hx2|].
    apply Rle_trans with ((mr + 1) * Q * P);
      [apply Rmult_le_compat_r; lra|].
    replace (mr * (Q * P) * (1 + unit_roundoff)) with (mr * (Q * P) + unit_roundoff * (mr * (Q * P)))
      by ring.
    replace ((mr + 1) * Q * P) with (mr * (Q * P) + Q * P) by ring. lra.
Qed.
End Bpow.

Section UnitsAndReals.
Local Open Scope R_scope.

(** The value of a number on the grid is its number of units times
    2^-1074. *)
Lemma B2R_units (x : binary64) :
  b64_grid x -> B2R x = IZR (b64_units x) * bpow (-1074).
Proof.
  destruct x as [s| | |s m e]; cbn [b64_grid B2R b64_units]; try done;
    try (intros; lra).
  intros He. rewrite mult_IZR, <- (bpow_IZR (e + 1074)) by lia.
  rewrite Rmult_assoc, <- bpow_add. do 2 f_equal. lia.
Qed.

(** [(x + y) - y] in binary64, over the reals. *)
Lemma b64_add_then_sub_real (x y : binary64) :
  b64_grid x -> b64_grid y ->
  b64_finite (SFsub 53 1024 (SFadd 53 1024 x y) y) = true ->
  Rabs (B2R (SFsub 53 1024 (SFadd 53 1024 x y) y) - B2R x)
    <= (Rabs (B2R x) + Rabs (B2R y)) / 2 ^ 50.
Proof.
  intros Hx Hy Hf.
  destruct (b64_add_then_sub_near x y Hx Hy Hf) as [Hz Hnear].
  rewrite (B2R_units x Hx), (B2R_units y Hy), (B2R_units _ Hz).
  set (ux := b64_units x) in *. set (uy := b64_units y) in *.
  set (uz := b64_units (SFsub 53 1024 (SFadd 53 1024 x y) y)) in *.
  pose proof (bpow_pos (-1074)) as HP. set (P := bpow (-1074)) in *.
  apply IZR_le in Hnear.
  rewrite mult_IZR, plus_IZR, !abs_IZR, minus_IZR in Hnear.
  replace (IZR uz * P - IZR ux * P) with ((IZR uz - IZR ux) * P) by ring.
  rewrite !Rabs_mult, (Rabs_right P) by lra.
  assert (IZR (2 ^ 50) = 2 ^ 50) as H50 by (rewrite pow_IZR; reflexivity).
  rewrite H50 in Hnear.
  assert (0 < 2 ^ 50) as Hpos by (apply pow_lt; lra).
  clearbody P ux uy uz.
  apply (Rmult_le_reg_r (2 ^ 50)); [done|].
  unfold Rdiv. rewrite (Rmult_assoc _ (/ 2 ^ 50)), Rinv_l, Rmult_1_r by lra.
  apply Rle_trans with (Rabs (IZR uz - IZR ux) * 2 ^ 50 * P); [lra|].
  rewrite <- Rmult_plus_distr_r. apply Rmult_le_compat_r; lra.
Qed.

Lemma B2R_units_abs (x : binary64) :
  b64_grid x -> Rabs (B2R x) = IZR (Z.abs (b64_units x)) * bpow (-1074).
Proof.
  intros Hx. rewrite (B2R_units x Hx), Rabs_mult, abs_IZR.
  f_equal. apply Rabs_right, Rle_ge, Rlt_le, bpow_pos.
Qed.

(** [(x + y) - y] is finite when [|x| + |y|] is at most 2^1022. *)
Lemma b64_add_then_sub_finite_real (x y : binary64) :
  b64_grid x -> b64_grid y ->
  Rabs (B2R x) + Rabs (B2R y) <= 2 ^ 1022 ->
  b64_finite (SFsub 53 1024 (SFadd 53 1024 x y) y) = true.
Proof.
  intros Hx Hy Hle. apply b64_add_then_sub_finite; [done..|].
  apply le_IZR.
  rewrite (B2R_units_abs x Hx), (B2R_units_abs y Hy) in Hle.
  rewrite <- Rmult_plus_distr_r, <- plus_IZR in Hle.
  pose proof (bpow_pos (-1074)) as HP. pose proof (bpow_pos 1074) as HQ.
  assert (2 ^ 1022 = bpow 1022) as H1
    by (rewrite bpow_IZR, pow_IZR by lia; reflexivity).
  rewrite <- (bpow_IZR 2096) by lia.
  change 2096%Z with (1022 + 1074)%Z. rewrite bpow_add, <- H1.
  set (n := IZR (Z.abs (b64_units x) + Z.abs (b64_units y))) in *.
  apply Rle_trans with (n * bpow (-1074) * bpow 1074).
  - rewrite Rmult_assoc, (Rmult_comm (bpow (-1074))), bpow_inv_mul. lra.
  - apply Rmult_le_compat_r; lra.
Qed.
End UnitsAndReals.

(** ** [(a + b) - b] (C6) *)

Section AddThenSub.
Context {T : Type} `{Scalar T}.

(** What the expression computes, rounding or not. *)
Lemma add_then_sub_value (h : heap T) (a b : loc) (va vb : vector T) :
  h !! a = Some (VectorObj va) ->
  h !! b = Some (VectorObj vb) ->
  length (vector_eigen va) = length (vector_eigen vb) ->
  value_of (add_then_sub a b) h =
  Ok (zip_with ssub (zip_with sadd (vector_eigen va) (vector_eigen vb))
                    (vector_eigen vb)).
Proof.
  intros Ha Hb Hlen.
  unfold value_of, add_then_sub, operator_add_vector_vector.
  reads. unfold Eigen.add, Eigen.cwise. rewrite Hlen, Nat.eqb_refl.
  reads. rewrite bind_temporary.
  unfold operator_sub_vector_vector.
  erewrite bind_read_vector by (unfold heap; apply lookup_insert_eq).
  erewrite bind_read_vector by (apply lookup_after_temporary; eassumption).
  unfold lift, Eigen.sub, Eigen.cwise. cbn [vector_eigen].
  rewrite length_zip_with, Hlen, Nat.min_id, Nat.eqb_refl.
  reflexivity.
Qed.

Lemma zip_with_sub_add (a b : list T) :
  Forall2 (fun x y => ssub (sadd x y) y = x) a b ->
  zip_with ssub (zip_with sadd a b) b = a.
Proof. induction 1 as [|x y a b Hxy _ IH]; [reflexivity|]. cbn. by rewrite Hxy, IH. Qed.

Lemma Forall2_of_law (P : T -> T -> Prop) (a b : list T) :
  (forall x y, P x y) -> length a = length b -> Forall2 P a b.
Proof.
  intros HP. revert b. induction a as [|x a IH]; intros [|y b] Hlen;
    try discriminate; constructor; [apply HP|]. apply IH. by injection Hlen.
Qed.
End AddThenSub.

Lemma integer_vectors_exact (za zb : list Z) :
  Forall2 (fun x y => Z.abs x < 2 ^ 53 /\ Z.abs y < 2 ^ 53 /\
                      Z.abs (x + y) < 2 ^ 53)%Z za zb ->
  Forall2 (fun x y : binary64 => ssub (sadd x y) y = x)
          (map of_int za) (map of_int zb).
Proof.
  induction 1 as [|x y za zb (Hx & Hy & Hxy) _ IH]; cbn [map]; constructor;
    [|exact IH].
  apply exact_sum_sub. by apply integer_sum_exact.
Qed.

(** C6, amended.  In binary64, for vectors [a] and [b] of finite numbers
    and of equal length, [(a + b) - b] is a vector of that length; each of
    its elements is finite when the magnitudes of the two elements of [a]
    and [b] add up to at most 2^1022, and each of its elements that is
    finite differs from the element of [a] by at most 2^-50 times the sum
    of those two magnitudes.  For vectors of integers where each element
    and each sum is below 2^53 in magnitude, [(a + b) - b] is [a].  In
    exact arithmetic [(a + b) - b] is [a]. *)
Theorem add_then_sub_within_tolerance :
  (forall (h : heap binary64) (a b : loc) (va vb : vector binary64),
     h !! a = Some (VectorObj va) ->
     h !! b = Some (VectorObj vb) ->
     length (vector_eigen va) = length (vector_eigen vb) ->
     Forall (fun x => b64_number x = true) (vector_eigen va) ->
     Forall (fun y => b64_number y = true) (vector_eigen vb) ->
     exists r, value_of (add_then_sub a b) h = Ok r /\
       length r = length (vector_eigen va) /\
       forall (i : nat) (x y z : binary64),
         vector_eigen va !! i = Some x ->
         vector_eigen vb !! i = Some y ->
         r !! i = Some z ->
         ((Rabs (B2R x) + Rabs (B2R y) <= 2 ^ 1022)%R ->
          b64_finite z = true) /\
         (b64_finite z = true ->
          (Rabs (B2R z - B2R x)
             <= (Rabs (B2R x) + Rabs (B2R y)) / 2 ^ 50)%R)) /\
  (forall (h : heap binary64) (a b : loc) (za zb : list Z),
     h !! a = Some (VectorObj (ints za)) ->
     h !! b = Some (VectorObj (ints zb)) ->
     Forall2 (fun x y => Z.abs x < 2 ^ 53 /\ Z.abs y < 2 ^ 53 /\
                         Z.abs (x + y) < 2 ^ 53)%Z za zb ->
     value_of (add_then_sub a b) h = Ok (vector_eigen (ints za))) /\
  (forall (h : heap R) (a b : loc) (va vb : vector R),
     h !! a = Some (VectorObj va) ->
     h !! b = Some (VectorObj vb) ->
     length (vector_eigen va) = length (vector_eigen vb) ->
     value_of (add_then_sub a b) h = Ok (vector_eigen va)).
Proof.
  split; [|split].
  - intros h a b va vb Ha Hb Hlen Hva Hvb.
    eexists. split; [by apply add_then_sub_value|].
    split; [rewrite !length_zip_with; lia|].
    intros i x y z Hx Hy Hz.
    unfold Eigen.Vec in *.
    rewrite !lookup_zip_with, Hx, Hy in Hz. cbn in Hz. injection Hz as <-.
    pose proof (Forall_lookup_1 _ _ _ _ Hva Hx) as Hnx.
    pose proof (Forall_lookup_1 _ _ _ _ Hvb Hy) as Hny.
    cbn beta in Hnx, Hny. unfold b64_number in Hnx, Hny.
    apply andb_prop in Hnx as [? ?]. apply andb_prop in Hny as [? ?].
    split.
    + intros Hmag.
      apply b64_add_then_sub_finite_real; [by apply valid_grid..|exact Hmag].
    + intros Hf.
      apply b64_add_then_sub_real; [by apply valid_grid..|exact Hf].
  - intros h a b za zb Ha Hb Hz.
    rewrite (add_then_sub_value h a b _ _ Ha Hb).
    + f_equal. apply zip_with_sub_add. cbn [ints vector_eigen].
      by apply integer_vectors_exact.
    + cbn [ints vector_eigen]. rewrite !length_map.
      by apply Forall2_length in Hz.
  - intros h a b va vb Ha Hb Hlen.
    rewrite (add_then_sub_value h a b _ _ Ha Hb Hlen). f_equal.
    apply zip_with_sub_add, Forall2_of_law; [|done].
    intros x y. cbn. lra.
Qed.

Lemma add_then_sub_within_tolerance_witness :
  let va : vector binary64 := mk_vector [b64_of_Z 1; b64_half; DBL_MAX] in
  let vb : vector binary64 :=
    mk_vector [b64_of_Z (2 ^ 60); two_pow_m600; DBL_MAX] in
  let h : heap binary64 := {[ 1 := VectorObj va; 2 := VectorObj vb ]} in
  exists r, value_of (add_then_sub 1 2) h = Ok r /\
    length r = 3 /\
    forall (i : nat) (x y z : binary64),
      vector_eigen va !! i = Some x ->
      vector_eigen vb !! i = Some y ->
      r !! i = Some z ->
      ((Rabs (B2R x) + Rabs (B2R y) <= 2 ^ 1022)%R -> b64_finite z = true) /\
      (b64_finite z = true ->
       (Rabs (B2R z - B2R x) <= (Rabs (B2R x) + Rabs (B2R y)) / 2 ^ 50)%R).
Proof.
  intros va vb h.
  destruct add_then_sub_within_tolerance as [Hb64 _].
  apply (Hb64 h 1 2 va vb);
    [ reflexivity | reflexivity | reflexivity
    | repeat constructor | repeat constructor ].
Defined.

(** C6, as stated, fails in binary64.  With [a = b = [DBL_MAX]] the sum
    overflows and [(a + b) - b] is [[+inf]], which no finite tolerance
    brings back to [a].  With [a = [1]] and [b = [2^60]] the sum absorbs
    [a] and [(a + b) - b] is [[0]]: the error is the whole of [a], so a
    tolerance has to scale with [b].  With [a = [DBL_MAX]] and
    [b = [-3 * 2^970]] the sum is finite and it is the difference that
    overflows. *)
Lemma add_then_sub_counterexample :
  let big : heap binary64 :=
    {[ 1 := VectorObj (mk_vector [DBL_MAX]);
       2 := VectorObj (mk_vector [DBL_MAX]) ]} in
  let mixed : heap binary64 :=
    {[ 1 := VectorObj (mk_vector [b64_of_Z 1]);
       2 := VectorObj (mk_vector [b64_of_Z (2 ^ 60)]) ]} in
  let edge : heap binary64 :=
    {[ 1 := VectorObj (mk_vector [DBL_MAX]);
       2 := VectorObj (mk_vector [b64_of_Z (- 3 * 2 ^ 970)]) ]} in
  value_of (add_then_sub 1 2) big = Ok [pos_inf] /\
  within DBL_MAX pos_inf DBL_MAX = false /\
  value_of (add_then_sub 1 2) mixed = Ok [b64_of_Z 0] /\
  within b64_half (b64_of_Z 0) (b64_of_Z 1) = false /\
  b64_finite (SFadd 53 1024 DBL_MAX (b64_of_Z (- 3 * 2 ^ 970))) = true /\
  value_of (add_then_sub 1 2) edge = Ok [pos_inf].
Proof. vm_compute. repeat split. Qed.

(** ** Transposition (C5) *)

Section Transpose.
Context {T : Type} `{Scalar T}.

Lemma lookup_tabulate_from (r c s : nat) (f : nat -> nat -> T) (i j : nat) :
  i < r -> j < c ->
  flat_map (fun j' => map (fun i' => f i' j') (seq 0 r)) (seq s c)
    !! (j * r + i) = Some (f i (s + j)).
Proof.
  intros Hi. revert s j. induction c as [|c IH]; intros s j Hj; [lia|].
  cbn [seq flat_map]. destruct j as [|j].
  - rewrite lookup_app_l by (rewrite length_map, length_seq; lia).
    rewrite list_lookup_fmap, lookup_seq_lt by lia. cbn.
    by rewrite Nat.add_0_r.
  - rewrite lookup_app_r by (rewrite length_map, length_seq; lia).
    rewrite length_map, length_seq.
    replace (S j * r + i - r) with (j * r + i) by lia.
    rewrite IH by lia. do 2 f_equal. lia.
Qed.

Lemma lookup_tabulate (r c : nat) (f : nat -> nat -> T) (i j : nat) :
  i < r -> j < c -> Eigen.tabulate r c f !! (j * r + i) = Some (f i j).
Proof. intros Hi Hj. unfold Eigen.tabulate. by rewrite lookup_tabulate_from. Qed.

Lemma length_tabulate (r c : nat) (f : nat -> nat -> T) :
  length (Eigen.tabulate r c f) = c * r.
Proof.
  unfold Eigen.tabulate. generalize 0 at 2. induction c as [|c IH]; intros s.
  - reflexivity.
  - cbn [seq flat_map]. rewrite length_app, length_map, length_seq, IH. lia.
Qed.

Lemma tabulate_ext (r c : nat) (f g : nat -> nat -> T) :
  (forall i j, i < r -> j < c -> f i j = g i j) ->
  Eigen.tabulate r c f = Eigen.tabulate r c g.
Proof.
  intros Hfg. apply list_eq. intros k.
  destruct (decide (k < c * r)) as [Hk|Hk].
  - assert (0 < r) by (destruct r; lia).
    assert (k mod r < r) by (apply Nat.mod_upper_bound; lia).
    assert (k / r < c) by (apply Nat.Div0.div_lt_upper_bound; lia).
    rewrite (Nat.div_mod_eq k r), (Nat.mul_comm r).
    rewrite !lookup_tabulate by done. f_equal. by apply Hfg.
  - rewrite !lookup_ge_None_2; [done| |]; rewrite length_tabulate; lia.
Qed.

Lemma tabulate_nth (r c : nat) (l : list T) (d : T) :
  length l = c * r ->
  Eigen.tabulate r c (fun i j => nth (j * r + i) l d) = l.
Proof.
  intros Hlen. apply list_eq. intros k.
  destruct (decide (k < c * r)) as [Hk|Hk].
  - assert (0 < r) by (destruct r; lia).
    assert (k mod r < r) by (apply Nat.mod_upper_bound; lia).
    assert (k / r < c) by (apply Nat.Div0.div_lt_upper_bound; lia).
    rewrite (Nat.div_mod_eq k r), (Nat.mul_comm r).
    rewrite lookup_tabulate by done.
    rewrite nth_lookup.
    destruct (l !! (k / r * r + k mod r)) as [x|] eqn:E; [done|].
    apply lookup_ge_None_1 in E. rewrite (Nat.mul_comm _ r) in E.
    rewrite <- Nat.div_mod_eq in E. lia.
  - rewrite !lookup_ge_None_2; [done| |rewrite length_tabulate]; lia.
Qed.

Lemma coeff_transpose (m : Eigen.Mat T) (i j : nat) :
  i < Eigen.cols m -> j < Eigen.rows m ->
  Eigen.coeff (Eigen.transpose m) i j = Eigen.coeff m j i.
Proof.
  intros Hi Hj. unfold Eigen.coeff at 1. cbn.
  by rewrite nth_lookup, lookup_tabulate.
Qed.

Lemma transpose_involutive (m : Eigen.Mat T) :
  Eigen.well_formed m -> Eigen.transpose (Eigen.transpose m) = m.
Proof.
  intros Hwf. destruct m as [r c l]. unfold Eigen.well_formed in Hwf.
  cbn in Hwf. unfold Eigen.transpose at 1. cbn [Eigen.rows Eigen.cols].
  f_equal.
  rewrite (tabulate_ext _ _ _ (fun i j => nth (j * r + i) l (of_int 0))).
  - by apply tabulate_nth.
  - intros i j Hi Hj. by rewrite coeff_transpose.
Qed.

(** C5.  [transpose(transpose(M))] is [M], coefficient for coefficient and
    in every element type: a transposition only moves coefficients. *)
Theorem transpose_transpose (h : heap T) (mat : loc) (m : matrix T) :
  h !! mat = Some (MatrixObj m) ->
  Eigen.well_formed (matrix_eigen m) ->
  value_of (transpose_twice mat) h = Ok m.
Proof.
  intros Hm Hwf. unfold value_of, transpose_twice, eigen.transpose.
  reads. rewrite bind_temporary.
  erewrite bind_read_matrix by (unfold heap; apply lookup_insert_eq).
  cbn. rewrite transpose_involutive by done. by destruct m.
Qed.
End Transpose.

Lemma transpose_transpose_witness :
  let m : matrix binary64 :=
    mk_matrix (Eigen.mkMat 2 3 (map b64_of_Z [1; 2; 3; 4; 5; 6]%Z)) in
  let h : heap binary64 := {[ 1 := MatrixObj m ]} in
  value_of (transpose_twice 1) h = Ok m.
Proof.
  intros m h. apply (transpose_transpose h 1 m); reflexivity.
Defined.

(** ** The two normalizations at order 2 (C10) *)

Section NormalizePaths.
Context {T : Type} `{Scalar T} `{Libm T}.

Lemma normalize_l_2_as_normalize (h : heap T) (vec : loc) (v : vector T) :
  h !! vec = Some (VectorObj v) ->
  slt (of_int 0) (Eigen.squaredNorm (vector_eigen v)) = true ->
  eigen.normalize_l 2 vec h = eigen.normalize vec h /\
  eigen.normalize vec h =
    Ok (tt, <[vec := VectorObj (mk_vector
               (Eigen.quot (vector_eigen v) (Eigen.norm (vector_eigen v))))]> h).
Proof.
  intros Hv Hz.
  unfold eigen.normalize_l, eigen.normalize, eigen.norm_l,
    operator_div_vector_scalar.
  reads. unfold Eigen.lpNorm, Eigen.normalize. cbn [Z.eqb Pos.eqb].
  rewrite Hz. unfold write_vector. by rewrite Hv.
Qed.

(** C10, amended.  When the squared norm of [v], computed in the element
    arithmetic, is positive, [normalize<2>(v)] and [normalize(v)] leave the
    same store: [v] divided by the square root of that squared norm. *)
Theorem normalize_paths_agree (h : heap T) (vec : loc) (v : vector T) :
  h !! vec = Some (VectorObj v) ->
  slt (of_int 0) (Eigen.squaredNorm (vector_eigen v)) = true ->
  eigen.normalize_l 2 vec h = eigen.normalize vec h /\
  eigen.normalize vec h =
    Ok (tt, <[vec := VectorObj (mk_vector
               (Eigen.quot (vector_eigen v) (Eigen.norm (vector_eigen v))))]> h).
Proof. exact (normalize_l_2_as_normalize h vec v). Qed.
End NormalizePaths.

Lemma normalize_paths_agree_witness :
  let h : heap R := {[ 1 := VectorObj (ints [3; 4]%Z) ]} in
  eigen.normalize_l 2 1 h = eigen.normalize 1 h.
Proof.
  intros h.
  refine (proj1 (normalize_paths_agree h 1 (ints [3; 4]%Z) _ _));
    [ reflexivity | cbn; destruct (Rlt_dec _ _); [reflexivity | lra] ].
Defined.

(** C10, as stated, fails in binary64.  [v = [2^-600]] is not zero, but its
    squared norm underflows to 0: [normalize<2>] divides by the norm 0 and
    stores [+inf], while [normalize] finds no positive squared norm and
    leaves [v] as it is. *)
Lemma normalize_paths_counterexample :
  let h : heap binary64 := {[ 1 := VectorObj (mk_vector [two_pow_m600]) ]} in
  SFeqb two_pow_m600 (b64_of_Z 0) = false /\
  eigen.normalize 1 h = Ok (tt, h) /\
  forall L : Libm binary64,
    eigen.normalize_l 2 1 h =
      Ok (tt, {[ 1 := VectorObj (mk_vector [pos_inf]) ]}).
Proof. vm_compute. repeat split. Qed.

(** ** Normalization gives unit norm, in exact arithmetic (C3) *)

Section RealNorms.
Local Open Scope R_scope.
Implicit Types (l : list R) (x y N : R).

Lemma fold_left_Rplus l x : fold_left Rplus l x = x + Rsum l.
Proof.
  unfold Rsum. revert x. induction l as [|y l IH]; intros x; cbn; [lra|].
  rewrite IH. lra.
Qed.

Lemma sum_Rsum l : Eigen.sum l = Rsum l.
Proof.
  destruct l as [|x l]; [reflexivity|].
  unfold Eigen.sum, Eigen.redux. by rewrite fold_left_Rplus.
Qed.

Lemma Rsum_map_div (f : R -> R) l N :
  Rsum (map (fun x => f x / N) l) = Rsum (map f l) / N.
Proof.
  unfold Rsum. induction l as [|x l IH]; cbn; [lra|]. rewrite IH.
  unfold Rdiv. lra.
Qed.

Lemma Rsum_nonneg (f : R -> R) l :
  (forall x, 0 <= f x) -> 0 <= Rsum (map f l).
Proof.
  intros Hf. unfold Rsum. induction l as [|x l IH]; cbn; [lra|].
  specialize (Hf x). lra.
Qed.

Lemma Rsum_pos (f : R -> R) l :
  (forall x, 0 <= f x) -> (exists x, x ∈ l /\ 0 < f x) -> 0 < Rsum (map f l).
Proof.
  intros Hf (x & Hx & Hpos). induction l as [|y l IH]; [by inversion Hx|].
  pose proof (Rsum_nonneg f l Hf) as Hl. pose proof (Hf y).
  unfold Rsum in *. cbn.
  apply elem_of_cons in Hx as [->|Hx]; [lra|]. specialize (IH Hx). lra.
Qed.

(** The maximum of the absolute values. *)
Lemma smax_Rmax x y : Eigen.smax x y = Rmax x y.
Proof.
  unfold Eigen.smax, Rmax. cbn. destruct (Rlt_dec x y), (Rle_dec x y); lra.
Qed.

Lemma fold_left_smax_div l x N :
  0 < N ->
  fold_left Eigen.smax (map (fun y => Rabs y / N) l) (x / N) =
  fold_left Eigen.smax (map Rabs l) x / N.
Proof.
  intros HN. revert x. induction l as [|y l IH]; intros x; cbn; [done|].
  rewrite <- IH. f_equal. rewrite !smax_Rmax. unfold Rdiv.
  rewrite !(Rmult_comm _ (/ N)).
  rewrite RmaxRmult; [done|]. left. by apply Rinv_0_lt_compat.
Qed.

Lemma fold_left_smax_ge l x : x <= fold_left Eigen.smax l x.
Proof.
  revert x. induction l as [|y l IH]; intros x; cbn; [lra|].
  eapply Rle_trans; [|apply IH]. rewrite smax_Rmax. apply Rmax_l.
Qed.

Lemma fold_left_smax_elem l x y :
  y ∈ l -> y <= fold_left Eigen.smax l x.
Proof.
  revert x. induction l as [|z l IH]; intros x Hy; [by inversion Hy|].
  cbn. apply elem_of_cons in Hy as [->|Hy].
  - eapply Rle_trans; [|apply fold_left_smax_ge]. rewrite smax_Rmax.
    apply Rmax_r.
  - by apply IH.
Qed.

Lemma maxCoeff_abs_pos l :
  (exists x, x ∈ l /\ x <> 0) -> 0 < Eigen.maxCoeff (map Rabs l).
Proof.
  intros (x & Hx & Hne). destruct l as [|y l]; [by inversion Hx|].
  unfold Eigen.maxCoeff, Eigen.redux. cbn [map].
  pose proof (Rabs_pos_lt x Hne).
  apply elem_of_cons in Hx as [->|Hx].
  - eapply Rlt_le_trans; [eassumption|apply fold_left_smax_ge].
  - eapply Rlt_le_trans; [eassumption|].
    apply fold_left_smax_elem. rewrite list_elem_of_fmap. eauto.
Qed.

Lemma maxCoeff_abs_div l N :
  0 < N ->
  Eigen.maxCoeff (map Rabs (map (fun x => x / N) l)) =
  Eigen.maxCoeff (map Rabs l) / N.
Proof.
  intros HN. rewrite map_map.
  rewrite (map_ext _ (fun x => Rabs x / N)).
  2:{ intros x. unfold Rdiv. rewrite Rabs_mult, (Rabs_right (/ N)); [done|].
      left. by apply Rinv_0_lt_compat. }
  destruct l as [|x l]; cbn; [lra|]. by apply fold_left_smax_div.
Qed.

(** [pow] on a non-negative base. *)
Lemma Rpow_nonneg x y : 0 <= x -> 0 <= Rpow x y.
Proof.
  intros Hx. unfold Rpow. destruct (Req_dec_T x 0), (Req_dec_T y 0); try lra.
  - left. apply exp_pos.
  - left. apply exp_pos.
Qed.

Lemma Rpow_pos x y : 0 < x -> 0 < Rpow x y.
Proof.
  intros Hx. unfold Rpow. destruct (Req_dec_T x 0); [lra|]. apply exp_pos.
Qed.

Lemma Rpower_Rinv x y : 0 < x -> Rpower (/ x) y = / Rpower x y.
Proof.
  intros Hx. unfold Rpower. rewrite ln_Rinv by done.
  replace (y * - ln x) with (- (y * ln x)) by lra. apply exp_Ropp.
Qed.

Lemma Rpow_div x N y :
  0 <= x -> 0 < N -> y <> 0 -> Rpow (x / N) y = Rpow x y / Rpower N y.
Proof.
  intros Hx HN Hy. unfold Rpow.
  pose proof (Rinv_0_lt_compat N HN) as HiN.
  destruct (Req_dec_T x 0) as [->|Hne].
  - destruct (Req_dec_T (0 / N) 0) as [_|Hc]; [|exfalso; apply Hc; lra].
    destruct (Req_dec_T y 0); lra.
  - assert (0 < x) by lra.
    destruct (Req_dec_T (x / N) 0) as [Hc|_].
    + exfalso. assert (0 < x / N) by (by apply Rdiv_lt_0_compat). lra.
    + unfold Rdiv. rewrite <- Rpower_mult_distr by done.
      by rewrite Rpower_Rinv.
Qed.

Lemma Rpower_root S p : 0 < S -> p <> 0 -> Rpower (Rpower S (1 / p)) p = S.
Proof.
  intros HS Hp. rewrite Rpower_mult.
  replace (1 / p * p) with 1 by (field; done). by apply Rpower_1.
Qed.

Lemma Rpower_one y : Rpower 1 y = 1.
Proof. unfold Rpower. rewrite ln_1, Rmult_0_r. apply exp_0. Qed.
End RealNorms.

Section RealNormalize.
Local Open Scope R_scope.
Implicit Types (v : list R) (N : R).

Lemma abs_quot v N :
  0 < N -> map Rabs (Eigen.quot v N) = map (fun x => Rabs x / N) v.
Proof.
  intros HN. unfold Eigen.quot. rewrite map_map. apply map_ext. intros x.
  cbn. unfold Rdiv. rewrite Rabs_mult, (Rabs_right (/ N)); [done|].
  left. by apply Rinv_0_lt_compat.
Qed.

Lemma squaredNorm_pos v : some_nonzero v -> 0 < Eigen.squaredNorm v.
Proof.
  intros (x & Hx & Hne). unfold Eigen.squaredNorm. rewrite sum_Rsum.
  apply (Rsum_pos (fun x => x * x)).
  - intros y. cbn. nra.
  - exists x. split; [done|]. cbn. nra.
Qed.

Lemma squaredNorm_quot v N :
  N <> 0 -> Eigen.squaredNorm (Eigen.quot v N) = Eigen.squaredNorm v / (N * N).
Proof.
  intros HN. unfold Eigen.squaredNorm, Eigen.quot. rewrite !sum_Rsum, map_map.
  rewrite <- (Rsum_map_div (fun x => smul x x)). f_equal. apply map_ext.
  intros x. cbn. by field.
Qed.

Lemma norm_quot_norm v :
  some_nonzero v -> Eigen.norm (Eigen.quot v (Eigen.norm v)) = 1.
Proof.
  intros Hv. pose proof (squaredNorm_pos v Hv) as Hz.
  unfold Eigen.norm at 1. cbn [ssqrt R_scalar].
  rewrite squaredNorm_quot.
  - unfold Eigen.norm. cbn [ssqrt R_scalar]. rewrite sqrt_sqrt by lra.
    replace (Eigen.squaredNorm v / Eigen.squaredNorm v) with 1
      by (field; lra).
    apply sqrt_1.
  - unfold Eigen.norm. cbn [ssqrt R_scalar].
    pose proof (sqrt_lt_R0 _ Hz). lra.
Qed.

Lemma norm1_quot v :
  some_nonzero v ->
  let N := Eigen.sum (map sabs v) in
  Eigen.sum (map sabs (Eigen.quot v N)) = 1.
Proof.
  intros (x & Hx & Hne) N. cbn [sabs R_scalar] in *.
  assert (0 < N) as HN.
  { unfold N. rewrite sum_Rsum. apply Rsum_pos.
    - intros y. apply Rabs_pos.
    - exists x. split; [done|]. by apply Rabs_pos_lt. }
  rewrite abs_quot by done. rewrite sum_Rsum, Rsum_map_div.
  fold (Rsum (map Rabs v)). rewrite <- sum_Rsum. fold N. field. lra.
Qed.

Lemma normInf_quot v :
  some_nonzero v ->
  let N := Eigen.maxCoeff (map sabs v) in
  Eigen.maxCoeff (map sabs (Eigen.quot v N)) = 1.
Proof.
  intros Hv N. cbn [sabs R_scalar] in *.
  pose proof (maxCoeff_abs_pos v Hv) as HN. fold N in HN.
  unfold Eigen.quot. cbn [sdiv R_scalar].
  rewrite maxCoeff_abs_div by done. fold N. field. lra.
Qed.

Lemma normP_quot v (p : Z) :
  some_nonzero v -> IZR p <> 0 ->
  let S := Eigen.sum (map (fun x => pow (sabs x) (of_int p)) v) in
  let N := pow S (sdiv (of_int 1) (of_int p)) in
  pow (Eigen.sum (map (fun x => pow (sabs x) (of_int p)) (Eigen.quot v N)))
      (sdiv (of_int 1) (of_int p)) = 1.
Proof.
  intros (x & Hx & Hne) Hp S N.
  unfold pow, R_libm in *. cbn [sabs sdiv of_int R_scalar] in *.
  assert (0 < S) as HS.
  { unfold S. rewrite sum_Rsum. apply (Rsum_pos (fun x => Rpow (Rabs x) (IZR p))).
    - intros y. apply Rpow_nonneg, Rabs_pos.
    - exists x. split; [done|]. by apply Rpow_pos, Rabs_pos_lt. }
  assert (N = Rpower S (1 / IZR p)) as HNeq.
  { unfold N, Rpow. destruct (Req_dec_T S 0); [lra|done]. }
  assert (0 < N) as HN by (rewrite HNeq; apply exp_pos).
  unfold Eigen.quot. rewrite map_map. cbn [sdiv R_scalar].
  rewrite (map_ext _ (fun x => Rpow (Rabs x) (IZR p) / Rpower N (IZR p))).
  2:{ intros y. unfold Rdiv at 1.
      rewrite Rabs_mult, (Rabs_right (/ N)) by (left; by apply Rinv_0_lt_compat).
      apply Rpow_div; [apply Rabs_pos|done|done]. }
  rewrite sum_Rsum, Rsum_map_div.
  fold (Rsum (map (fun x => Rpow (Rabs x) (IZR p)) v)).
  rewrite <- (sum_Rsum (map (fun x => Rpow (Rabs x) (IZR p)) v)). fold S.
  rewrite HNeq, Rpower_root by done.
  replace (S / S) with 1 by (field; lra).
  unfold Rpow. destruct (Req_dec_T 1 0); [lra|]. apply Rpower_one.
Qed.

Lemma lpNorm_quot v (p : Z) :
  some_nonzero v -> (p = Eigen.Infinity \/ 1 <= p)%Z ->
  Eigen.lpNorm p (Eigen.quot v (Eigen.lpNorm p v)) = 1.
Proof.
  intros Hv Hp. unfold Eigen.lpNorm.
  destruct (Z.eqb_spec p 1); [by apply norm1_quot|].
  destruct (Z.eqb_spec p 2); [by apply norm_quot_norm|].
  destruct (Z.eqb_spec p Eigen.Infinity); [by apply normInf_quot|].
  apply normP_quot; [done|]. apply not_0_IZR. unfold Eigen.Infinity in *. lia.
Qed.

Lemma normalize_nonzero v :
  some_nonzero v -> Eigen.normalize v = Eigen.quot v (Eigen.norm v).
Proof.
  intros Hv. pose proof (squaredNorm_pos v Hv) as Hz.
  unfold Eigen.normalize. cbn [slt of_int R_scalar].
  by destruct (Rlt_dec 0 (Eigen.squaredNorm v)).
Qed.

(** In exact arithmetic, for a vector [v] with a non-zero element: after
    [normalize(v)] the default (L2) norm of [v] is 1, and after
    [normalize<l>(v)] the norm of order [l] of [v] is 1, for [l] Infinity
    or at least 1. *)
Lemma normalize_unit_norm_real (h : heap R) (vec : loc) (v : vector R) :
  h !! vec = Some (VectorObj v) ->
  some_nonzero (vector_eigen v) ->
  value_of (_ ← eigen.normalize vec; eigen.norm vec) h = Ok 1 /\
  forall l : Z, (l = Eigen.Infinity \/ 1 <= l)%Z ->
    value_of (_ ← eigen.normalize_l l vec; eigen.norm_l l vec) h = Ok 1.
Proof.
  intros Hvec Hv. split.
  - unfold value_of, eigen.normalize, eigen.norm. reads.
    erewrite bind_read_vector by (unfold heap; apply lookup_insert_eq).
    unfold mret, M_ret, fmap, outcome_fmap. cbn [fst vector_eigen].
    rewrite normalize_nonzero by done. by rewrite norm_quot_norm.
  - intros l Hl.
    unfold value_of, eigen.normalize_l, eigen.norm_l,
      operator_div_vector_scalar.
    reads.
    erewrite bind_read_vector by (unfold heap; apply lookup_insert_eq).
    unfold mret, M_ret, fmap, outcome_fmap. cbn [fst vector_eigen].
    by rewrite lpNorm_quot.
Qed.

(** In exact arithmetic the squared norm of a non-zero vector is positive,
    so the two normalizations agree on every non-zero vector. *)
Lemma normalize_paths_agree_real (h : heap R) (vec : loc) (v : vector R) :
  h !! vec = Some (VectorObj v) ->
  some_nonzero (vector_eigen v) ->
  eigen.normalize_l 2 vec h = eigen.normalize vec h.
Proof.
  intros Hvec Hv. apply (normalize_l_2_as_normalize h vec v Hvec).
  pose proof (squaredNorm_pos _ Hv). cbn [slt of_int R_scalar].
  by destruct (Rlt_dec 0 (Eigen.squaredNorm (vector_eigen v))).
Qed.
End RealNormalize.

(** ** Normalization in binary64 *)

Section NormalizeValue.
Context {T : Type} `{Scalar T}.

(** What the two normalizations followed by the norm compute. *)
Lemma normalize_then_norm_value (h : heap T) (vec : loc) (v : vector T) :
  h !! vec = Some (VectorObj v) ->
  value_of (_ ← eigen.normalize vec; eigen.norm vec) h =
  Ok (Eigen.norm (Eigen.normalize (vector_eigen v))).
Proof.
  intros Hvec. unfold value_of, eigen.normalize, eigen.norm. reads.
  erewrite bind_read_vector by (unfold heap; apply lookup_insert_eq).
  reflexivity.
Qed.

Lemma normalize_l_then_norm_l_value `{Libm T} (l : Z) (h : heap T) (vec : loc)
    (v : vector T) :
  h !! vec = Some (VectorObj v) ->
  value_of (_ ← eigen.normalize_l l vec; eigen.norm_l l vec) h =
  Ok (Eigen.lpNorm l (Eigen.quot (vector_eigen v)
                                 (Eigen.lpNorm l (vector_eigen v)))).
Proof.
  intros Hvec.
  unfold value_of, eigen.normalize_l, eigen.norm_l,
    operator_div_vector_scalar.
  reads.
  erewrite bind_read_vector by (unfold heap; apply lookup_insert_eq).
  reflexivity.
Qed.
End NormalizeValue.

(** *** The four operations *)

Section Operations.
Local Open Scope R_scope.

Lemma normal_digits (m : positive) (e : Z) :
  normal_me m e -> Z.log2 (Zpos m) = 52%Z.
Proof. intros [Hm _]. apply Z.log2_unique; lia. Qed.

Lemma val_shift (m : positive) (e k : Z) :
  (0 <= k)%Z -> IZR (Zpos m * 2 ^ k) * bpow (e - k) = val m e.
Proof.
  intros Hk. unfold val. rewrite mult_IZR, <- (bpow_IZR k) by done.
  rewrite Rmult_assoc, <- bpow_add. do 2 f_equal. lia.
Qed.

(** Product of two normal numbers. *)
Lemma b64_mul_rnd (sx : bool) (mx : positive) (ex : Z)
    (sy : bool) (my : positive) (ey : Z) :
  normal_me mx ex -> normal_me my ey ->
  bpow (-1000) <= val mx ex * val my ey <= bpow 1000 ->
  exists (m : positive) (e : Z),
    SFmul 53 1024 (S754_finite sx mx ex) (S754_finite sy my ey) =
      S754_finite (xorb sx sy) m e /\
    normal_me m e /\ rnd (val m e) (val mx ex * val my ey).
Proof.
  intros [Hmx Hex] [Hmy Hey] [Hlo Hhi]. cbn [SFmul].
  assert (IZR (Z.pos (mx * my)) * bpow (ex + ey) = val mx ex * val my ey)
    as Hval.
  { unfold val. rewrite Pos2Z.inj_mul, mult_IZR, bpow_add. ring. }
  apply round_normal.
  - rewrite Pos2Z.inj_mul. nia.
  - rewrite Hval. eapply Rle_trans; [|exact Hlo]. apply bpow_le. lia.
  - rewrite Hval. eapply Rle_lt_trans; [exact Hhi|]. apply bpow_lt. lia.
  - rewrite plus_IZR, Hval. pose proof (bpow_pos (ex + ey)). split; nra.
Qed.

(** Sum of two positive normal numbers. *)
Lemma b64_add_rnd (mx : positive) (ex : Z) (my : positive) (ey : Z) :
  normal_me mx ex -> normal_me my ey ->
  val mx ex + val my ey <= bpow 1000 ->
  exists (m : positive) (e : Z),
    SFadd 53 1024 (S754_finite false mx ex) (S754_finite false my ey) =
      S754_finite false m e /\
    normal_me m e /\ rnd (val m e) (val mx ex + val my ey).
Proof.
  intros [Hmx Hex] [Hmy Hey] Hhi. cbn [SFadd cond_Zopp].
  set (ez := Z.min ex ey).
  pose proof (shl_align_value mx ex ez ltac:(lia)) as Hx.
  pose proof (shl_align_value my ey ez ltac:(lia)) as Hy.
  set (a := fst (shl_align mx ex ez)) in *.
  set (b := fst (shl_align my ey ez)) in *.
  change (Z.pos a + Z.pos b)%Z with (Z.pos (a + b)).
  cbn [binary_normalize]. unfold binary_round.
  assert (0 < 2 ^ (ex - ez))%Z by (apply Z.pow_pos_nonneg; lia).
  assert (0 < 2 ^ (ey - ez))%Z by (apply Z.pow_pos_nonneg; lia).
  assert (2 ^ 52 <= Z.pos (a + b))%Z as Hab by (rewrite Pos2Z.inj_add; nia).
  assert (52 <= Z.log2 (Z.pos (a + b)))%Z as Hlog
    by (apply Z.log2_le_pow2; lia).
  assert (shl_align (a + b) ez
            (fexp 53 1024 (Z.pos (digits2_pos (a + b)) + ez)) = ((a + b)%positive, ez))
    as ->.
  { unfold shl_align. rewrite Zpos_digits. unfold fexp, emin.
    destruct (Z.max (Z.log2 (Z.pos (a + b)) + 1 + ez - 53) (3 - 1024 - 53) - ez)%Z
      eqn:Hd; try reflexivity. lia. }
  assert (IZR (Z.pos (a + b)) * bpow ez = val mx ex + val my ey) as Hval.
  { rewrite Pos2Z.inj_add, plus_IZR, Hx, Hy, Rmult_plus_distr_r.
    rewrite <- (val_shift mx ex (ex - ez)), <- (val_shift my ey (ey - ez)) by lia.
    do 2 f_equal; f_equal; lia. }
  apply round_normal.
  - exact Hab.
  - rewrite Hval. pose proof (val_bounds mx ex (conj Hmx Hex)) as [Hb _].
    pose proof (val_pos my ey).
    eapply Rle_trans; [apply (bpow_le _ (52 + ex)); lia|]. lra.
  - rewrite Hval. eapply Rle_lt_trans; [exact Hhi|]. apply bpow_lt. lia.
  - rewrite plus_IZR, Hval. pose proof (bpow_pos ez). split; nra.
Qed.

(** Square root of a positive normal number. *)
Lemma b64_sqrt_rnd (mx : positive) (ex : Z) :
  normal_me mx ex ->
  exists (m : positive) (e : Z),
    SFsqrt 53 1024 (S754_finite false mx ex) = S754_finite false m e /\
    normal_me m e /\ rnd (val m e) (sqrt (val mx ex)).
Proof.
  intros Hn. pose proof (normal_digits mx ex Hn) as Hlog.
  destruct Hn as [Hmx Hex]. cbn [SFsqrt]. unfold SFsqrt_core_binary.
  cbn [Zdigits2]. rewrite Zpos_digits, Hlog.
  set (h := Z.div2 ex).
  assert (ex = 2 * h + (ex - 2 * h) /\ 0 <= ex - 2 * h <= 1)%Z as [Hh Hr].
  { unfold h. rewrite Z.div2_div. Z.div_mod_to_equations. lia. }
  assert (Z.div2 (52 + 1 + ex + 1) = h + 27)%Z as ->.
  { unfold h. rewrite !Z.div2_div. Z.div_mod_to_equations. lia. }
  assert (Z.min (fexp 53 1024 (h + 27)) h = h - 26)%Z as ->
    by (unfold fexp, emin; lia).
  set (s := (ex - 2 * (h - 26))%Z).
  assert (52 <= s <= 53)%Z as Hs by (unfold s; lia).
  assert (match s with
          | Z.pos _ => Z.shiftl (Z.pos mx) s
          | 0%Z => Z.pos mx
          | Z.neg _ => 0%Z
          end = Z.pos mx * 2 ^ s)%Z as ->.
  { destruct s; try lia. apply Z.shiftl_mul_pow2. lia. }
  assert (0 < 2 ^ s)%Z as Hp by (apply Z.pow_pos_nonneg; lia).
  assert (2 ^ 52 <= 2 ^ s <= 2 ^ 53)%Z as Hps
    by (split; apply Z.pow_le_mono_r; lia).
  set (m' := (Z.pos mx * 2 ^ s)%Z) in *.
  assert (2 ^ 104 <= m' < 2 ^ 106)%Z as Hm' by (unfold m'; nia).
  pose proof (Z.sqrtrem_spec m' ltac:(lia)) as Hspec.
  destruct (Z.sqrtrem m') as [q r]. destruct Hspec as [Hq Hrem].
  assert (2 ^ 52 <= q < 2 ^ 53)%Z as Hq52 by nia.
  assert (val mx ex = IZR m' * (bpow (h - 26) * bpow (h - 26))) as Hval.
  { rewrite <- bpow_add. unfold m'.
    rewrite <- (val_shift mx ex s) by lia. do 2 f_equal. unfold s. lia. }
  pose proof (bpow_pos (h - 26)) as HP.
  assert (bpow (26 + h) <= IZR q * bpow (h - 26) < bpow (27 + h)) as Hmag.
  { replace (26 + h)%Z with (52 + (h - 26))%Z by lia.
    replace (27 + h)%Z with (53 + (h - 26))%Z by lia.
    rewrite !bpow_add, (bpow_IZR 52), (bpow_IZR 53) by lia.
    destruct Hq52 as [H1 H2]. apply IZR_le in H1. apply IZR_lt in H2.
    split; nra. }
  apply round_normal.
  - lia.
  - eapply Rle_trans; [|apply Hmag]. apply bpow_le. lia.
  - eapply Rlt_le_trans; [apply Hmag|]. apply bpow_le. lia.
  - rewrite Hval. set (P := bpow (h - 26)) in *.
    assert (IZR q * IZR q <= IZR m' <= IZR (q + 1) * IZR (q + 1)) as [Hl Hu].
    { rewrite <- !mult_IZR. split; apply IZR_le; nia. }
    assert (0 <= IZR q) as Hq0 by (apply IZR_le; lia).
    assert (0 <= IZR (q + 1)) as Hq1 by (apply IZR_le; lia).
    clearbody P. split.
    + rewrite <- (sqrt_square (IZR q * P)) by nra.
      apply sqrt_le_1_alt. nra.
    + rewrite <- (sqrt_square (IZR (q + 1) * P)) by nra.
      apply sqrt_le_1_alt. nra.
Qed.

(** Quotient of two normal numbers. *)
Lemma b64_div_rnd (sx : bool) (mx : positive) (ex : Z)
    (sy : bool) (my : positive) (ey : Z) :
  normal_me mx ex -> normal_me my ey ->
  bpow (-1000) <= val mx ex / val my ey <= bpow 1000 ->
  exists (m : positive) (e : Z),
    SFdiv 53 1024 (S754_finite sx mx ex) (S754_finite sy my ey) =
      S754_finite (xorb sx sy) m e /\
    normal_me m e /\ rnd (val m e) (val mx ex / val my ey).
Proof.
  intros Hnx Hny [Hlo Hhi].
  pose proof (normal_digits mx ex Hnx) as Hlx.
  pose proof (normal_digits my ey Hny) as Hly.
  pose proof (val_bounds mx ex Hnx) as [Hxl Hxu].
  pose proof (val_bounds my ey Hny) as [Hyl Hyu].
  pose proof (val_pos mx ex) as Hxp. pose proof (val_pos my ey) as Hyp.
  destruct Hnx as [Hmx Hex], Hny as [Hmy Hey].
  (* the exponents differ by at most 1000 *)
  assert (val mx ex = (val mx ex / val my ey) * val my ey) as Hratio
    by (field; lra).
  assert (-1001 <= ex - ey <= 1001)%Z as Hd.
  { split.
    - assert (-1000 < 1 + (ex - ey))%Z; [|lia]. apply bpow_lt_inv.
      eapply Rle_lt_trans; [exact Hlo|].
      apply (Rmult_lt_reg_r (val my ey)); [done|]. rewrite <- Hratio.
      eapply Rlt_le_trans; [exact Hxu|].
      replace (53 + ex)%Z with (1 + (ex - ey) + (52 + ey))%Z by lia.
      rewrite (bpow_add (1 + (ex - ey))).
      apply Rmult_le_compat_l; [apply Rlt_le, bpow_pos|exact Hyl].
    - assert (ex - ey - 1 < 1000)%Z; [|lia]. apply bpow_lt_inv.
      eapply Rlt_le_trans; [|exact Hhi].
      apply (Rmult_lt_reg_r (val my ey)); [done|]. rewrite <- Hratio.
      eapply Rlt_le_trans; [|exact Hxl].
      replace (52 + ex)%Z with ((ex - ey - 1) + (53 + ey))%Z by lia.
      rewrite (bpow_add (ex - ey - 1)).
      apply Rmult_lt_compat_l; [apply bpow_pos|exact Hyu]. }
  cbn [SFdiv]. unfold SFdiv_core_binary. cbn [Zdigits2].
  rewrite !Zpos_digits, Hlx, Hly.
  assert (Z.min (fexp 53 1024 (52 + 1 + ex - (52 + 1 + ey))) (ex - ey)
          = ex - ey - 53)%Z as -> by (unfold fexp, emin; lia).
  replace (ex - ey - (ex - ey - 53))%Z with 53%Z by lia.
  rewrite Z.shiftl_mul_pow2 by lia.
  set (m' := (Z.pos mx * 2 ^ 53)%Z).
  pose proof (Z_div_mod m' (Z.pos my) ltac:(lia)) as Hspec.
  destruct (Z.div_eucl m' (Z.pos my)) as [q r]. destruct Hspec as [Hq Hr].
  assert (2 ^ 52 <= q < 2 ^ 54)%Z as Hq52 by (unfold m' in Hq; nia).
  set (E := (ex - ey - 53)%Z).
  assert (val mx ex / val my ey = IZR m' / IZR (Z.pos my) * bpow E) as Hval.
  { unfold val, m', E. rewrite mult_IZR, <- (bpow_IZR 53) by lia.
    replace ex with ((ex - ey - 53) + 53 + ey)%Z at 1 by lia.
    rewrite !bpow_add. field.
    repeat split; first [apply Rgt_not_eq, bpow_pos | apply not_0_IZR; lia]. }
  pose proof (bpow_pos E) as HP.
  assert (0 < IZR (Z.pos my)) as Hmy0 by (apply IZR_lt; lia).
  assert (IZR q <= IZR m' / IZR (Z.pos my) <= IZR (q + 1)) as [Hbl Hbu].
  { split.
    - apply (Rmult_le_reg_r (IZR (Z.pos my))); [done|].
      replace (IZR m' / IZR (Z.pos my) * IZR (Z.pos my)) with (IZR m')
        by (field; lra).
      rewrite <- mult_IZR. apply IZR_le. nia.
    - apply (Rmult_le_reg_r (IZR (Z.pos my))); [done|].
      replace (IZR m' / IZR (Z.pos my) * IZR (Z.pos my)) with (IZR m')
        by (field; lra).
      rewrite <- mult_IZR. apply IZR_le. nia. }
  apply round_normal.
  - lia.
  - apply Rle_trans with (bpow (52 + E)); [apply bpow_le; unfold E; lia|].
    rewrite bpow_add, (bpow_IZR 52) by lia.
    apply Rmult_le_compat_r; [lra|]. apply IZR_le. lia.
  - apply Rlt_le_trans with (bpow (54 + E)); [|apply bpow_le; unfold E; lia].
    rewrite bpow_add, (bpow_IZR 54) by lia.
    apply Rmult_lt_compat_r; [lra|]. apply IZR_lt. lia.
  - rewrite Hval. split; apply Rmult_le_compat_r; lra.
Qed.
End Operations.

(** *** Accumulated rounding errors *)

Section Approx.
Local Open Scope R_scope.

Lemma growth_ge_1 : 1 <= growth.
Proof.
  unfold growth. pose proof unit_roundoff_pos. pose proof unit_roundoff_small.
  rewrite <- Rinv_1 at 1. apply Rinv_le_contravar; lra.
Qed.

Lemma growth_inv : growth * (1 - unit_roundoff) = 1.
Proof. unfold growth. pose proof unit_roundoff_small. field. lra. Qed.

Lemma growth_pow_ge_1 (k : nat) : 1 <= growth ^ k.
Proof. apply pow_R1_Rle, growth_ge_1. Qed.

Lemma growth_pow_mono (j k : nat) : (j <= k)%nat -> growth ^ j <= growth ^ k.
Proof. apply Rle_pow, growth_ge_1. Qed.

Lemma growth_pow_add (j k : nat) : growth ^ (j + k) = growth ^ j * growth ^ k.
Proof. apply pow_add. Qed.

Lemma approx_nonneg (k : nat) (r x : R) : approx k r x -> 0 <= r.
Proof.
  intros (Hx & Hl & _). pose proof (growth_pow_ge_1 k).
  destruct (Rle_or_lt 0 r); [done|]. exfalso. nra.
Qed.

Lemma approx_refl (x : R) : 0 <= x -> approx 0 x x.
Proof. intros Hx. unfold approx. cbn [Rpow_def.pow]. lra. Qed.

Lemma approx_weaken (j k : nat) (r x : R) :
  (j <= k)%nat -> approx j r x -> approx k r x.
Proof.
  intros Hjk Ha. pose proof (approx_nonneg _ _ _ Ha) as Hr.
  destruct Ha as (Hx & Hl & Hu). pose proof (growth_pow_mono j k Hjk).
  pose proof (growth_pow_ge_1 j). repeat split; [done|nra|nra].
Qed.

Lemma approx_trans (j k : nat) (r y x : R) :
  approx j r y -> approx k y x -> approx (j + k) r x.
Proof.
  intros Ha1 Ha2. pose proof (approx_nonneg _ _ _ Ha1) as Hr.
  destruct Ha1 as (Hy & Hl1 & Hu1), Ha2 as (Hx & Hl2 & Hu2).
  pose proof (growth_pow_ge_1 j). pose proof (growth_pow_ge_1 k).
  unfold approx. rewrite growth_pow_add. repeat split; [done| |].
  - apply Rle_trans with (y * growth ^ k); [done|].
    apply Rle_trans with (r * growth ^ j * growth ^ k); [nra|lra].
  - apply Rle_trans with (y * growth ^ j); [done|].
    apply Rle_trans with (x * growth ^ k * growth ^ j); [nra|lra].
Qed.

Lemma approx_rnd (r x : R) : 0 <= r -> rnd r x -> approx 1 r x.
Proof.
  intros Hr [Hl Hu]. pose proof unit_roundoff_pos. pose proof unit_roundoff_small.
  pose proof growth_inv as Hg. pose proof growth_ge_1.
  unfold approx. rewrite pow_1. repeat split; [nra| |].
  - apply Rle_trans with (r * (1 + unit_roundoff)); [done|].
    apply Rmult_le_compat_l; [done|].
    assert ((1 + unit_roundoff) * (1 - unit_roundoff) <= growth * (1 - unit_roundoff)); [rewrite Hg; nra|].
    apply (Rmult_le_reg_r (1 - unit_roundoff)); lra.
  - apply Rle_trans with (r * (1 - unit_roundoff) * growth); [|nra].
    rewrite Rmult_assoc, (Rmult_comm (1 - unit_roundoff)), Hg. lra.
Qed.

Lemma approx_step (k : nat) (r y x : R) :
  0 <= r -> rnd r y -> approx k y x -> approx (S k) r x.
Proof.
  intros Hr Hrnd Ha. change (S k) with (1 + k)%nat.
  eapply approx_trans; [by apply approx_rnd|done].
Qed.

Lemma approx_add (k : nat) (r1 x1 r2 x2 : R) :
  approx k r1 x1 -> approx k r2 x2 -> approx k (r1 + r2) (x1 + x2).
Proof. intros (? & ? & ?) (? & ? & ?). repeat split; lra. Qed.

Lemma approx_mul (j k : nat) (r1 x1 r2 x2 : R) :
  approx j r1 x1 -> approx k r2 x2 -> approx (j + k) (r1 * r2) (x1 * x2).
Proof.
  intros Ha1 Ha2.
  pose proof (approx_nonneg _ _ _ Ha1). pose proof (approx_nonneg _ _ _ Ha2).
  destruct Ha1 as (? & ? & ?), Ha2 as (? & ? & ?).
  pose proof (growth_pow_ge_1 j). pose proof (growth_pow_ge_1 k).
  unfold approx. rewrite growth_pow_add. repeat split; [nra| |].
  - apply Rle_trans with ((r1 * growth ^ j) * (r2 * growth ^ k)); [|lra].
    apply Rmult_le_compat; lra.
  - apply Rle_trans with ((x1 * growth ^ j) * (x2 * growth ^ k)); [|lra].
    apply Rmult_le_compat; lra.
Qed.

Lemma approx_inv (k : nat) (r x : R) :
  0 < x -> approx k r x -> 0 < r /\ approx k (/ r) (/ x).
Proof.
  intros Hx (_ & Hl & Hu). pose proof (growth_pow_ge_1 k) as Hg.
  assert (0 < r) as Hr.
  { destruct (Rle_or_lt r 0); [|done]. exfalso. nra. }
  split; [done|].
  assert (0 < / r) by (by apply Rinv_0_lt_compat).
  assert (0 < / x) by (by apply Rinv_0_lt_compat).
  repeat split; [lra| |].
  - apply (Rmult_le_reg_r (x * r)); [nra|].
    replace (/ x * (x * r)) with r by (field; lra).
    replace (/ r * growth ^ k * (x * r)) with (x * growth ^ k) by (field; lra).
    done.
  - apply (Rmult_le_reg_r (x * r)); [nra|].
    replace (/ r * (x * r)) with x by (field; lra).
    replace (/ x * growth ^ k * (x * r)) with (r * growth ^ k) by (field; lra).
    done.
Qed.

Lemma approx_div (j k : nat) (r1 x1 r2 x2 : R) :
  0 < x2 -> approx j r1 x1 -> approx k r2 x2 ->
  approx (j + k) (r1 / r2) (x1 / x2).
Proof.
  intros Hx2 Ha1 Ha2. destruct (approx_inv _ _ _ Hx2 Ha2) as [_ Hi].
  by apply approx_mul.
Qed.

Lemma sqrt_le_self (y : R) : 1 <= y -> sqrt y <= y.
Proof.
  intros Hy. rewrite <- (sqrt_square y) at 2 by lra.
  apply sqrt_le_1_alt. nra.
Qed.

Lemma approx_sqrt (k : nat) (r x : R) :
  approx k r x -> approx k (sqrt r) (sqrt x).
Proof.
  intros Ha. pose proof (approx_nonneg _ _ _ Ha) as Hr.
  destruct Ha as (Hx & Hl & Hu). pose proof (growth_pow_ge_1 k) as Hg.
  pose proof (sqrt_le_self _ Hg) as Hs.
  pose proof (sqrt_pos r). pose proof (sqrt_pos x).
  repeat split; [done| |].
  - apply Rle_trans with (sqrt (r * growth ^ k)); [by apply sqrt_le_1_alt|].
    rewrite sqrt_mult by lra. by apply Rmult_le_compat_l.
  - apply Rle_trans with (sqrt (x * growth ^ k)); [by apply sqrt_le_1_alt|].
    rewrite sqrt_mult by lra. by apply Rmult_le_compat_l.
Qed.

(** Bernoulli's inequality bounds the growth after [k] roundings. *)
Lemma bernoulli (k : nat) : 1 - INR k * unit_roundoff <= (1 - unit_roundoff) ^ k.
Proof.
  pose proof unit_roundoff_pos. pose proof unit_roundoff_small.
  induction k as [|k IH]; [cbn; lra|].
  rewrite S_INR. cbn [Rpow_def.pow].
  assert (0 <= INR k) as Hk by apply pos_INR.
  apply Rle_trans with ((1 - unit_roundoff) * (1 - INR k * unit_roundoff));
    [|apply Rmult_le_compat_l; lra].
  assert (0 <= INR k * (unit_roundoff * unit_roundoff)) by (apply Rmult_le_pos; nra).
  lra.
Qed.

Lemma growth_pow_inv (k : nat) : growth ^ k * (1 - unit_roundoff) ^ k = 1.
Proof. rewrite <- Rpow_mult_distr, growth_inv. apply pow1. Qed.

Lemma growth_pow_bound (k : nat) :
  INR k * unit_roundoff <= / 2 -> growth ^ k <= 1 + 2 * INR k * unit_roundoff.
Proof.
  intros Hk. pose proof (bernoulli k) as Hb.
  pose proof (growth_pow_inv k) as Hi. pose proof (growth_pow_ge_1 k).
  assert (0 <= INR k) by apply pos_INR. pose proof unit_roundoff_pos.
  assert (0 < (1 - unit_roundoff) ^ k) by (apply pow_lt; pose proof unit_roundoff_small; lra).
  assert (growth ^ k * (1 - INR k * unit_roundoff) <= 1) by nra.
  nra.
Qed.

Lemma growth_pow_le_2 (k : nat) : INR k * unit_roundoff <= / 2 -> growth ^ k <= 2.
Proof. intros Hk. pose proof (growth_pow_bound k Hk). lra. Qed.

(** What an approximation of 1 after [k] roundings is worth. *)
Lemma approx_one (k : nat) (r : R) :
  INR k * unit_roundoff <= / 2 -> approx k r 1 -> Rabs (r - 1) <= 2 * INR k * unit_roundoff.
Proof.
  intros Hk (_ & Hl & Hu). pose proof (growth_pow_bound k Hk) as Hg.
  pose proof (bernoulli k) as Hb. pose proof (growth_pow_inv k) as Hi.
  pose proof (growth_pow_ge_1 k). assert (0 <= INR k) by apply pos_INR.
  pose proof unit_roundoff_pos.
  assert (0 < (1 - unit_roundoff) ^ k) by (apply pow_lt; pose proof unit_roundoff_small; lra).
  assert ((1 - unit_roundoff) ^ k <= r) by nra.
  apply Rabs_le. lra.
Qed.

Lemma approx_bounds (k : nat) (r x : R) :
  INR k * unit_roundoff <= / 2 -> approx k r x -> x / 2 <= r <= 2 * x.
Proof.
  intros Hk Ha. pose proof (approx_nonneg _ _ _ Ha).
  destruct Ha as (Hx & Hl & Hu). pose proof (growth_pow_le_2 k Hk).
  pose proof (growth_pow_ge_1 k). split; nra.
Qed.
End Approx.

(** *** Squares, sums and quotients of binary64 numbers *)

Section Steps.
Local Open Scope R_scope.

Lemma B2R_square (s : bool) (m : positive) (e : Z) :
  B2R (S754_finite s m e) * B2R (S754_finite s m e) = val m e * val m e.
Proof.
  cbn [B2R]. unfold val. destruct s; cbn [cond_Zopp]; [|reflexivity].
  rewrite opp_IZR. ring.
Qed.

Lemma B2R_nonneg_normal (x : binary64) : nonneg_normal x -> 0 <= B2R x.
Proof.
  destruct x as [s| | |s m e]; cbn [nonneg_normal B2R]; try done;
    try (intros; lra).
  intros [-> _]. cbn [cond_Zopp]. apply Rlt_le, val_pos.
Qed.

Lemma nonneg_normal_positive (x : binary64) :
  nonneg_normal x -> 0 < B2R x ->
  exists m e, x = S754_finite false m e /\ normal_me m e /\ B2R x = val m e.
Proof.
  destruct x as [s| | |s m e]; cbn [nonneg_normal B2R]; try done;
    try (intros; lra).
  intros [-> Hn] _. by exists m, e.
Qed.

(** The square of a number that is zero or of moderate size. *)
Lemma b64_square_spec (x : binary64) :
  zero_or_normal x ->
  B2R x = 0 \/ bpow (-500) <= Rabs (B2R x) <= bpow 500 ->
  nonneg_normal (smul x x) /\ approx 1 (B2R (smul x x)) (B2R x * B2R x).
Proof.
  destruct x as [s| | |s m e]; cbn [zero_or_normal]; try done.
  - intros _ _. split; [by destruct s|].
    cbn. rewrite Rmult_0_l. apply (approx_weaken 0); [lia|].
    apply approx_refl. lra.
  - intros Hn Hmag. pose proof (val_pos m e) as Hv.
    rewrite B2R_abs in Hmag.
    destruct Hmag as [Hz|[Hlo Hhi]].
    { exfalso. pose proof (B2R_abs s m e) as Ha. rewrite Hz, Rabs_R0 in Ha. lra. }
    destruct (b64_mul_rnd s m e s m e Hn Hn) as (m' & e' & Hr & Hn' & Hrnd).
    { pose proof (bpow_pos (-500)). pose proof (bpow_pos 500).
      change (-1000)%Z with (-500 + -500)%Z.
      change 1000%Z with (500 + 500)%Z. rewrite !bpow_add. split; nra. }
    cbn [smul b64_scalar]. rewrite Hr, xorb_nilpotent, B2R_square.
    split; [done|]. cbn [B2R cond_Zopp]. fold (val m' e').
    apply approx_rnd; [apply Rlt_le, val_pos|exact Hrnd].
Qed.

(** The sum of two numbers that are zero or positive. *)
Lemma b64_sum_spec (x y : binary64) :
  nonneg_normal x -> nonneg_normal y ->
  B2R x + B2R y <= bpow 1000 ->
  nonneg_normal (sadd x y) /\ rnd (B2R (sadd x y)) (B2R x + B2R y).
Proof.
  destruct x as [sx| | |sx mx ex], y as [sy| | |sy my ey];
    cbn [nonneg_normal]; try done.
  - intros -> -> _. split; [done|]. cbn. rewrite Rplus_0_l. apply rnd_refl. lra.
  - intros -> [-> Hn] _. split; [done|].
    cbn [sadd b64_scalar SFadd B2R cond_Zopp]. rewrite Rplus_0_l.
    apply rnd_refl, Rlt_le, val_pos.
  - intros [-> Hn] -> _. split; [done|].
    cbn [sadd b64_scalar SFadd B2R cond_Zopp]. rewrite Rplus_0_r.
    apply rnd_refl, Rlt_le, val_pos.
  - intros [-> Hnx] [-> Hny] Hhi. cbn [B2R cond_Zopp] in Hhi |- *.
    fold (val mx ex) (val my ey) in Hhi |- *.
    destruct (b64_add_rnd mx ex my ey Hnx Hny Hhi) as (m & e & Hr & Hn & Hrnd).
    cbn [sadd b64_scalar]. rewrite Hr. split; [done|]. exact Hrnd.
Qed.

Lemma Rsum_cons (X : R) (Xs : list R) : Rsum (X :: Xs) = X + Rsum Xs.
Proof. reflexivity. Qed.

Lemma Rsum_nonneg_list (Xs : list R) :
  Forall (fun X => 0 <= X) Xs -> 0 <= Rsum Xs.
Proof.
  induction 1 as [|X Xs HX _ IH]; [cbn; lra|]. rewrite Rsum_cons. lra.
Qed.

(** A sum accumulated from the left. *)
Lemma fold_sum_spec (k : nat) (ts : list binary64) (Xs : list R) :
  Forall2 (fun t X => nonneg_normal t /\ approx k (B2R t) X) ts Xs ->
  forall (acc : binary64) (Xacc : R) (j : nat),
    nonneg_normal acc -> approx j (B2R acc) Xacc -> (k <= j)%nat ->
    (Xacc + Rsum Xs) * growth ^ (j + length ts) <= bpow 1000 ->
    nonneg_normal (fold_left sadd ts acc) /\
    approx (j + length ts) (B2R (fold_left sadd ts acc)) (Xacc + Rsum Xs).
Proof.
  induction 1 as [|t X ts Xs [Hnt Hat] Hrest IH];
    intros acc Xacc j Hnacc Haacc Hkj Hbound.
  - cbn [fold_left length]. rewrite Nat.add_0_r.
    replace (Xacc + Rsum []) with Xacc by (cbn; lra). done.
  - cbn [fold_left length] in *. rewrite Rsum_cons in *.
    assert (0 <= Rsum Xs) as Hs.
    { apply Rsum_nonneg_list. eapply Forall2_Forall_r; [exact Hrest|].
      apply Forall_forall. intros X' _ t' [_ (HX' & _)]. exact HX'. }
    pose proof (approx_weaken k j _ _ Hkj Hat) as Hat'.
    pose proof (approx_add j _ _ _ _ Haacc Hat') as Hadd.
    pose proof (growth_pow_ge_1 j) as Hgj.
    pose proof (growth_pow_mono j (j + S (length ts)) ltac:(lia)) as Hmono.
    destruct Hadd as (Hx0 & _ & Hup). 
    assert (B2R acc + B2R t <= bpow 1000) as Hhi.
    { eapply Rle_trans; [exact Hup|]. eapply Rle_trans; [|exact Hbound].
      apply Rle_trans with ((Xacc + (X + Rsum Xs)) * growth ^ j).
      - apply Rmult_le_compat_r; lra.
      - apply Rmult_le_compat_l; lra. }
    destruct (b64_sum_spec acc t Hnacc Hnt Hhi) as [Hn' Hrnd].
    assert (approx (S j) (B2R (sadd acc t)) (Xacc + X)) as Ha'.
    { eapply approx_step; [by apply B2R_nonneg_normal|exact Hrnd|].
      by apply approx_add. }
    replace (j + S (length ts))%nat with (S j + length ts)%nat in * by lia.
    replace (Xacc + (X + Rsum Xs)) with (Xacc + X + Rsum Xs) in * by lra.
    apply IH; [done|done|lia|done].
Qed.
End Steps.

Section Pipeline.
Local Open Scope R_scope.

Lemma squaredNorm_spec (k : nat) (w : list binary64) (Xs : list R) :
  w <> [] ->
  Forall2 (fun x X =>
             zero_or_normal x /\
             (B2R x = 0 \/ bpow (-500) <= Rabs (B2R x) <= bpow 500) /\
             approx k (B2R x * B2R x) X) w Xs ->
  Rsum Xs * growth ^ (k + length w) <= bpow 1000 ->
  nonneg_normal (Eigen.squaredNorm w) /\
  approx (k + length w) (B2R (Eigen.squaredNorm w)) (Rsum Xs).
Proof.
  intros Hne Hall Hbound.
  destruct Hall as [|x X xs Xs' (Hzn & Hmag & Hax) Hrest]; [done|].
  unfold Eigen.squaredNorm, Eigen.sum, Eigen.redux. cbn [map].
  destruct (b64_square_spec x Hzn Hmag) as [Hn Ha].
  cbn [length] in *. rewrite Rsum_cons in *.
  replace (k + S (length xs))%nat
    with (S k + length (map (fun x0 : binary64 => smul x0 x0) xs))%nat in *
    by (rewrite length_map; lia).
  apply (fold_sum_spec (S k)); [|done| |lia|done].
  - apply Forall2_fmap_l. eapply Forall2_impl; [exact Hrest|].
    intros y Y (Hy1 & Hy2 & Hy3). cbn.
    destruct (b64_square_spec y Hy1 Hy2) as [Hny Hay].
    split; [done|]. change (S k) with (1 + k)%nat.
    by eapply approx_trans.
  - change (S k) with (1 + k)%nat. by eapply approx_trans.
Qed.

Lemma b64_quot_spec (x : binary64) (my : positive) (ey : Z) :
  zero_or_normal x -> normal_me my ey ->
  B2R x = 0 \/ bpow (-1000) <= Rabs (B2R x) / val my ey <= bpow 1000 ->
  zero_or_normal (sdiv x (S754_finite false my ey)) /\
  rnd (Rabs (B2R (sdiv x (S754_finite false my ey))))
      (Rabs (B2R x) / val my ey).
Proof.
  destruct x as [s| | |s m e]; cbn [zero_or_normal]; try done.
  - intros _ _ _. split; [done|]. cbn. rewrite Rabs_R0.
    unfold Rdiv. rewrite Rmult_0_l. apply rnd_refl. lra.
  - intros Hnx Hny Hmag. pose proof (val_pos m e) as Hv.
    rewrite B2R_abs in Hmag |- *.
    destruct Hmag as [Hz|Hmag].
    { exfalso. pose proof (B2R_abs s m e) as Ha. rewrite Hz, Rabs_R0 in Ha. lra. }
    destruct (b64_div_rnd s m e false my ey Hnx Hny Hmag)
      as (m' & e' & Hr & Hn' & Hrnd).
    cbn [sdiv b64_scalar]. rewrite Hr. split; [done|].
    by rewrite B2R_abs.
Qed.

Lemma moderate_spec (x : binary64) :
  b64_moderate x = true ->
  zero_or_normal x /\
  (B2R x = 0 \/ bpow (-200) <= Rabs (B2R x) <= bpow 200).
Proof.
  destruct x as [s| | |s m e]; cbn [b64_moderate zero_or_normal]; try done.
  - intros _. split; [done|]. by left.
  - intros H. repeat (apply andb_prop in H as [H ?]).
    assert (normal_me m e) as Hn by (unfold normal_me; lia).
    split; [done|]. right. rewrite B2R_abs.
    destruct (val_bounds m e Hn) as [Hlo Hhi]. split.
    + eapply Rle_trans; [|exact Hlo]. apply bpow_le. lia.
    + eapply Rle_trans; [apply Rlt_le; exact Hhi|]. apply bpow_le. lia.
Qed.

Lemma nonzero_spec (x : binary64) :
  b64_moderate x = true -> b64_nonzero x = true -> B2R x <> 0.
Proof.
  destruct x as [s| | |s m e]; try done. intros _ _ Hz.
  pose proof (B2R_abs s m e) as Ha. rewrite Hz, Rabs_R0 in Ha.
  pose proof (val_pos m e). lra.
Qed.

Lemma sqrt_bpow (a : Z) : sqrt (bpow (a + a)) = bpow a.
Proof. rewrite bpow_add. apply sqrt_square, Rlt_le, bpow_pos. Qed.

Lemma few_roundings (k : nat) : (Z.of_nat k <= 2 ^ 22)%Z -> INR k * unit_roundoff <= / 2.
Proof.
  intros Hk. apply IZR_le in Hk. rewrite <- INR_IZR_INZ in Hk.
  rewrite <- (bpow_IZR 22) in Hk by lia.
  pose proof unit_roundoff_pos. apply Rle_trans with (bpow 22 * unit_roundoff); [nra|].
  unfold unit_roundoff. rewrite <- bpow_add.
  apply Rle_trans with (bpow (-1)); [apply bpow_le; lia|].
  unfold bpow. simpl. lra.
Qed.
End Pipeline.

(** *** The default normalization *)

Section Sums.
Local Open Scope R_scope.

Lemma square_abs (x : R) : x * x = Rabs x * Rabs x.
Proof. rewrite <- Rabs_mult. symmetry. apply Rabs_right. nra. Qed.

Lemma Rsum_le_const {A} (f : A -> R) (c : R) (l : list A) :
  Forall (fun x => f x <= c) l -> Rsum (map f l) <= INR (length l) * c.
Proof.
  induction 1 as [|x l Hx _ IH]; [cbn; lra|].
  cbn [map length]. rewrite Rsum_cons, S_INR. lra.
Qed.

Lemma Rsum_ge_elem {A} (f : A -> R) (l : list A) (x : A) :
  Forall (fun y => 0 <= f y) l -> x ∈ l -> f x <= Rsum (map f l).
Proof.
  induction 1 as [|y l Hy Hl IH]; [by intros ?%elem_of_nil|].
  cbn [map]. rewrite Rsum_cons.
  assert (0 <= Rsum (map f l)) as Hs.
  { apply Rsum_nonneg_list. by apply Forall_map. }
  intros [->|Hin]%elem_of_cons; [lra|]. specialize (IH Hin). lra.
Qed.

Lemma Rsum_map_quotient {A} (f : A -> R) (c : R) (l : list A) :
  Rsum (map (fun x => f x / c) l) = Rsum (map f l) / c.
Proof.
  induction l as [|x l IH]; [cbn; lra|].
  cbn [map]. rewrite !Rsum_cons, IH. unfold Rdiv. lra.
Qed.
End Sums.

Section Quotients.
Local Open Scope R_scope.

Lemma div_bounds (x y lo hi ylo yhi : R) :
  0 < ylo -> ylo <= y <= yhi -> lo <= x <= hi -> 0 <= lo ->
  lo / yhi <= x / y <= hi / ylo.
Proof.
  intros Hy0 [Hy1 Hy2] [Hx1 Hx2] Hlo0.
  assert (0 < y) by lra. assert (0 < yhi) by lra.
  assert (0 < / y) by (by apply Rinv_0_lt_compat).
  assert (/ yhi <= / y) by (apply Rinv_le_contravar; lra).
  assert (/ y <= / ylo) by (apply Rinv_le_contravar; lra).
  assert (0 < / yhi) by (by apply Rinv_0_lt_compat).
  unfold Rdiv. split.
  - apply Rle_trans with (lo * / y); [apply Rmult_le_compat_l; lra|].
    apply Rmult_le_compat_r; lra.
  - apply Rle_trans with (hi * / y); [apply Rmult_le_compat_r; lra|].
    apply Rmult_le_compat_l; lra.
Qed.

Lemma bpow_div (a b : Z) : bpow a / bpow b = bpow (a - b).
Proof.
  unfold Rdiv. rewrite <- bpow_opp, <- bpow_add. f_equal. 
Qed.

Lemma bpow_1 : bpow 1 = 2.
Proof. unfold bpow. simpl. lra. Qed.

(** An element of moderate size divided by a computed divisor that
    approximates [D]. *)
Lemma quotient_spec (k : nat) (D : R) (m : positive) (e : Z) (x : binary64) :
  normal_me m e -> approx k (val m e) D ->
  bpow (-200) <= D <= bpow 220 -> (Z.of_nat k <= 2 ^ 21)%Z ->
  b64_moderate x = true ->
  zero_or_normal (sdiv x (S754_finite false m e)) /\
  (B2R (sdiv x (S754_finite false m e)) = 0 \/
   bpow (-500) <= Rabs (B2R (sdiv x (S754_finite false m e))) <= bpow 500) /\
  approx (S k) (Rabs (B2R (sdiv x (S754_finite false m e))))
         (Rabs (B2R x) / D).
Proof.
  intros Hn Ha [HDlo HDhi] Hk Hx.
  pose proof (bpow_pos (-200)) as Hp200.
  assert (0 < D) as HD by lra.
  pose proof (approx_bounds _ _ _ (few_roundings k ltac:(lia)) Ha)
    as [Hvlo Hvhi].
  assert (bpow (-201) <= val m e <= bpow 221) as Hv.
  { replace (bpow (-201)) with (bpow (-200) / 2)
      by (rewrite <- bpow_1, bpow_div; f_equal).
    replace (bpow 221) with (2 * bpow 220)
      by (rewrite <- bpow_1, <- bpow_add; f_equal).
    lra. }
  pose proof (bpow_pos (-201)) as Hp201.
  destruct (moderate_spec x Hx) as [Hzn Hmag].
  set (q := sdiv x (S754_finite false m e)).
  destruct (b64_quot_spec x m e Hzn Hn) as [Hznq Hrnd].
  { destruct Hmag as [?|Hmag]; [by left|right].
    destruct (div_bounds (Rabs (B2R x)) (val m e) (bpow (-200)) (bpow 200)
                (bpow (-201)) (bpow 221)) as [Hl Hu]; try lra.
    rewrite bpow_div in Hl, Hu. split.
    - eapply Rle_trans; [|exact Hl]. apply bpow_le. lia.
    - eapply Rle_trans; [exact Hu|]. apply bpow_le. lia. }
  fold q in Hznq, Hrnd.
  assert (approx (S k) (Rabs (B2R q)) (Rabs (B2R x) / D)) as Haq.
  { eapply approx_step; [apply Rabs_pos|exact Hrnd|].
    apply (approx_div 0 k); [done| |done].
    apply approx_refl, Rabs_pos. }
  split; [done|]. split; [|done].
  destruct Hmag as [Hz|Hmag].
  - left. destruct Haq as (_ & _ & Hu).
    rewrite Hz, Rabs_R0 in Hu. unfold Rdiv in Hu. rewrite !Rmult_0_l in Hu.
    pose proof (Rabs_pos (B2R q)).
    destruct (Req_dec (B2R q) 0) as [|Hne]; [done|].
    apply Rabs_pos_lt in Hne. lra.
  - right.
    pose proof (approx_bounds _ _ _ (few_roundings (S k) ltac:(lia)) Haq)
      as [Hql Hqu].
    destruct (div_bounds (Rabs (B2R x)) D (bpow (-200)) (bpow 200)
                (bpow (-200)) (bpow 220)) as [Hl Hu]; try lra.
    rewrite bpow_div in Hl, Hu.
    pose proof (bpow_le (-500) (-421) ltac:(lia)).
    pose proof (bpow_le 401 500 ltac:(lia)).
    assert (bpow (-421) = bpow (-200 - 220) / 2) as Hh1
      by (rewrite <- bpow_1, bpow_div; f_equal).
    assert (bpow 401 = 2 * bpow (200 - -200)) as Hh2
      by (rewrite <- bpow_1, <- bpow_add; f_equal).
    lra.
Qed.
End Quotients.

Section Normalization.
Local Open Scope R_scope.

Variable v : list binary64.
Hypothesis Hmod : Forall (fun x => b64_moderate x = true) v.
Hypothesis Hnz : Exists (fun x => b64_nonzero x = true) v.
Hypothesis Hlen : (Z.of_nat (length v) <= 2 ^ 20)%Z.

Lemma vector_not_empty : v <> [].
Proof. intros ->. by apply Exists_nil in Hnz. Qed.

Lemma square_bounds (x : binary64) :
  b64_moderate x = true ->
  0 <= b64_square x <= bpow 400 /\ (B2R x <> 0 -> bpow (-400) <= b64_square x).
Proof.
  intros Hx. destruct (moderate_spec x Hx) as [_ Hmag]. unfold b64_square.
  rewrite square_abs. pose proof (Rabs_pos (B2R x)) as Ha.
  pose proof (bpow_pos (-200)). pose proof (bpow_pos 200).
  change 400%Z with (200 + 200)%Z. change (-400)%Z with (-200 + -200)%Z.
  rewrite !bpow_add.
  destruct Hmag as [Hz|[Hlo Hhi]].
  - rewrite Hz, Rabs_R0. split; [nra|]. intros Hne. done.
  - split; [nra|]. intros _. nra.
Qed.

Lemma squared_norm_bounds :
  bpow (-400) <= Rsum (map b64_square v) <= bpow 420.
Proof.
  split.
  - apply Exists_exists in Hnz as (x & Hin & Hx).
    pose proof (Forall_forall (fun x => b64_moderate x = true) v) as [Hall _].
    specialize (Hall Hmod).
    destruct (square_bounds x (Hall x Hin)) as [_ Hlo].
    eapply Rle_trans; [apply Hlo, nonzero_spec; auto|].
    apply Rsum_ge_elem; [|done].
    eapply Forall_impl; [exact Hmod|]. intros y Hy. cbn beta.
    by destruct (square_bounds y Hy) as [[? ?] _].
  - eapply Rle_trans.
    + apply (Rsum_le_const b64_square (bpow 400)).
      eapply Forall_impl; [exact Hmod|]. intros y Hy. cbn beta.
      by destruct (square_bounds y Hy) as [[? ?] _].
    + change 420%Z with (20 + 400)%Z. rewrite bpow_add.
      apply Rmult_le_compat_r; [apply Rlt_le, bpow_pos|].
      rewrite INR_IZR_INZ, bpow_IZR by lia. by apply IZR_le.
Qed.

(** The squared norm as computed. *)
Lemma computed_squared_norm :
  exists m e,
    Eigen.squaredNorm v = S754_finite false m e /\ normal_me m e /\
    approx (length v) (val m e) (Rsum (map b64_square v)).
Proof.
  pose proof squared_norm_bounds as [Hlo Hhi].
  destruct (squaredNorm_spec 0 v (map b64_square v)) as [Hn Ha].
  - exact vector_not_empty.
  - apply Forall2_fmap_r, Forall_Forall2_diag.
    eapply Forall_impl; [exact Hmod|]. intros x Hx. cbn beta.
    destruct (moderate_spec x Hx) as [Hzn Hmag]. split; [done|]. split.
    + destruct Hmag as [?|[? ?]]; [by left|right]. split.
      * eapply Rle_trans; [apply (bpow_le (-500) (-200)); lia|done].
      * eapply Rle_trans; [done|apply bpow_le; lia].
    + apply approx_refl. by destruct (square_bounds x Hx) as [[? ?] _].
  - cbn [Nat.add].
    pose proof (growth_pow_le_2 (length v)
                  (few_roundings (length v) ltac:(lia))) as Hg.
    pose proof (growth_pow_ge_1 (length v)).
    pose proof (bpow_pos (-400)).
    apply Rle_trans with (bpow 420 * 2); [nra|].
    replace 2 with (bpow 1) by (unfold bpow; simpl; lra).
    rewrite <- bpow_add. apply bpow_le. lia.
  - cbn [Nat.add] in Ha.
    assert (0 < B2R (Eigen.squaredNorm v)) as Hpos.
    { destruct Ha as (_ & Hl & _).
      pose proof (growth_pow_ge_1 (length v)). pose proof (bpow_pos (-400)).
      destruct (Rle_or_lt (B2R (Eigen.squaredNorm v)) 0); [|done].
      exfalso. nra. }
    destruct (nonneg_normal_positive _ Hn Hpos) as (m & e & Hz & Hnm & Hval).
    exists m, e. rewrite <- Hval. done.
Qed.

Lemma norm_bounds : bpow (-200) <= sqrt (Rsum (map b64_square v)) <= bpow 210.
Proof.
  pose proof squared_norm_bounds as [Hlo Hhi]. split.
  - rewrite <- (sqrt_bpow (-200)). by apply sqrt_le_1_alt.
  - rewrite <- (sqrt_bpow 210). by apply sqrt_le_1_alt.
Qed.

(** The norm as computed, and the test of [normalize]. *)
Lemma computed_norm :
  exists m e,
    ssqrt (Eigen.squaredNorm v) = S754_finite false m e /\
    normal_me m e /\
    approx (S (length v)) (val m e) (sqrt (Rsum (map b64_square v))) /\
    slt (of_int 0) (Eigen.squaredNorm v) = true.
Proof.
  destruct computed_squared_norm as (mz & ez & Hz & Hnz' & Haz).
  destruct (b64_sqrt_rnd mz ez Hnz') as (m & e & Hr & Hn & Hrnd).
  exists m, e. rewrite Hz. cbn [ssqrt b64_scalar].
  split; [exact Hr|]. split; [done|]. split; [|reflexivity].
  eapply approx_step; [apply Rlt_le, val_pos|exact Hrnd|].
  by apply approx_sqrt.
Qed.

(** One element divided by the computed norm, and squared. *)
Lemma computed_quotient (m : positive) (e : Z) (x : binary64) :
  normal_me m e ->
  approx (S (length v)) (val m e) (sqrt (Rsum (map b64_square v))) ->
  b64_moderate x = true ->
  zero_or_normal (sdiv x (S754_finite false m e)) /\
  (B2R (sdiv x (S754_finite false m e)) = 0 \/
   bpow (-500) <= Rabs (B2R (sdiv x (S754_finite false m e))) <= bpow 500) /\
  approx (2 * S (S (length v)))
    (B2R (sdiv x (S754_finite false m e)) * B2R (sdiv x (S754_finite false m e)))
    (b64_square x / Rsum (map b64_square v)).
Proof.
  intros Hn Ha Hx.
  pose proof norm_bounds as [HNlo HNhi].
  pose proof squared_norm_bounds as [H2lo H2hi].
  pose proof (bpow_pos (-200)) as Hp200. pose proof (bpow_pos (-400)) as Hp400.
  set (N2 := Rsum (map b64_square v)) in *. set (N := sqrt N2) in *.
  assert (0 < N) as HN by lra.
  assert (N * N = N2) as HNN by (apply sqrt_sqrt; lra).
  destruct (quotient_spec (S (length v)) N m e x Hn Ha) as (Hzn & Hmag & Haq);
    [|lia|done|].
  { split; [done|]. eapply Rle_trans; [exact HNhi|]. apply bpow_le. lia. }
  split; [done|]. split; [done|].
  set (q := sdiv x (S754_finite false m e)) in *.
  rewrite (square_abs (B2R q)).
  replace (b64_square x / N2) with ((Rabs (B2R x) / N) * (Rabs (B2R x) / N)).
  2:{ unfold b64_square. rewrite (square_abs (B2R x)), <- HNN. field. lra. }
  replace (2 * S (S (length v)))%nat
    with (S (S (length v)) + S (S (length v)))%nat by lia.
  by apply approx_mul.
Qed.

(** The norm of the normalized vector, as computed. *)
Lemma computed_unit_norm :
  exists m e,
    Eigen.norm (Eigen.normalize v) = S754_finite false m e /\
    normal_me m e /\
    approx (3 * length v + 5) (val m e) 1.
Proof.
  destruct computed_norm as (mn & en & Hnh & Hnn & Han & Hguard).
  pose proof squared_norm_bounds as [H2lo H2hi].
  pose proof (bpow_pos (-400)) as Hp400.
  unfold Eigen.normalize. cbn zeta. rewrite Hguard, Hnh.
  unfold Eigen.norm, Eigen.quot.
  set (w := map (fun x : binary64 => sdiv x (S754_finite false mn en)) v).
  assert (length w = length v) as Hlw by (unfold w; apply length_map).
  destruct (squaredNorm_spec (2 * S (S (length v))) w
              (map (fun x => b64_square x / Rsum (map b64_square v)) v)) as [Hn Ha].
  - unfold w. intros Hnil. apply vector_not_empty.
    by destruct v.
  - unfold w. apply Forall2_fmap, Forall_Forall2_diag.
    eapply Forall_impl; [exact Hmod|]. intros x Hx. cbn beta.
    by apply computed_quotient.
  - rewrite (Rsum_map_quotient b64_square _ v). unfold Rdiv. rewrite Rinv_r by lra.
    rewrite Rmult_1_l, Hlw.
    pose proof (growth_pow_le_2 (2 * S (S (length v)) + length v)
                  (few_roundings (2 * S (S (length v)) + length v)
                     ltac:(lia))).
    apply Rle_trans with (bpow 1);
      [replace (bpow 1) with 2 by (unfold bpow; simpl; lra); done|].
    apply bpow_le. lia.
  - rewrite (Rsum_map_quotient b64_square _ v) in Ha. unfold Rdiv in Ha.
    rewrite Rinv_r, Hlw in Ha by lra.
    assert (0 < B2R (Eigen.squaredNorm w)) as Hpos.
    { destruct Ha as (_ & Hl & _).
      pose proof (growth_pow_ge_1 (2 * S (S (length v)) + length v)).
      destruct (Rle_or_lt (B2R (Eigen.squaredNorm w)) 0); [|done].
      exfalso. nra. }
    destruct (nonneg_normal_positive _ Hn Hpos) as (mw & ew & Hw & Hnw & Hval).
    destruct (b64_sqrt_rnd mw ew Hnw) as (m & e & Hr & Hnr & Hrnd).
    exists m, e. rewrite Hw. cbn [ssqrt b64_scalar].
    split; [exact Hr|]. split; [done|].
    replace (3 * length v + 5)%nat
      with (S (2 * S (S (length v)) + length v)) by lia.
    eapply approx_step; [apply Rlt_le, val_pos|exact Hrnd|].
    rewrite <- sqrt_1. apply approx_sqrt. by rewrite <- Hval.
Qed.

(** After [normalize], the norm is 1 up to [(3 n + 5) / 2^51]. *)
Lemma normalized_norm_near_one :
  b64_finite (Eigen.norm (Eigen.normalize v)) = true /\
  Rabs (B2R (Eigen.norm (Eigen.normalize v)) - 1)
    <= (3 * INR (length v) + 5) / 2 ^ 51.
Proof.
  destruct computed_unit_norm as (m & e & Hr & Hn & Ha).
  rewrite Hr. split; [reflexivity|].
  cbn [B2R cond_Zopp]. fold (val m e).
  pose proof (approx_one _ _
                (few_roundings (3 * length v + 5) ltac:(lia)) Ha)
    as Hone.
  eapply Rle_trans; [exact Hone|].
  rewrite plus_INR, mult_INR.
  replace (INR 3) with 3 by (simpl; lra). replace (INR 5) with 5 by (simpl; lra).
  assert (2 * unit_roundoff = / 2 ^ 51) as Hu.
  { unfold unit_roundoff. replace 2 with (bpow 1) at 1 by (unfold bpow; simpl; lra).
    rewrite <- bpow_add. change (1 + -52)%Z with (- (51))%Z.
    rewrite bpow_opp, bpow_IZR by lia. f_equal.
    rewrite pow_IZR. reflexivity. }
  unfold Rdiv. rewrite <- Hu. lra.
Qed.
End Normalization.

(** *** The orders 1 and Infinity *)

Section OtherOrders.
Local Open Scope R_scope.

Lemma b64_abs_spec (x : binary64) :
  zero_or_normal x ->
  nonneg_normal (sabs x) /\ B2R (sabs x) = Rabs (B2R x).
Proof.
  destruct x as [s| | |s m e]; cbn [zero_or_normal]; try done.
  - intros _. split; [done|]. cbn. by rewrite Rabs_R0.
  - intros Hn. split; [done|]. rewrite B2R_abs. reflexivity.
Qed.

(** A sum of numbers that are zero or positive. *)
Lemma sum_spec (k : nat) (ts : list binary64) (Xs : list R) :
  ts <> [] ->
  Forall2 (fun t X => nonneg_normal t /\ approx k (B2R t) X) ts Xs ->
  Rsum Xs * growth ^ (k + length ts) <= bpow 1000 ->
  nonneg_normal (Eigen.sum ts) /\
  approx (k + length ts) (B2R (Eigen.sum ts)) (Rsum Xs).
Proof.
  intros Hne Hall Hbound.
  destruct Hall as [|t X ts Xs' [Hnt Hat] Hrest]; [done|].
  unfold Eigen.sum, Eigen.redux. cbn [length] in *. rewrite Rsum_cons in *.
  assert (0 <= X + Rsum Xs') as Hs.
  { destruct Hat as (? & _).
    assert (0 <= Rsum Xs'); [|lra].
    apply Rsum_nonneg_list. eapply Forall2_Forall_r; [exact Hrest|].
    apply Forall_forall. intros X' _ t' [_ (HX' & _)]. exact HX'. }
  pose proof (growth_pow_mono (k + length ts) (k + S (length ts)) ltac:(lia)).
  pose proof (growth_pow_ge_1 (k + length ts)).
  destruct (fold_sum_spec k ts Xs' Hrest t X k Hnt Hat (le_n k)) as [Hn Ha].
  { eapply Rle_trans; [|exact Hbound]. apply Rmult_le_compat_l; lra. }
  split; [done|]. eapply approx_weaken; [|exact Ha]. lia.
Qed.

(** The order on numbers that are zero or positive. *)
Lemma b64_lt_spec (x y : binary64) :
  nonneg_normal x -> nonneg_normal y ->
  (slt x y = true <-> B2R x < B2R y).
Proof.
  destruct x as [sx| | |sx mx ex], y as [sy| | |sy my ey];
    cbn [nonneg_normal]; try done.
  - intros -> ->. cbn. split; [done|lra].
  - intros -> [-> Hn]. cbn [B2R cond_Zopp]. fold (val my ey).
    pose proof (val_pos my ey). split; [lra|reflexivity].
  - intros [-> Hn] ->. cbn [B2R cond_Zopp]. fold (val mx ex).
    pose proof (val_pos mx ex). split; [done|lra].
  - intros [-> Hnx] [-> Hny]. cbn [B2R cond_Zopp]. fold (val mx ex) (val my ey).
    destruct (val_bounds mx ex Hnx) as [Hxl Hxu].
    destruct (val_bounds my ey Hny) as [Hyl Hyu].
    cbn [slt b64_scalar]. unfold SFltb, SFcompare.
    destruct (Z.compare_spec ex ey) as [->|Hlt|Hgt].
    + rewrite Pos.compare_cont_spec. cbn [Pos.switch_Eq].
      unfold val. pose proof (bpow_pos ey).
      destruct (Pos.compare_spec mx my) as [->|Hm|Hm].
      * split; [done|lra].
      * split; [intros _|done].
        apply Rmult_lt_compat_r; [done|]. apply IZR_lt. lia.
      * split; [done|]. intros Hv. exfalso.
        assert (IZR (Z.pos my) < IZR (Z.pos mx)) by (apply IZR_lt; lia).
        nra.
    + split; [intros _|done].
      pose proof (bpow_le (53 + ex) (52 + ey) ltac:(lia)). lra.
    + split; [done|]. intros Hv. exfalso.
      pose proof (bpow_le (53 + ey) (52 + ex) ltac:(lia)). lra.
Qed.

Lemma smax_spec (x y : binary64) :
  nonneg_normal x -> nonneg_normal y ->
  (Eigen.smax x y = x \/ Eigen.smax x y = y) /\
  B2R x <= B2R (Eigen.smax x y) /\ B2R y <= B2R (Eigen.smax x y).
Proof.
  intros Hx Hy. unfold Eigen.smax.
  pose proof (b64_lt_spec x y Hx Hy) as Hlt.
  destruct (slt x y).
  - split; [by right|]. assert (B2R x < B2R y) by (by apply Hlt). lra.
  - split; [by left|].
    destruct (Rlt_dec (B2R x) (B2R y)) as [H|H]; [|lra].
    apply Hlt in H. done.
Qed.

Lemma fold_max_spec (ts : list binary64) :
  Forall nonneg_normal ts ->
  forall acc : binary64, nonneg_normal acc ->
    (fold_left Eigen.smax ts acc = acc \/ fold_left Eigen.smax ts acc ∈ ts) /\
    B2R acc <= B2R (fold_left Eigen.smax ts acc) /\
    Forall (fun t => B2R t <= B2R (fold_left Eigen.smax ts acc)) ts.
Proof.
  induction 1 as [|t ts Ht _ IH]; intros acc Hacc.
  - cbn. split; [by left|]. split; [lra|constructor].
  - cbn [fold_left].
    destruct (smax_spec acc t Hacc Ht) as (Hsel & Hge1 & Hge2).
    assert (nonneg_normal (Eigen.smax acc t)) as Hn
      by (by destruct Hsel as [-> | ->]).
    destruct (IH _ Hn) as (Hin & Hge & Hall).
    split; [|split].
    + destruct Hin as [Heq|Hin]; [|right; by apply elem_of_cons; right].
      rewrite Heq. destruct Hsel as [->| ->]; [by left|right; left].
    + lra.
    + constructor; [lra|done].
Qed.

Lemma maxCoeff_spec (ts : list binary64) :
  ts <> [] -> Forall nonneg_normal ts ->
  Eigen.maxCoeff ts ∈ ts /\
  Forall (fun t => B2R t <= B2R (Eigen.maxCoeff ts)) ts.
Proof.
  intros Hne Hall. destruct Hall as [|t ts Ht Hts]; [done|].
  unfold Eigen.maxCoeff, Eigen.redux.
  destruct (fold_max_spec ts Hts t Ht) as (Hin & Hge & Hall).
  split.
  - destruct Hin as [->|Hin]; [left|by right].
  - by constructor.
Qed.
End OtherOrders.

Section UnitBound.
Local Open Scope R_scope.

Lemma unit_bound (k n : nat) (r : R) :
  approx k r 1 -> (k <= 3 * n + 5)%nat -> (Z.of_nat n <= 2 ^ 20)%Z ->
  Rabs (r - 1) <= (3 * INR n + 5) / 2 ^ 51.
Proof.
  intros Ha Hk Hn. apply (approx_weaken _ _ _ _ Hk) in Ha.
  pose proof (approx_one _ _ (few_roundings (3 * n + 5) ltac:(lia)) Ha)
    as Hone.
  eapply Rle_trans; [exact Hone|].
  rewrite plus_INR, mult_INR.
  replace (INR 3) with 3 by (simpl; lra). replace (INR 5) with 5 by (simpl; lra).
  assert (2 * unit_roundoff = / 2 ^ 51) as Hu.
  { unfold unit_roundoff. rewrite <- bpow_1 at 1.
    rewrite <- bpow_add. change (1 + -52)%Z with (- (51))%Z.
    rewrite bpow_opp, bpow_IZR by lia. f_equal.
    rewrite pow_IZR. reflexivity. }
  unfold Rdiv. rewrite <- Hu. lra.
Qed.
End UnitBound.

Section NormalizationOrders.
Local Open Scope R_scope.

Variable v : list binary64.
Hypothesis Hmod : Forall (fun x => b64_moderate x = true) v.
Hypothesis Hnz : Exists (fun x => b64_nonzero x = true) v.
Hypothesis Hlen : (Z.of_nat (length v) <= 2 ^ 20)%Z.

Lemma abs_bounds (x : binary64) :
  b64_moderate x = true ->
  0 <= b64_magnitude x <= bpow 200 /\ (B2R x <> 0 -> bpow (-200) <= b64_magnitude x).
Proof.
  intros Hx. destruct (moderate_spec x Hx) as [_ Hmag]. unfold b64_magnitude.
  pose proof (Rabs_pos (B2R x)). pose proof (bpow_pos 200).
  destruct Hmag as [Hz|[Hlo Hhi]].
  - rewrite Hz, Rabs_R0. split; [lra|]. done.
  - split; [lra|done].
Qed.

Lemma l1_bounds : bpow (-200) <= Rsum (map b64_magnitude v) <= bpow 220.
Proof.
  split.
  - apply Exists_exists in Hnz as (x & Hin & Hx).
    pose proof (Forall_forall (fun x => b64_moderate x = true) v) as [Hall _].
    specialize (Hall Hmod).
    destruct (abs_bounds x (Hall x Hin)) as [_ Hlo].
    eapply Rle_trans; [apply Hlo, nonzero_spec; auto|].
    apply Rsum_ge_elem; [|done].
    eapply Forall_impl; [exact Hmod|]. intros y Hy. cbn beta.
    by destruct (abs_bounds y Hy) as [[? ?] _].
  - eapply Rle_trans.
    + apply (Rsum_le_const b64_magnitude (bpow 200)).
      eapply Forall_impl; [exact Hmod|]. intros y Hy. cbn beta.
      by destruct (abs_bounds y Hy) as [[? ?] _].
    + change 220%Z with (20 + 200)%Z. rewrite bpow_add.
      apply Rmult_le_compat_r; [apply Rlt_le, bpow_pos|].
      rewrite INR_IZR_INZ, bpow_IZR by lia. by apply IZR_le.
Qed.

(** The L1 norm as computed. *)
Lemma computed_l1 :
  exists m e,
    Eigen.sum (map sabs v) = S754_finite false m e /\ normal_me m e /\
    approx (length v) (val m e) (Rsum (map b64_magnitude v)).
Proof.
  pose proof l1_bounds as [Hlo Hhi]. pose proof (bpow_pos (-200)).
  destruct (sum_spec 0 (map sabs v) (map b64_magnitude v)) as [Hn Ha].
  - intros Hnil. apply (vector_not_empty v Hmod Hnz Hlen). by destruct v.
  - apply Forall2_fmap, Forall_Forall2_diag.
    eapply Forall_impl; [exact Hmod|]. intros x Hx. cbn beta.
    destruct (moderate_spec x Hx) as [Hzn _].
    destruct (b64_abs_spec x Hzn) as [Hnn ->]. split; [done|].
    apply approx_refl, Rabs_pos.
  - rewrite length_map. cbn [Nat.add].
    pose proof (growth_pow_le_2 (length v)
                  (few_roundings (length v) ltac:(lia))) as Hg.
    pose proof (growth_pow_ge_1 (length v)).
    apply Rle_trans with (bpow 220 * 2); [nra|].
    rewrite <- bpow_1, <- bpow_add. apply bpow_le. lia.
  - rewrite length_map in Ha. cbn [Nat.add] in Ha.
    assert (0 < B2R (Eigen.sum (map sabs v))) as Hpos.
    { destruct Ha as (_ & Hl & _).
      pose proof (growth_pow_ge_1 (length v)).
      destruct (Rle_or_lt (B2R (Eigen.sum (map sabs v))) 0); [|done].
      exfalso. nra. }
    destruct (nonneg_normal_positive _ Hn Hpos) as (m & e & Hz & Hnm & Hval).
    exists m, e. rewrite <- Hval. done.
Qed.

(** The L1 norm of the vector divided by its L1 norm, as computed. *)
Lemma computed_unit_l1 :
  exists m e,
    Eigen.sum (map sabs (Eigen.quot v (Eigen.sum (map sabs v)))) =
      S754_finite false m e /\
    normal_me m e /\ approx (2 * length v + 1) (val m e) 1.
Proof.
  destruct computed_l1 as (md & ed & Hd & Hnd & Had).
  pose proof l1_bounds as [Hlo Hhi]. pose proof (bpow_pos (-200)).
  rewrite Hd. unfold Eigen.quot. rewrite map_map.
  change spec_float with binary64.
  set (ts := map (fun x : binary64 =>
                    sabs (sdiv x (S754_finite false md ed))) v).
  assert (length ts = length v) as Hlt by (unfold ts; apply length_map).
  destruct (sum_spec (S (length v)) ts
              (map (fun x => b64_magnitude x / Rsum (map b64_magnitude v)) v)) as [Hn Ha].
  - unfold ts. intros Hnil. apply (vector_not_empty v Hmod Hnz Hlen). by destruct v.
  - unfold ts. apply Forall2_fmap, Forall_Forall2_diag.
    eapply Forall_impl; [exact Hmod|]. intros x Hx. cbn beta.
    destruct (quotient_spec (length v) _ md ed x Hnd Had) as (Hzn & _ & Haq);
      [done|lia|done|].
    destruct (b64_abs_spec _ Hzn) as [Hnn ->]. done.
  - rewrite (Rsum_map_quotient b64_magnitude _ v). unfold Rdiv. rewrite Rinv_r by lra.
    rewrite Rmult_1_l, Hlt.
    pose proof (growth_pow_le_2 (S (length v) + length v)
                  (few_roundings (S (length v) + length v) ltac:(lia))).
    apply Rle_trans with (bpow 1); [rewrite bpow_1; done|].
    apply bpow_le. lia.
  - rewrite (Rsum_map_quotient b64_magnitude _ v) in Ha. unfold Rdiv in Ha.
    rewrite Rinv_r, Hlt in Ha by lra.
    assert (0 < B2R (Eigen.sum ts)) as Hpos.
    { destruct Ha as (_ & Hl & _).
      pose proof (growth_pow_ge_1 (S (length v) + length v)).
      destruct (Rle_or_lt (B2R (Eigen.sum ts)) 0); [|done].
      exfalso. nra. }
    destruct (nonneg_normal_positive _ Hn Hpos) as (m & e & Hz & Hnm & Hval).
    exists m, e. rewrite <- Hval. split; [done|]. split; [done|].
    replace (2 * length v + 1)%nat with (S (length v) + length v)%nat by lia.
    done.
Qed.

(** The L-infinity norm as computed: the magnitude of one of the
    elements, and the greatest. *)
Lemma computed_linf :
  exists m e,
    Eigen.maxCoeff (map sabs v) = S754_finite false m e /\ normal_me m e /\
    bpow (-200) <= val m e <= bpow 200 /\
    Forall (fun x => b64_magnitude x <= val m e) v /\
    exists x, x ∈ v /\ b64_magnitude x = val m e.
Proof.
  destruct (maxCoeff_spec (map sabs v)) as [Hin Hall].
  - intros Hnil. apply (vector_not_empty v Hmod Hnz Hlen). by destruct v.
  - apply Forall_map. eapply Forall_impl; [exact Hmod|]. intros x Hx. cbn beta.
    destruct (moderate_spec x Hx) as [Hzn _]. by apply b64_abs_spec.
  - pose proof (Forall_forall (fun x => b64_moderate x = true) v) as [Hm _].
    specialize (Hm Hmod).
    apply list_elem_of_fmap in Hin as (xj & Hxj & Hj).
    destruct (moderate_spec xj (Hm xj Hj)) as [Hznj _].
    destruct (b64_abs_spec xj Hznj) as [Hnnj Hvalj].
    rewrite Hxj in *.
    assert (Forall (fun x => b64_magnitude x <= B2R (sabs xj)) v) as Hmax.
    { apply Forall_map in Hall. eapply Forall_impl; [exact Hall|].
      intros x Hx. cbn beta in Hx.
      pose proof (Forall_forall (fun x => b64_moderate x = true) v) as _.
      unfold b64_magnitude. destruct x as [s| | |s m e]; cbn in Hx |- *;
        rewrite ?Rabs_R0; try done.
      fold (val m e) in Hx. rewrite <- (B2R_abs s m e) in Hx. exact Hx. }
    apply Exists_exists in Hnz as (x0 & Hin0 & Hx0).
    destruct (abs_bounds x0 (Hm x0 Hin0)) as [_ Hlo0].
    specialize (Hlo0 (nonzero_spec x0 (Hm x0 Hin0) Hx0)).
    pose proof (Forall_forall (fun x => b64_magnitude x <= B2R (sabs xj)) v) as [Hf _].
    pose proof (Hf Hmax x0 Hin0) as Hge.
    pose proof (bpow_pos (-200)).
    destruct (nonneg_normal_positive _ Hnnj ltac:(lra))
      as (m & e & Hz & Hnm & Hval).
    exists m, e. rewrite <- Hval. split; [done|]. split; [done|].
    destruct (abs_bounds xj (Hm xj Hj)) as [[_ Hhi] _].
    unfold b64_magnitude in Hhi. rewrite <- Hvalj in Hhi.
    split; [lra|]. split; [done|].
    exists xj. split; [done|]. unfold b64_magnitude. by rewrite Hvalj.
Qed.

(** The L-infinity norm of the vector divided by its L-infinity norm, as
    computed. *)
Lemma computed_unit_linf :
  exists m e,
    Eigen.maxCoeff
      (map sabs (Eigen.quot v (Eigen.maxCoeff (map sabs v)))) =
      S754_finite false m e /\
    normal_me m e /\ approx 1 (val m e) 1.
Proof.
  destruct computed_linf as (md & ed & Hd & Hnd & [Hlo Hhi] & Hmax & Hsel).
  pose proof (bpow_pos (-200)) as Hp.
  pose proof (Forall_forall (fun x => b64_moderate x = true) v) as [Hm _].
  specialize (Hm Hmod).
  pose proof (Forall_forall (fun x => b64_magnitude x <= val md ed) v) as [Hmx _].
  specialize (Hmx Hmax).
  rewrite Hd. unfold Eigen.quot. rewrite map_map.
  change spec_float with binary64.
  set (f := fun x : binary64 => sabs (sdiv x (S754_finite false md ed))).
  assert (forall x, x ∈ v ->
            nonneg_normal (f x) /\ approx 1 (B2R (f x)) (b64_magnitude x / val md ed))
    as Hq.
  { intros x Hx. unfold f.
    destruct (quotient_spec 0 (val md ed) md ed x Hnd) as (Hzn & _ & Haq).
    - apply approx_refl, Rlt_le, val_pos.
    - split; [done|]. eapply Rle_trans; [exact Hhi|]. apply bpow_le. lia.
    - lia.
    - by apply Hm.
    - destruct (b64_abs_spec _ Hzn) as [Hnn ->]. done. }
  destruct (maxCoeff_spec (map f v)) as [Hin Hall].
  - intros Hnil. apply (vector_not_empty v Hmod Hnz Hlen). by destruct v.
  - apply Forall_map, Forall_forall. intros x Hx. by apply Hq.
  - apply list_elem_of_fmap in Hin as (y & Hy & Hyv).
    destruct (Hq y Hyv) as [Hny Hay].
    destruct Hsel as (xj & Hj & Hxj).
    destruct (Hq xj Hj) as [Hnj Haj].
    assert (B2R (f xj) <= B2R (Eigen.maxCoeff (map f v))) as Hge.
    { apply Forall_map in Hall.
      pose proof (Forall_forall
        (fun x => B2R (f x) <= B2R (Eigen.maxCoeff (map f v))) v) as [Hf _].
      by apply Hf. }
    rewrite Hy in *.
    assert (approx 1 (B2R (f y)) 1) as Hone.
    { rewrite Hxj in Haj. unfold Rdiv in Haj. rewrite Rinv_r in Haj by lra.
      destruct Haj as (_ & Hl & _). destruct Hay as (Hy0 & _ & Hu).
      pose proof (growth_pow_ge_1 1) as Hg.
      assert (b64_magnitude y / val md ed <= 1) as Hle.
      { apply (Rmult_le_reg_r (val md ed)); [lra|].
        unfold Rdiv. rewrite Rmult_assoc, Rinv_l by lra.
        specialize (Hmx y Hyv). lra. }
      repeat split; [lra| |].
      - eapply Rle_trans; [exact Hl|]. apply Rmult_le_compat_r; lra.
      - eapply Rle_trans; [exact Hu|]. apply Rmult_le_compat_r; lra. }
    assert (0 < B2R (f y)) as Hpos.
    { destruct Hone as (_ & Hl & _). pose proof (growth_pow_ge_1 1).
      destruct (Rle_or_lt (B2R (f y)) 0); [|done]. exfalso. nra. }
    destruct (nonneg_normal_positive _ Hny Hpos) as (m & e & Hz & Hnm & Hval).
    exists m, e. rewrite <- Hval. done.
Qed.

(** The three orders that the engine computes without [pow]. *)
Lemma normalized_lp_near_one `{Libm binary64} (l : Z) :
  l = 1%Z \/ l = 2%Z \/ l = Eigen.Infinity ->
  b64_finite (Eigen.lpNorm l (Eigen.quot v (Eigen.lpNorm l v))) = true /\
  Rabs (B2R (Eigen.lpNorm l (Eigen.quot v (Eigen.lpNorm l v))) - 1)
    <= (3 * INR (length v) + 5) / 2 ^ 51.
Proof.
  intros [->|[->| ->]]; unfold Eigen.lpNorm;
    cbn [Z.eqb Pos.eqb Eigen.Infinity].
  - destruct computed_unit_l1 as (m & e & Hr & Hn & Ha).
    rewrite Hr. split; [reflexivity|]. cbn [B2R cond_Zopp]. fold (val m e).
    apply (unit_bound _ _ _ Ha); [lia|done].
  - destruct (computed_norm v Hmod Hnz Hlen) as (mn & en & Hnh & _ & _ & Hg).
    destruct (computed_unit_norm v Hmod Hnz Hlen) as (m & e & Hr & Hn & Ha).
    unfold Eigen.normalize in Hr. cbn zeta in Hr. rewrite Hg in Hr.
    fold (Eigen.norm v) in Hr. rewrite Hr. split; [reflexivity|].
    cbn [B2R cond_Zopp]. fold (val m e).
    apply (unit_bound _ _ _ Ha); [lia|done].
  - destruct computed_unit_linf as (m & e & Hr & Hn & Ha).
    rewrite Hr. split; [reflexivity|]. cbn [B2R cond_Zopp]. fold (val m e).
    apply (unit_bound _ _ _ Ha); [lia|done].
Qed.
End NormalizationOrders.




(** ** View overloads (C1) *)

(** C1, as stated, fails: [cdiv], [unary] and the matrix-matrix product
    have no overload that takes a view, and no function of the layer takes
    views in both operand positions. *)
Lemma view_overload_counterexample :
  view_overloads Cdiv = [] /\
  view_overloads Unary = [] /\
  view_overloads MulMatrixMatrix = [] /\
  filter (fun g => length (filter (fun c => is_view c = true) (params g)) = 2)
    all_fns = [].
Proof. vm_compute. repeat split. Qed.

Section ViewOverloads.
Context {T : Type} `{Scalar T}.

Lemma bind_Ok {A B} (m : M T A) (k : A -> M T B) (h h' : heap T) (a : A) :
  m h = Ok (a, h') -> (m ≫= k) h = k a h'.
Proof. intros E. unfold mbind, M_bind. by rewrite E. Qed.

(** C1, amended.  The inner product, [cprod], vector addition, vector
    subtraction and the matrix-vector product each have two view overloads,
    one with the view as the left operand and one with the view as the
    right operand; no other function has one, and none takes two views.
    On a view that reads the elements [xs], each view overload returns what
    the owning overload returns on a container that holds [xs]. *)
Theorem view_overloads_agree :
  (forall f, view_overloads f =
     match f with
     | MulVectorVector => [MulMapVector; MulVectorMap]
     | Cprod => [CprodMapVector; CprodVectorMap]
     | AddVectorVector => [AddMapVector; AddVectorMap]
     | SubVectorVector => [SubMapVector; SubVectorMap]
     | MulMatrixVector => [MulMatmapVector; MulMatrixMap]
     | _ => []
     end) /\
  (forall g, is_view <$> params g = [true; false] \/
             is_view <$> params g = [false; true] \/
             existsb is_view (params g) = false) /\
  (forall (h : heap T) (view : vector_map) (own other : loc) (xs : Eigen.Vec T),
     read_vector_map view h = Ok (xs, h) ->
     h !! own = Some (VectorObj (mk_vector xs)) ->
     operator_mul_map_vector view other h =
       operator_mul_vector_vector own other h /\
     operator_mul_vector_map other view h =
       operator_mul_vector_vector other own h /\
     eigen.cprod_map_vector view other h = eigen.cprod own other h /\
     eigen.cprod_vector_map other view h = eigen.cprod other own h /\
     operator_add_map_vector view other h =
       operator_add_vector_vector own other h /\
     operator_add_vector_map other view h =
       operator_add_vector_vector other own h /\
     operator_sub_map_vector view other h =
       operator_sub_vector_vector own other h /\
     operator_sub_vector_map other view h =
       operator_sub_vector_vector other own h /\
     forall mat, operator_mul_matrix_map mat view h =
       operator_mul_matrix_vector mat own h) /\
  (forall (h : heap T) (view : matrix_map) (own vec : loc) (m : Eigen.Mat T),
     read_matrix_map view h = Ok (m, h) ->
     h !! own = Some (MatrixObj (mk_matrix m)) ->
     operator_mul_matmap_vector view vec h =
       operator_mul_matrix_vector own vec h).
Proof.
  split; [|split; [|split]].
  - intros f. by destruct f; vm_compute.
  - intros g. destruct g; cbn; auto.
  - intros h view own other xs Hview Hown.
    unfold operator_mul_map_vector, operator_mul_vector_map,
      operator_mul_vector_vector, eigen.cprod_map_vector,
      eigen.cprod_vector_map, eigen.cprod, operator_add_map_vector,
      operator_add_vector_map, operator_add_vector_vector,
      operator_sub_map_vector, operator_sub_vector_map,
      operator_sub_vector_vector, operator_mul_matrix_map,
      operator_mul_matrix_vector.
    rewrite !(bind_Ok _ _ _ _ _ Hview), !(bind_read_vector own _ _ h Hown).
    repeat split.
    all: try (unfold mbind, M_bind, read_vector;
              destruct (h !! other) as [[]|]; try reflexivity;
              rewrite Hview; unfold read_vector; by rewrite Hown).
    intros mat. unfold mbind, M_bind, read_matrix.
    destruct (h !! mat) as [[]|]; try reflexivity.
    rewrite Hview. unfold read_vector. by rewrite Hown.
  - intros h view own vec m Hview Hown.
    unfold operator_mul_matmap_vector, operator_mul_matrix_vector.
    by rewrite (bind_Ok _ _ _ _ _ Hview), (bind_read_matrix own _ _ h Hown).
Qed.
End ViewOverloads.

Lemma view_overloads_agree_witness :
  let h : heap binary64 :=
    {[ 1 := ArrayObj (map b64_of_Z [1; 2; 3; 0]%Z);
       2 := VectorObj (ints [1; 2; 3]%Z);
       3 := VectorObj (ints [4; 5; 6]%Z) ]} in
  let view := mk_vector_map 1 3 in
  operator_add_map_vector view 3 h = operator_add_vector_vector 2 3 h /\
  operator_add_map_vector view 3 h = Ok (ints [5; 7; 9]%Z, h).
Proof.
  intros h view. split; [|vm_compute; reflexivity].
  destruct (proj1 (proj2 (proj2 view_overloads_agree)) h view 2 3
              (map b64_of_Z [1; 2; 3]%Z)) as (_ & _ & _ & _ & Hadd & _);
    [vm_compute; reflexivity | vm_compute; reflexivity | exact Hadd].
Defined.

(** ** Failures are the engine's (C8) *)

Section PassThrough.
Context {T : Type} `{Scalar T}.

Lemma put_live (h : heap T) (l : loc) (out : list (printed T)) (p : printed T) :
  h !! l = Some (StreamObj out) ->
  put l p h = Ok (tt, <[l := StreamObj (out ++ [p])]> h).
Proof. intros E. unfold put. by rewrite E. Qed.

Lemma write_vector_live (h : heap T) (l : loc) (v w : vector T) :
  h !! l = Some (VectorObj v) ->
  write_vector l w h = Ok (tt, <[l := VectorObj w]> h).
Proof. intros E. unfold write_vector. by rewrite E. Qed.

(** On live operands a call fails only where the kernel it forwards to
    fails. *)
Lemma only_engine_faults `{Libm T} `{Eigen.Inverse T}
    (f : fn) (args : operands T (params f)) (h : heap T) (e : fault) :
  all_live h (params f) args -> run f args h = Fault e -> e = EngineAssertion.
Proof.
  destruct f; simpl in args; cbn [all_live params live fst snd].
  all: destruct args as (x & y); try destruct y as (y & z); cbn [fst snd].
  all: intros Hlive; decompose [and ex] Hlive; clear Hlive.
  all: cbv [run call definition fst snd params].
  all: match goal with |- ?m _ = _ -> _ => let g := head_of m in unfold g end.
  all: try unfold eigen.norm_l, operator_div_vector_scalar.
  all: repeat first
         [ progress reads
         | erewrite bind_Ok by (apply put_live; eassumption)
         | erewrite write_vector_live by eassumption
         | progress unfold lift
         | match goal with
           | |- match ?o with _ => _ end = _ -> _ => destruct o
           end ].
  all: try discriminate; by inversion 1.
Qed.

End PassThrough.



(** * Further properties *)

(** ** Stream insertion *)

Section StreamInsertion.
Context {T : Type} `{Scalar T}.

(** X1.  [stream << vec << mat] appends the vector's and then the matrix's
    native object to what the stream has received, changes nothing else
    and returns the stream. *)
Theorem stream_insertion_chains
    (h : heap T) (stream vec mat : loc) (out : list (printed T))
    (v : vector T) (m : matrix T) :
  h !! stream = Some (StreamObj out) ->
  h !! vec = Some (VectorObj v) ->
  h !! mat = Some (MatrixObj m) ->
  print_vector_then_matrix stream vec mat h =
    Ok (stream,
        <[stream := StreamObj (out ++ [PrintedVec (vector_eigen v);
                                        PrintedMat (matrix_eigen m)])]> h).
Proof.
  intros Hs Hv Hm.
  assert (stream <> mat) by congruence.
  unfold print_vector_then_matrix, operator_shl_vector, operator_shl_matrix.
  reads. erewrite bind_Ok by (unfold put; rewrite Hs; reflexivity).
  reads.
  erewrite bind_read_matrix
    by (unfold heap in *; rewrite lookup_insert_ne; eassumption).
  erewrite bind_Ok
    by (unfold put, heap in *; rewrite lookup_insert_eq; reflexivity).
  unfold heap in *. rewrite insert_insert_eq, <- app_assoc. reflexivity.
Qed.
End StreamInsertion.

Lemma stream_insertion_chains_witness :
  let v : vector binary64 := ints [1; 2]%Z in
  let m : matrix binary64 := mk_matrix (Eigen.mkMat 1 1 [b64_of_Z 7]) in
  let h : heap binary64 :=
    {[ 1 := StreamObj []; 2 := VectorObj v; 3 := MatrixObj m ]} in
  print_vector_then_matrix 1 2 3 h =
    Ok (1, <[1 := StreamObj ([] ++ [PrintedVec (vector_eigen v);
                                     PrintedMat (matrix_eigen m)])]> h).
Proof.
  intros v m h.
  apply (stream_insertion_chains h 1 2 3 [] v m); vm_compute; reflexivity.
Defined.

(** ** Compound assignment and the binary operators *)

Section CompoundAsAssignment.
Context {T : Type} `{Scalar T}.

(** X2.  A compound assignment does what the binary operator followed by
    an assignment to the left operand does, on every store: [a += b] is
    [a = a + b], [a -= b] is [a = a - b], [a *= s] is [a = a * s] and
    [a /= s] is [a = a / s], with the same failures. *)
Theorem compound_assignment_as_assignment (h : heap T) (lhs rhs : loc) (s : T) :
  operator_add_assign lhs rhs h = assign_sum lhs rhs h /\
  operator_sub_assign lhs rhs h = assign_difference lhs rhs h /\
  operator_mul_assign lhs s h = assign_product lhs s h /\
  operator_div_assign lhs s h = assign_quotient lhs s h.
Proof.
  unfold operator_add_assign, operator_sub_assign, operator_mul_assign,
    operator_div_assign, assign_sum, assign_difference, assign_product,
    assign_quotient, operator_add_vector_vector, operator_sub_vector_vector,
    operator_mul_vector_scalar, operator_div_vector_scalar.
  cbv [mbind M_bind mret M_ret read_vector lift].
  repeat split.
  all: destruct (h !! lhs) as [[a| | |]|]; try reflexivity.
  all: destruct (h !! rhs) as [[b| | |]|]; try reflexivity.
  all: match goal with
       | |- context [match ?o with Some _ => _ | None => _ end] => by destruct o
       end.
Qed.
End CompoundAsAssignment.

(** ** [unary] *)

Section Unary.
Context {T : Type} `{Scalar T}.

(** X3.  [unary] keeps the length, applying it twice applies the composed
    function once, and with the identity function it returns the vector. *)
Theorem unary_composes (h : heap T) (vec : loc) (v : vector T) (f g : T -> T) :
  h !! vec = Some (VectorObj v) ->
  value_of (unary_twice vec f g) h =
    value_of (eigen.unary vec (fun x => g (f x))) h /\
  (exists w, eigen.unary vec f h = Ok (w, h) /\
             length (vector_eigen w) = length (vector_eigen v)) /\
  eigen.unary vec (fun x => x) h = Ok (v, h).
Proof.
  intros Hv. unfold value_of, unary_twice, eigen.unary. reads.
  rewrite bind_temporary.
  erewrite bind_read_vector by (unfold heap; apply lookup_insert_eq).
  unfold mret, M_ret, Eigen.unaryExpr. cbn [fmap outcome_fmap fst vector_eigen].
  split; [by rewrite map_map|split].
  - eexists. split; [reflexivity|]. cbn. by rewrite length_map.
  - rewrite map_id. by destruct v.
Qed.
End Unary.

Lemma unary_composes_witness :
  let h : heap binary64 := {[ 1 := VectorObj (ints [1; -2; 3]%Z) ]} in
  value_of (unary_twice 1 SFabs SFopp) h =
    value_of (eigen.unary 1 (fun x => SFopp (SFabs x))) h.
Proof.
  intros h.
  refine (proj1 (unary_composes h 1 (ints [1; -2; 3]%Z) SFabs SFopp _)).
  vm_compute. reflexivity.
Defined.


(** ** What a call can write *)

Section Writes.
Context {T : Type} `{Scalar T}.
Implicit Types (h : heap T) (t : option loc).

(** A computation that leaves the store as it is or replaces the object at
    [t] by one of the same type. *)
Lemma same_kind_refl (o : object T) : same_kind o o.
Proof. by destruct o. Qed.

Lemma writes_at_read_only {A} t (m : M T A) :
  read_only m ->
  forall h a h', m h = Ok (a, h') ->
    h' = h \/ exists l o o', t = Some l /\ h !! l = Some o /\
                             same_kind o o' /\ h' = <[l := o']> h.
Proof. intros Hm h a h' E. left. by eapply Hm. Qed.

Lemma writes_at_write_vector (l : loc) (w : vector T) h (a : unit) h' :
  write_vector l w h = Ok (a, h') ->
  h' = h \/ exists l0 o o', Some l = Some l0 /\ h !! l0 = Some o /\
                            same_kind o o' /\ h' = <[l0 := o']> h.
Proof.
  unfold write_vector. destruct (h !! l) as [[v| | |]|] eqn:E; try discriminate.
  intros [= <-]. right. exists l, (VectorObj v), (VectorObj w). by repeat split.
Qed.

Lemma writes_at_put (l : loc) (p : printed T) h (a : unit) h' :
  put l p h = Ok (a, h') ->
  h' = h \/ exists l0 o o', Some l = Some l0 /\ h !! l0 = Some o /\
                            same_kind o o' /\ h' = <[l0 := o']> h.
Proof.
  unfold put. destruct (h !! l) as [[| | |out]|] eqn:E; try discriminate.
  intros [= <-]. right.
  exists l, (StreamObj out), (StreamObj (out ++ [p])). by repeat split.
Qed.

(** Reads first, then the write. *)
Lemma writes_at_bind_r {A B} t (m : M T A) (k : A -> M T B) :
  read_only m ->
  (forall x h a h', k x h = Ok (a, h') ->
     h' = h \/ exists l o o', t = Some l /\ h !! l = Some o /\
                              same_kind o o' /\ h' = <[l := o']> h) ->
  forall h a h', (m ≫= k) h = Ok (a, h') ->
    h' = h \/ exists l o o', t = Some l /\ h !! l = Some o /\
                             same_kind o o' /\ h' = <[l := o']> h.
Proof.
  intros Hm Hk h b h' E. unfold mbind, M_bind in E.
  destruct (m h) as [[x h1]|e] eqn:Em; [|discriminate].
  apply Hm in Em. subst h1. by eapply Hk.
Qed.

(** The write, then returning a value. *)
Lemma writes_at_bind_l {A B} t (m : M T A) (k : A -> M T B) :
  (forall h a h', m h = Ok (a, h') ->
     h' = h \/ exists l o o', t = Some l /\ h !! l = Some o /\
                              same_kind o o' /\ h' = <[l := o']> h) ->
  (forall x, read_only (k x)) ->
  forall h a h', (m ≫= k) h = Ok (a, h') ->
    h' = h \/ exists l o o', t = Some l /\ h !! l = Some o /\
                             same_kind o o' /\ h' = <[l := o']> h.
Proof.
  intros Hm Hk h b h' E. unfold mbind, M_bind in E.
  destruct (m h) as [[x h1]|e] eqn:Em; [|discriminate].
  apply Hk in E. subst h'. by eapply Hm.
Qed.
End Writes.

Ltac read_only_call :=
  first [ solve [ auto with frame ]
        | unfold_call; read_only_steps ].

Ltac writes_steps :=
  repeat first
    [ apply writes_at_write_vector
    | apply writes_at_put
    | apply writes_at_bind_l;
        [ first [ apply writes_at_write_vector | apply writes_at_put ]
        | intros ?; solve [ auto with frame ] ]
    | apply writes_at_bind_r; [ solve [ read_only_call ] | intros ? ]
    | apply writes_at_read_only; solve [ read_only_call ] ].

Section WritesTable.
Context {T : Type} `{Scalar T} `{Libm T} `{Eigen.Inverse T}.

Lemma run_writes_at (f : fn) (args : operands T (params f))
    (h h' : heap T) (v : denote T (ret f)) :
  run f args h = Ok (v, h') ->
  h' = h \/ exists l o o', mutable_operand (params f) args = Some l /\
                           h !! l = Some o /\ same_kind o o' /\
                           h' = <[l := o']> h.
Proof.
  revert h v h'.
  destruct f; simpl in args; destruct args as (x & y);
    try destruct y as (y & z);
    cbv [run call definition fst snd params mutable_operand];
    match goal with
    | |- forall h v h', ?m h = _ -> _ => let g := head_of m in unfold g
    end;
    writes_steps.
Qed.

(** X4.  A call writes to the store only through its non-const reference
    parameter: when it returns, every other location holds the object it
    held before, whether passed as a const operand, viewed through a map or
    unrelated; the written object keeps its type, and no location is added
    or removed. *)
Theorem writes_only_through_mutable_operand
    (f : fn) (args : operands T (params f))
    (h h' : heap T) (v : denote T (ret f)) :
  run f args h = Ok (v, h') ->
  (forall l, mutable_operand (params f) args <> Some l -> h' !! l = h !! l) /\
  (forall l o, h !! l = Some o ->
     exists o', h' !! l = Some o' /\ same_kind o o') /\
  dom h' = dom h.
Proof.
  intros E. apply run_writes_at in E as [->|(l & o & o' & Ht & Hl & Hk & ->)].
  - repeat split; try done. intros l o Hl. exists o. split; [done|].
    apply same_kind_refl.
  - unfold heap in *. repeat split.
    + intros l0 Hne. rewrite lookup_insert_ne; [done|]. congruence.
    + intros l0 o0 Hl0. destruct (decide (l = l0)) as [->|Hne].
      * rewrite lookup_insert_eq. exists o'. split; [done|]. congruence.
      * rewrite lookup_insert_ne by done. exists o0. split; [done|].
        apply same_kind_refl.
    + apply dom_insert_lookup_L. by eexists.
Qed.
End WritesTable.

Lemma writes_only_through_mutable_operand_witness :
  let h : heap R :=
    {[ 1 := VectorObj (ints [1; 2; 3]%Z); 2 := VectorObj (ints [4; 5; 6]%Z) ]} in
  let h' : heap R :=
    <[ 1 := VectorObj (mk_vector (zip_with Rplus (map IZR [1; 2; 3]%Z)
                                                 (map IZR [4; 5; 6]%Z))) ]> h in
  h' !! 2 = h !! 2.
Proof.
  intros h h'.
  refine (proj1 (writes_only_through_mutable_operand
                   (T:=R) (H1:=cofactor_inverse)
                   AddAssign (1, (2, tt)) h h' 1 _) 2 _).
  - reflexivity.
  - cbn. congruence.
Defined.

(** ** The scalar on either side, and the symmetry of the inner product *)

Lemma b64_mul_comm (x y : binary64) : SFmul 53 1024 x y = SFmul 53 1024 y x.
Proof.
  destruct x as [sx|sx| |sx mx ex], y as [sy|sy| |sy my ey]; cbn;
    rewrite ?(xorb_comm sx sy), ?(Pos.mul_comm mx my), ?(Z.add_comm ex ey);
    reflexivity.
Qed.

Section Commutative.
Context {T : Type} `{Scalar T}.
Hypothesis smul_comm : forall x y : T, smul x y = smul y x.

Lemma scale_either_side (v : list T) (s : T) :
  Eigen.scale_r v s = Eigen.scale_l s v.
Proof. unfold Eigen.scale_r, Eigen.scale_l. apply map_ext. intros x. apply smul_comm. Qed.

Lemma zip_with_smul_comm (a b : list T) :
  zip_with smul a b = zip_with smul b a.
Proof.
  revert b. induction a as [|x a IH]; intros [|y b]; cbn; try reflexivity.
  f_equal; [apply smul_comm | apply IH].
Qed.

Lemma dot_comm (a b : list T) : Eigen.dot a b = Eigen.dot b a.
Proof.
  unfold Eigen.dot. rewrite (Nat.eqb_sym (length b)).
  by rewrite zip_with_smul_comm.
Qed.

Lemma scalar_side_generic (h : heap T) (vec mat : loc) (s : T) :
  operator_mul_vector_scalar vec s h = operator_mul_scalar_vector s vec h /\
  operator_mul_matrix_scalar mat s h = operator_mul_scalar_matrix s mat h.
Proof.
  unfold operator_mul_vector_scalar, operator_mul_scalar_vector,
    operator_mul_matrix_scalar, operator_mul_scalar_matrix.
  cbv [mbind M_bind mret M_ret read_vector read_matrix]. split.
  - destruct (h !! vec) as [[v| | |]|]; try reflexivity.
    by rewrite scale_either_side.
  - destruct (h !! mat) as [[|m| |]|]; try reflexivity.
    unfold Eigen.mscale_r, Eigen.mscale_l. do 3 f_equal.
    apply map_ext. intros x. apply smul_comm.
Qed.

Lemma inner_product_generic (h : heap T) (a b : loc) :
  operator_mul_vector_vector a b h = operator_mul_vector_vector b a h.
Proof.
  unfold operator_mul_vector_vector.
  cbv [mbind M_bind mret M_ret read_vector].
  destruct (h !! a) as [[x| | |]|] eqn:Ea, (h !! b) as [[y| | |]|] eqn:Eb;
    rewrite ?Ea, ?Eb; try reflexivity.
  by rewrite dot_comm.
Qed.
End Commutative.

(** X5.  In binary64 and in exact arithmetic, the scalar may stand on
    either side: [vec * s] and [s * vec] return the same vector, [mat * s]
    and [s * mat] the same matrix, on every store. *)
Theorem scalar_on_either_side :
  (forall (h : heap binary64) (vec mat : loc) (s : binary64),
     operator_mul_vector_scalar vec s h = operator_mul_scalar_vector s vec h /\
     operator_mul_matrix_scalar mat s h = operator_mul_scalar_matrix s mat h) /\
  (forall (h : heap R) (vec mat : loc) (s : R),
     operator_mul_vector_scalar vec s h = operator_mul_scalar_vector s vec h /\
     operator_mul_matrix_scalar mat s h = operator_mul_scalar_matrix s mat h).
Proof.
  split; intros h vec mat s; apply scalar_side_generic.
  - exact b64_mul_comm.
  - exact Rmult_comm.
Qed.

(** X6.  In binary64 and in exact arithmetic the inner product is
    symmetric, [a * b] is [b * a], including the engine's assertion when
    the lengths differ. *)
Theorem inner_product_symmetric :
  (forall (h : heap binary64) (a b : loc),
     operator_mul_vector_vector a b h = operator_mul_vector_vector b a h) /\
  (forall (h : heap R) (a b : loc),
     operator_mul_vector_vector a b h = operator_mul_vector_vector b a h).
Proof.
  split; intros h a b; apply inner_product_generic.
  - exact b64_mul_comm.
  - exact Rmult_comm.
Qed.

(** ** Shapes *)

Section Shapes.
Context {T : Type} `{Scalar T}.

Lemma well_formed_tabulate (r c : nat) (f : nat -> nat -> T) :
  Eigen.well_formed (Eigen.mkMat r c (Eigen.tabulate r c f)).
Proof. unfold Eigen.well_formed. cbn. apply length_tabulate. Qed.

Lemma coeff_tabulate (r c : nat) (f : nat -> nat -> T) (i j : nat) :
  i < r -> j < c ->
  Eigen.coeff (Eigen.mkMat r c (Eigen.tabulate r c f)) i j = f i j.
Proof.
  intros Hi Hj. unfold Eigen.coeff. cbn.
  by rewrite nth_lookup, lookup_tabulate.
Qed.

(** X7.  [transpose(mat)] leaves the store alone and returns a matrix with
    the two dimensions exchanged, storage of the right size, and the
    coefficient (i, j) of [mat] at (j, i). *)
Theorem transpose_coefficients (h : heap T) (mat : loc) (m : matrix T) :
  h !! mat = Some (MatrixObj m) ->
  exists t, eigen.transpose mat h = Ok (mk_matrix t, h) /\
    Eigen.rows t = Eigen.cols (matrix_eigen m) /\
    Eigen.cols t = Eigen.rows (matrix_eigen m) /\
    Eigen.well_formed t /\
    forall i j, i < Eigen.rows (matrix_eigen m) ->
                j < Eigen.cols (matrix_eigen m) ->
                Eigen.coeff t j i = Eigen.coeff (matrix_eigen m) i j.
Proof.
  intros Hm. exists (Eigen.transpose (matrix_eigen m)).
  unfold eigen.transpose. reads. repeat split.
  - apply well_formed_tabulate.
  - intros i j Hi Hj. by apply coeff_transpose.
Qed.

(** X8.  The products check the inner dimension and nothing else.
    [mat * vec] needs as many columns as the vector has elements and
    returns one element per row; [vec * mat] needs as many rows as the
    vector has elements and returns one element per column; [a * b] needs
    the columns of [a] to be the rows of [b] and returns a matrix of the
    rows of [a] by the columns of [b].  Any other shape is the engine's
    assertion. *)
Theorem product_shapes
    (h : heap T) (mat mat' vec : loc) (a b : matrix T) (v : vector T) :
  h !! mat = Some (MatrixObj a) ->
  h !! mat' = Some (MatrixObj b) ->
  h !! vec = Some (VectorObj v) ->
  (if Nat.eqb (Eigen.cols (matrix_eigen a)) (length (vector_eigen v))
   then exists r, operator_mul_matrix_vector mat vec h = Ok (r, h) /\
                  length r = Eigen.rows (matrix_eigen a)
   else operator_mul_matrix_vector mat vec h = Fault EngineAssertion) /\
  (if Nat.eqb (length (vector_eigen v)) (Eigen.rows (matrix_eigen a))
   then exists r, operator_mul_vector_matrix vec mat h = Ok (r, h) /\
                  length r = Eigen.cols (matrix_eigen a)
   else operator_mul_vector_matrix vec mat h = Fault EngineAssertion) /\
  (if Nat.eqb (Eigen.cols (matrix_eigen a)) (Eigen.rows (matrix_eigen b))
   then exists p, operator_mul_matrix_matrix mat mat' h = Ok (p, h) /\
                  Eigen.rows p = Eigen.rows (matrix_eigen a) /\
                  Eigen.cols p = Eigen.cols (matrix_eigen b) /\
                  Eigen.well_formed p
   else operator_mul_matrix_matrix mat mat' h = Fault EngineAssertion).
Proof.
  intros Ha Hb Hv.
  unfold operator_mul_matrix_vector, operator_mul_vector_matrix,
    operator_mul_matrix_matrix.
  reads. unfold lift, Eigen.mulMV, Eigen.mulVM, Eigen.mulMM.
  repeat split.
  - destruct (Nat.eqb _ _); [|done]. eexists. split; [reflexivity|].
    by rewrite length_map, length_seq.
  - destruct (Nat.eqb _ _); [|done]. eexists. split; [reflexivity|].
    by rewrite length_map, length_seq.
  - destruct (Nat.eqb _ _); [|done]. eexists. split; [reflexivity|].
    repeat split. apply well_formed_tabulate.
Qed.

(** X9.  Matrix addition and subtraction need equal dimensions; they
    combine the coefficients position by position, keep the dimensions and
    a storage of the right size, and any other pair of shapes is the
    engine's assertion. *)
Theorem matrix_sum_shapes (h : heap T) (lhs rhs : loc) (a b : matrix T) :
  h !! lhs = Some (MatrixObj a) ->
  h !! rhs = Some (MatrixObj b) ->
  Eigen.well_formed (matrix_eigen a) ->
  Eigen.well_formed (matrix_eigen b) ->
  let ra := Eigen.rows (matrix_eigen a) in
  let ca := Eigen.cols (matrix_eigen a) in
  if Nat.eqb ra (Eigen.rows (matrix_eigen b)) &&
     Nat.eqb ca (Eigen.cols (matrix_eigen b))
  then
    operator_add_matrix_matrix lhs rhs h =
      Ok (Eigen.mkMat ra ca (zip_with sadd (Eigen.coeffs (matrix_eigen a))
                                           (Eigen.coeffs (matrix_eigen b))), h) /\
    operator_sub_matrix_matrix lhs rhs h =
      Ok (Eigen.mkMat ra ca (zip_with ssub (Eigen.coeffs (matrix_eigen a))
                                           (Eigen.coeffs (matrix_eigen b))), h) /\
    length (zip_with sadd (Eigen.coeffs (matrix_eigen a))
                          (Eigen.coeffs (matrix_eigen b))) = ca * ra /\
    length (zip_with ssub (Eigen.coeffs (matrix_eigen a))
                          (Eigen.coeffs (matrix_eigen b))) = ca * ra
  else
    operator_add_matrix_matrix lhs rhs h = Fault EngineAssertion /\
    operator_sub_matrix_matrix lhs rhs h = Fault EngineAssertion.
Proof.
  intros Ha Hb Hwa Hwb ra ca.
  unfold operator_add_matrix_matrix, operator_sub_matrix_matrix.
  reads. unfold lift, Eigen.madd, Eigen.msub, Eigen.mcwise. fold ra ca.
  destruct (Nat.eqb ra _ && Nat.eqb ca _) eqn:E; [|done].
  apply andb_prop in E as [Er Ec].
  apply Nat.eqb_eq in Er, Ec. unfold Eigen.well_formed in *.
  repeat split; rewrite length_zip_with, Hwa, Hwb, <- Er, <- Ec;
    fold ra ca; lia.
Qed.
End Shapes.

Lemma transpose_coefficients_witness :
  let m : matrix binary64 :=
    mk_matrix (Eigen.mkMat 2 3 (map b64_of_Z [1; 2; 3; 4; 5; 6]%Z)) in
  let h : heap binary64 := {[ 1 := MatrixObj m ]} in
  exists t, eigen.transpose 1 h = Ok (mk_matrix t, h) /\
    Eigen.rows t = 3 /\ Eigen.cols t = 2.
Proof.
  intros m h.
  destruct (transpose_coefficients h 1 m) as (t & Ht & Hr & Hc & _);
    [vm_compute; reflexivity|].
  exists t. repeat split; assumption.
Defined.

Lemma product_shapes_witness :
  let a : matrix binary64 :=
    mk_matrix (Eigen.mkMat 2 3 (map b64_of_Z [1; 2; 3; 4; 5; 6]%Z)) in
  let b : matrix binary64 :=
    mk_matrix (Eigen.mkMat 3 1 (map b64_of_Z [1; 0; 1]%Z)) in
  let h : heap binary64 :=
    {[ 1 := MatrixObj a; 2 := MatrixObj b; 3 := VectorObj (ints [1; 0; 1]%Z) ]} in
  (exists r, operator_mul_matrix_vector 1 3 h = Ok (r, h) /\ length r = 2) /\
  operator_mul_vector_matrix 3 1 h = Fault EngineAssertion.
Proof.
  intros a b h.
  destruct (product_shapes h 1 2 3 a b (ints [1; 0; 1]%Z))
    as (Hmv & Hvm & _); try (vm_compute; reflexivity).
  split; [exact Hmv | exact Hvm].
Defined.

Lemma matrix_sum_shapes_witness :
  let a : matrix binary64 :=
    mk_matrix (Eigen.mkMat 2 2 (map b64_of_Z [1; 2; 3; 4]%Z)) in
  let b : matrix binary64 :=
    mk_matrix (Eigen.mkMat 1 2 (map b64_of_Z [1; 2]%Z)) in
  let h : heap binary64 := {[ 1 := MatrixObj a; 2 := MatrixObj b ]} in
  operator_add_matrix_matrix 1 2 h = Fault EngineAssertion /\
  operator_sub_matrix_matrix 1 2 h = Fault EngineAssertion.
Proof.
  intros a b h.
  apply (matrix_sum_shapes h 1 2 a b); vm_compute; reflexivity.
Defined.

(** ** A matrix times its transpose *)

Section ProductTranspose.
Context {T : Type} `{Scalar T}.
Hypothesis smul_comm : forall x y : T, smul x y = smul y x.

(** The transpose of a product is the product of the transposes in the
    other order, coefficient for coefficient. *)
Lemma mulMM_transpose (a b p : Eigen.Mat T) :
  Eigen.mulMM a b = Some p ->
  Eigen.mulMM (Eigen.transpose b) (Eigen.transpose a) = Some (Eigen.transpose p).
Proof.
  unfold Eigen.mulMM. destruct (Nat.eqb_spec (Eigen.cols a) (Eigen.rows b)) as [E|];
    [|discriminate].
  intros [= <-]. cbn [Eigen.rows Eigen.cols Eigen.transpose].
  rewrite E, Nat.eqb_refl. unfold Eigen.transpose at 3.
  cbn [Eigen.rows Eigen.cols]. do 2 f_equal.
  apply tabulate_ext. intros i j Hi Hj.
  rewrite coeff_tabulate by done. f_equal.
  apply map_ext_in. intros k Hk. apply in_seq in Hk.
  rewrite !coeff_transpose by lia. apply smul_comm.
Qed.

Lemma times_own_transpose_generic (h : heap T) (mat : loc) (m : matrix T) :
  h !! mat = Some (MatrixObj m) ->
  Eigen.well_formed (matrix_eigen m) ->
  exists p, value_of (times_own_transpose mat) h = Ok p /\
    Eigen.transpose p = p /\
    Eigen.rows p = Eigen.rows (matrix_eigen m) /\
    Eigen.cols p = Eigen.rows (matrix_eigen m).
Proof.
  intros Hm Hwf.
  unfold value_of, times_own_transpose, eigen.transpose,
    operator_mul_matrix_matrix.
  reads. rewrite bind_temporary.
  erewrite bind_read_matrix by (apply lookup_after_temporary; eassumption).
  erewrite bind_read_matrix by (unfold heap; apply lookup_insert_eq).
  cbn [matrix_eigen].
  destruct (Eigen.mulMM (matrix_eigen m) (Eigen.transpose (matrix_eigen m)))
    as [p|] eqn:Ep.
  - exists p. split; [reflexivity|].
    pose proof (mulMM_transpose _ _ _ Ep) as Et.
    rewrite transpose_involutive in Et by done. rewrite Ep in Et.
    injection Et as Et. split; [done|].
    unfold Eigen.mulMM in Ep. destruct (Nat.eqb _ _); [|discriminate].
    injection Ep as <-. by cbn.
  - unfold Eigen.mulMM in Ep. cbn [Eigen.rows Eigen.transpose] in Ep.
    by rewrite Nat.eqb_refl in Ep.
Qed.
End ProductTranspose.

(** X10.  In exact arithmetic, [mat * transpose(mat)] never fails on a
    live matrix and its result is square, of the size of the rows of
    [mat], and equal to its own transpose. *)
Theorem times_own_transpose_symmetric
    (h : heap R) (mat : loc) (m : matrix R) :
  h !! mat = Some (MatrixObj m) ->
  Eigen.well_formed (matrix_eigen m) ->
  exists p, value_of (times_own_transpose mat) h = Ok p /\
    Eigen.transpose p = p /\
    Eigen.rows p = Eigen.rows (matrix_eigen m) /\
    Eigen.cols p = Eigen.rows (matrix_eigen m).
Proof. apply times_own_transpose_generic. exact Rmult_comm. Qed.

Lemma times_own_transpose_symmetric_witness :
  let m : matrix R :=
    mk_matrix (Eigen.mkMat 2 2 (map IZR [1; 3; 2; 4]%Z)) in
  let h : heap R := {[ 1 := MatrixObj m ]} in
  exists p, value_of (times_own_transpose 1) h = Ok p /\ Eigen.transpose p = p.
Proof.
  intros m h.
  destruct (times_own_transpose_symmetric h 1 m) as (p & Hp & Hs & _);
    [reflexivity | reflexivity |].
  exists p. split; assumption.
Defined.

(** ** Exact arithmetic: how the operations compose *)

Section RealComposition.
Local Open Scope R_scope.
Implicit Types (v a b : list R) (s : R).

Lemma quot_scale v s : s <> 0 -> Eigen.quot (Eigen.scale_r v s) s = v.
Proof.
  intros Hs. unfold Eigen.quot, Eigen.scale_r. rewrite map_map.
  rewrite <- (map_id v) at 2. apply map_ext. intros x. cbn. by field.
Qed.

Lemma cdiv_cprod a b :
  length a = length b -> Forall (fun y => y <> 0) b ->
  zip_with Rdiv (zip_with Rmult a b) b = a.
Proof.
  intros Hlen Hb. revert a Hlen.
  induction Hb as [|y b Hy Hb IH]; intros [|x a] Hlen; try discriminate;
    [reflexivity|].
  cbn. f_equal; [by field|]. apply IH. by injection Hlen.
Qed.

Lemma Rsum_zip_plus a b :
  length a = length b -> Rsum (zip_with Rplus a b) = Rsum a + Rsum b.
Proof.
  revert b. unfold Rsum.
  induction a as [|x a IH]; intros [|y b] Hlen; try discriminate; cbn; [lra|].
  rewrite IH by (by injection Hlen). lra.
Qed.

Lemma zip_with_self {A B} (f : A -> A -> B) (l : list A) :
  zip_with f l l = map (fun x => f x x) l.
Proof. induction l as [|x l IH]; cbn; [done|]. by rewrite IH. Qed.

Lemma squaredNorm_nonneg v : 0 <= Eigen.squaredNorm v.
Proof.
  unfold Eigen.squaredNorm. rewrite sum_Rsum.
  apply (Rsum_nonneg (fun x => x * x)). intros x. nra.
Qed.

Lemma squaredNorm_zero v : Eigen.squaredNorm v = 0 <-> Forall (fun x => x = 0) v.
Proof.
  split.
  - intros Hz. apply Forall_forall. intros x Hx.
    destruct (Req_dec_T x 0) as [|Hne]; [done|].
    assert (0 < Eigen.squaredNorm v); [|lra].
    apply squaredNorm_pos. by exists x.
  - intros Hall. unfold Eigen.squaredNorm. rewrite sum_Rsum. unfold Rsum.
    induction Hall as [|x v Hx _ IH]; [done|].
    cbn [map fold_right]. rewrite IH, Hx. cbn. lra.
Qed.

Lemma squaredNorm_scale v s :
  Eigen.squaredNorm (Eigen.scale_r v s) = s * s * Eigen.squaredNorm v.
Proof.
  unfold Eigen.squaredNorm, Eigen.scale_r. rewrite !sum_Rsum, map_map.
  unfold Rsum. induction v as [|x v IH]; [cbn; lra|].
  cbn [map fold_right]. rewrite IH. cbn. lra.
Qed.

(** X11.  In exact arithmetic, for a scalar [s] other than 0,
    [(vec * s) / s] is [vec]. *)
Theorem scale_then_divide_exact
    (h : heap R) (vec : loc) (v : vector R) (s : R) :
  h !! vec = Some (VectorObj v) -> s <> 0 ->
  value_of (scale_then_divide vec s) h = Ok v.
Proof.
  intros Hv Hs.
  unfold value_of, scale_then_divide, operator_mul_vector_scalar,
    operator_div_vector_scalar.
  reads. rewrite bind_temporary.
  erewrite bind_read_vector by (unfold heap; apply lookup_insert_eq).
  unfold mret, M_ret. cbn [fmap outcome_fmap fst vector_eigen].
  rewrite quot_scale by done. by destruct v.
Qed.

(** X12.  In exact arithmetic, for vectors of equal length and a divisor
    without a zero element, [cdiv(cprod(a, b), b)] is [a]. *)
Theorem cprod_then_cdiv_exact
    (h : heap R) (a b : loc) (va vb : vector R) :
  h !! a = Some (VectorObj va) ->
  h !! b = Some (VectorObj vb) ->
  length (vector_eigen va) = length (vector_eigen vb) ->
  Forall (fun y => y <> 0) (vector_eigen vb) ->
  value_of (cprod_then_cdiv a b) h = Ok va.
Proof.
  intros Ha Hb Hlen Hnz.
  unfold value_of, cprod_then_cdiv, eigen.cprod, eigen.cdiv.
  reads. unfold Eigen.cwiseProduct, Eigen.cwise. rewrite Hlen, Nat.eqb_refl.
  reads. rewrite bind_temporary.
  erewrite bind_read_vector by (unfold heap; apply lookup_insert_eq).
  erewrite bind_read_vector by (apply lookup_after_temporary; eassumption).
  reads. unfold Eigen.cwiseQuotient, Eigen.cwise. cbn [vector_eigen].
  rewrite length_zip_with, Hlen, Nat.min_id, Nat.eqb_refl.
  unfold mret, M_ret. cbn [fmap outcome_fmap fst smul sdiv R_scalar].
  rewrite cdiv_cprod by done. by destruct va.
Qed.

(** X13.  In exact arithmetic the norm is the square root of the inner
    product of the vector with itself: [vec * vec] is [norm(vec)] squared,
    the norm is never negative, and it is 0 exactly when every element
    is 0. *)
Theorem norm_and_inner_product (h : heap R) (vec : loc) (v : vector R) :
  h !! vec = Some (VectorObj v) ->
  exists n, eigen.norm vec h = Ok (n, h) /\
    operator_mul_vector_vector vec vec h = Ok (n * n, h) /\
    0 <= n /\
    (n = 0 <-> Forall (fun x => x = 0) (vector_eigen v)).
Proof.
  intros Hv. exists (Eigen.norm (vector_eigen v)).
  pose proof (squaredNorm_nonneg (vector_eigen v)) as Hz.
  unfold eigen.norm, operator_mul_vector_vector. reads.
  unfold lift, Eigen.dot. rewrite Nat.eqb_refl, zip_with_self.
  fold (Eigen.squaredNorm (vector_eigen v)).
  unfold Eigen.norm. cbn [ssqrt R_scalar]. repeat split.
  - by rewrite sqrt_sqrt.
  - apply sqrt_pos.
  - intros Hn. apply squaredNorm_zero. by apply sqrt_eq_0.
  - intros Hall. apply squaredNorm_zero in Hall. rewrite Hall. apply sqrt_0.
Qed.

(** X14.  In exact arithmetic the norm is absolutely homogeneous:
    [norm(vec * s)] is [|s|] times [norm(vec)]. *)
Theorem norm_of_scaled_vector (h : heap R) (vec : loc) (v : vector R) (s : R) :
  h !! vec = Some (VectorObj v) ->
  value_of (norm_of_scaled vec s) h =
    Ok (Rabs s * Eigen.norm (vector_eigen v)).
Proof.
  intros Hv.
  unfold value_of, norm_of_scaled, operator_mul_vector_scalar, eigen.norm.
  reads. rewrite bind_temporary.
  erewrite bind_read_vector by (unfold heap; apply lookup_insert_eq).
  unfold mret, M_ret. cbn [fmap outcome_fmap fst vector_eigen]. f_equal.
  unfold Eigen.norm. cbn [ssqrt R_scalar]. rewrite squaredNorm_scale.
  rewrite sqrt_mult; [|nra|apply squaredNorm_nonneg].
  f_equal. rewrite <- sqrt_Rsqr_abs. reflexivity.
Qed.

(** X15.  In exact arithmetic [sum] is additive: for vectors of equal
    length, [sum(a + b)] is [sum(a) + sum(b)]. *)
Theorem sum_of_sum_additive (h : heap R) (a b : loc) (va vb : vector R) :
  h !! a = Some (VectorObj va) ->
  h !! b = Some (VectorObj vb) ->
  length (vector_eigen va) = length (vector_eigen vb) ->
  value_of (sum_of_sum a b) h =
    Ok (Eigen.sum (vector_eigen va) + Eigen.sum (vector_eigen vb)).
Proof.
  intros Ha Hb Hlen.
  unfold value_of, sum_of_sum, operator_add_vector_vector, eigen.sum.
  reads. unfold Eigen.add, Eigen.cwise. rewrite Hlen, Nat.eqb_refl.
  reads. rewrite bind_temporary.
  erewrite bind_read_vector by (unfold heap; apply lookup_insert_eq).
  unfold mret, M_ret. cbn [fmap outcome_fmap fst vector_eigen sadd R_scalar].
  f_equal. rewrite !sum_Rsum. by apply Rsum_zip_plus.
Qed.
End RealComposition.

Lemma scale_then_divide_exact_witness :
  let h : heap R := {[ 1 := VectorObj (ints [1; 2; 3]%Z) ]} in
  value_of (scale_then_divide 1 2%R) h = Ok (ints [1; 2; 3]%Z).
Proof.
  intros h. apply (scale_then_divide_exact h 1 (ints [1; 2; 3]%Z) 2%R);
    [reflexivity | lra].
Defined.

Lemma cprod_then_cdiv_exact_witness :
  let h : heap R :=
    {[ 1 := VectorObj (ints [1; 2; 3]%Z); 2 := VectorObj (ints [4; 5; 6]%Z) ]} in
  value_of (cprod_then_cdiv 1 2) h = Ok (ints [1; 2; 3]%Z).
Proof.
  intros h.
  apply (cprod_then_cdiv_exact h 1 2 (ints [1; 2; 3]%Z) (ints [4; 5; 6]%Z));
    [reflexivity | reflexivity | reflexivity |].
  cbn. repeat constructor; lra.
Defined.

Lemma norm_and_inner_product_witness :
  let h : heap R := {[ 1 := VectorObj (ints [3; 4]%Z) ]} in
  exists n : R, eigen.norm 1 h = Ok (n, h) /\
    operator_mul_vector_vector 1 1 h = Ok ((n * n)%R, h).
Proof.
  intros h.
  destruct (norm_and_inner_product h 1 (ints [3; 4]%Z)) as (n & Hn & Hd & _);
    [reflexivity|].
  exists n. split; assumption.
Defined.

Lemma norm_of_scaled_vector_witness :
  let h : heap R := {[ 1 := VectorObj (ints [3; 4]%Z) ]} in
  value_of (norm_of_scaled 1 (-2)%R) h =
    Ok (Rabs (-2) * Eigen.norm (vector_eigen (ints [3; 4]%Z)))%R.
Proof.
  intros h. apply (norm_of_scaled_vector h 1 (ints [3; 4]%Z) (-2)%R).
  reflexivity.
Defined.

Lemma sum_of_sum_additive_witness :
  let h : heap R :=
    {[ 1 := VectorObj (ints [1; 2; 3]%Z); 2 := VectorObj (ints [4; 5; 6]%Z) ]} in
  value_of (sum_of_sum 1 2) h =
    Ok (Eigen.sum (vector_eigen (ints [1; 2; 3]%Z)) +
        Eigen.sum (vector_eigen (ints [4; 5; 6]%Z)))%R.
Proof.
  intros h.
  apply (sum_of_sum_additive h 1 2 (ints [1; 2; 3]%Z) (ints [4; 5; 6]%Z));
    reflexivity.
Defined.

(** ** The vector on the left of a matrix *)

Section VectorMatrix.
Context {T : Type} `{Scalar T}.
Hypothesis smul_comm : forall x y : T, smul x y = smul y x.

Lemma mulVM_as_mulMV (v : Eigen.Vec T) (m : Eigen.Mat T) :
  Eigen.mulVM v m = Eigen.mulMV (Eigen.transpose m) v.
Proof.
  unfold Eigen.mulVM, Eigen.mulMV. cbn [Eigen.rows Eigen.cols Eigen.transpose].
  rewrite (Nat.eqb_sym (length v)).
  destruct (Nat.eqb _ _); [|done]. f_equal.
  apply map_ext_in. intros j Hj. apply in_seq in Hj. f_equal.
  apply map_ext_in. intros i Hi. apply in_seq in Hi.
  rewrite coeff_transpose by lia. apply smul_comm.
Qed.

Lemma vector_matrix_generic (h : heap T) (vec mat : loc)
    (v : vector T) (m : matrix T) :
  h !! vec = Some (VectorObj v) ->
  h !! mat = Some (MatrixObj m) ->
  value_of (operator_mul_vector_matrix vec mat) h =
  value_of (t ← eigen.transpose mat;
            l ← temporary (MatrixObj t);
            operator_mul_matrix_vector l vec) h.
Proof.
  intros Hv Hm.
  unfold value_of, operator_mul_vector_matrix, eigen.transpose,
    operator_mul_matrix_vector.
  reads. rewrite bind_temporary.
  erewrite bind_read_matrix by (unfold heap; apply lookup_insert_eq).
  erewrite bind_read_vector by (apply lookup_after_temporary; eassumption).
  cbn [matrix_eigen]. rewrite mulVM_as_mulMV.
  unfold lift. by destruct (Eigen.mulMV _ _).
Qed.
End VectorMatrix.

(** X16.  In exact arithmetic, [vec * mat] returns what
    [transpose(mat) * vec] returns, and fails when it fails. *)
Theorem vector_times_matrix_as_transpose
    (h : heap R) (vec mat : loc) (v : vector R) (m : matrix R) :
  h !! vec = Some (VectorObj v) ->
  h !! mat = Some (MatrixObj m) ->
  value_of (operator_mul_vector_matrix vec mat) h =
  value_of (t ← eigen.transpose mat;
            l ← temporary (MatrixObj t);
            operator_mul_matrix_vector l vec) h.
Proof. apply vector_matrix_generic. exact Rmult_comm. Qed.

Lemma vector_times_matrix_as_transpose_witness :
  let m : matrix R :=
    mk_matrix (Eigen.mkMat 2 3 (map IZR [1; 2; 3; 4; 5; 6]%Z)) in
  let h : heap R :=
    {[ 1 := VectorObj (ints [1; -1]%Z); 2 := MatrixObj m ]} in
  value_of (operator_mul_vector_matrix 1 2) h =
  value_of (t ← eigen.transpose 2;
            l ← temporary (MatrixObj t);
            operator_mul_matrix_vector l 1) h.
Proof.
  intros m h.
  apply (vector_times_matrix_as_transpose h 1 2 (ints [1; -1]%Z) m);
    reflexivity.
Defined.

(** ** The identity matrix *)

Section Identity.
Local Open Scope R_scope.

Lemma Rsum_delta_out (f : nat -> R) (i s n : nat) :
  (i < s \/ s + n <= i)%nat ->
  Rsum (map (fun j => (if Nat.eqb i j then 1 else 0) * f j) (seq s n)) = 0.
Proof.
  unfold Rsum. revert s. induction n as [|n IH]; intros s Hi; [done|].
  cbn [seq map fold_right]. rewrite IH by lia.
  destruct (Nat.eqb_spec i s); [lia|lra].
Qed.

Lemma Rsum_delta (f : nat -> R) (i s n : nat) :
  (s <= i < s + n)%nat ->
  Rsum (map (fun j => (if Nat.eqb i j then 1 else 0) * f j) (seq s n)) = f i.
Proof.
  revert s. induction n as [|n IH]; intros s Hi; [lia|].
  unfold Rsum in *. cbn [seq map fold_right].
  destruct (Nat.eqb_spec i s) as [->|Hne].
  - pose proof (Rsum_delta_out f s (S s) n) as Hout. unfold Rsum in Hout.
    rewrite Hout by lia. lra.
  - rewrite IH by lia. lra.
Qed.

Lemma map_nth_seq (v : list R) :
  map (fun i => nth i v 0) (seq 0 (length v)) = v.
Proof.
  apply list_eq. intros k. rewrite list_lookup_fmap.
  destruct (decide (k < length v)%nat) as [Hk|Hk].
  - rewrite lookup_seq_lt by done. cbn. rewrite nth_lookup.
    destruct (v !! k) eqn:E; [done|]. apply lookup_ge_None_1 in E. lia.
  - rewrite lookup_seq_ge by lia. cbn. symmetry. apply lookup_ge_None_2. lia.
Qed.

Lemma mulMV_identity (v : list R) :
  Eigen.mulMV (identity (length v)) v = Some v.
Proof.
  unfold Eigen.mulMV. cbn [identity Eigen.rows Eigen.cols].
  rewrite Nat.eqb_refl. f_equal.
  transitivity (map (fun i => nth i v 0) (seq 0 (length v)));
    [|apply map_nth_seq].
  apply map_ext_in. intros i Hi. apply in_seq in Hi.
  rewrite sum_Rsum.
  rewrite (map_ext_in _ (fun j => (if Nat.eqb i j then 1 else 0) * nth j v 0)).
  - by rewrite Rsum_delta by lia.
  - intros j Hj. apply in_seq in Hj. unfold identity.
    rewrite coeff_tabulate by lia. cbn. reflexivity.
Qed.

(** X17.  In exact arithmetic the identity matrix times a vector of its
    size is the vector. *)
Theorem identity_times_vector
    (h : heap R) (mat vec : loc) (v : vector R) :
  h !! mat = Some (MatrixObj (mk_matrix (identity (length (vector_eigen v))))) ->
  h !! vec = Some (VectorObj v) ->
  operator_mul_matrix_vector mat vec h = Ok (vector_eigen v, h).
Proof.
  intros Hm Hv. unfold operator_mul_matrix_vector. reads.
  unfold lift. cbn [matrix_eigen]. by rewrite mulMV_identity.
Qed.
End Identity.

Lemma identity_times_vector_witness :
  let v : vector R := ints [3; 4]%Z in
  let h : heap R :=
    {[ 1 := MatrixObj (mk_matrix (identity 2)); 2 := VectorObj v ]} in
  operator_mul_matrix_vector 1 2 h = Ok (vector_eigen v, h).
Proof.
  intros v h. apply (identity_times_vector h 1 2 v); reflexivity.
Defined.

(** ** Normalizing a zero vector in binary64 *)

Lemma b64_sum_zeros (n : nat) :
  fold_left (SFadd 53 1024) (replicate n b64_zero) b64_zero = b64_zero.
Proof. induction n as [|n IH]; [reflexivity|]. cbn [replicate fold_left]. exact IH. Qed.

Lemma map_replicate {A B} (f : A -> B) (n : nat) (x : A) :
  map f (replicate n x) = replicate n (f x).
Proof. induction n as [|n IH]; [reflexivity|]. cbn. by rewrite IH. Qed.

Lemma b64_squaredNorm_zeros (n : nat) :
  Eigen.squaredNorm (T:=binary64) (replicate n b64_zero) = b64_zero.
Proof.
  unfold Eigen.squaredNorm. rewrite map_replicate.
  change (smul b64_zero b64_zero) with b64_zero.
  destruct n as [|n]; [reflexivity|].
  unfold Eigen.sum, Eigen.redux. cbn [replicate]. apply b64_sum_zeros.
Qed.



(** ** The norms of order 1, 2 and Infinity *)

Section NormOrders.
Local Open Scope R_scope.
Implicit Types (v : list R).

Lemma Rsum_abs_nonneg v : 0 <= Rsum (map Rabs v).
Proof. apply Rsum_nonneg. apply Rabs_pos. Qed.

Lemma squaredNorm_le_square_of_sum v :
  Eigen.squaredNorm v <= Rsum (map Rabs v) * Rsum (map Rabs v).
Proof.
  unfold Eigen.squaredNorm. rewrite sum_Rsum.
  induction v as [|x v IH]; [cbn; lra|].
  pose proof (Rsum_abs_nonneg v) as Hs. pose proof (Rabs_pos x) as Hx.
  unfold Rsum in *. cbn [map fold_right]. cbn [smul R_scalar] in *.
  assert (x * x = Rabs x * Rabs x) as ->.
  { unfold Rabs. destruct (Rcase_abs x); lra. }
  nra.
Qed.

Lemma elem_le_norm v x : x ∈ v -> Rabs x <= Eigen.norm v.
Proof.
  intros Hx. unfold Eigen.norm. cbn [ssqrt R_scalar].
  rewrite <- (sqrt_Rsqr (Rabs x)) by apply Rabs_pos.
  apply sqrt_le_1_alt. unfold Rsqr, Eigen.squaredNorm. rewrite sum_Rsum.
  assert (Rabs x * Rabs x = x * x) as ->.
  { unfold Rabs. destruct (Rcase_abs x); lra. }
  clear -Hx. induction v as [|y v IH]; [by inversion Hx|].
  unfold Rsum in *. cbn [map fold_right smul R_scalar].
  pose proof (Rsum_nonneg (fun z => z * z) v) as Hv. unfold Rsum in Hv.
  apply elem_of_cons in Hx as [->|Hx].
  - assert (0 <= foldr Rplus 0 (map (fun z => z * z) v))
      by (apply Hv; intros z; nra). lra.
  - specialize (IH Hx). cbn [smul R_scalar] in IH. nra.
Qed.

Lemma fold_left_smax_le (l : list R) (x B : R) :
  x <= B -> Forall (fun y => y <= B) l -> fold_left Eigen.smax l x <= B.
Proof.
  intros Hx Hl. revert x Hx. induction Hl as [|y l Hy _ IH]; intros x Hx;
    [done|].
  cbn. apply IH. rewrite smax_Rmax. by apply Rmax_lub.
Qed.

(** X19.  In exact arithmetic the norms are ordered:
    [norm<Infinity>(v) <= norm<2>(v) <= norm<1>(v)], and [norm<2>(v)] is
    [norm(v)]. *)
Theorem norm_orders (libm : Libm R) (h : heap R) (vec : loc) (v : vector R) :
  h !! vec = Some (VectorObj v) ->
  exists n1 n2 ninf,
    eigen.norm_l 1 vec h = Ok (n1, h) /\
    eigen.norm_l 2 vec h = Ok (n2, h) /\
    eigen.norm_l Eigen.Infinity vec h = Ok (ninf, h) /\
    eigen.norm vec h = Ok (n2, h) /\
    ninf <= n2 /\ n2 <= n1.
Proof.
  intros Hv. unfold eigen.norm_l, eigen.norm. reads.
  do 3 eexists. repeat split.
  - unfold Eigen.lpNorm. cbn [Z.eqb Pos.eqb Eigen.Infinity]. cbn [sabs R_scalar].
    destruct (vector_eigen v) as [|x l] eqn:E.
    + cbn. unfold Eigen.norm, Eigen.squaredNorm. cbn. rewrite sqrt_0. lra.
    + rewrite <- E. unfold Eigen.maxCoeff, Eigen.redux. rewrite E. cbn [map].
      rewrite <- E. apply fold_left_smax_le.
      * apply elem_le_norm. rewrite E. left.
      * apply Forall_forall. intros y Hy.
        apply list_elem_of_fmap in Hy as (z & -> & Hz).
        apply elem_le_norm. rewrite E. by right.
  - unfold Eigen.lpNorm. cbn [Z.eqb Pos.eqb]. cbn [sabs R_scalar].
    rewrite sum_Rsum. unfold Eigen.norm. cbn [ssqrt R_scalar].
    rewrite <- (sqrt_Rsqr (Rsum _)) by apply Rsum_abs_nonneg.
    apply sqrt_le_1_alt. apply squaredNorm_le_square_of_sum.
Qed.
End NormOrders.

Lemma norm_orders_witness :
  let h : heap R := {[ 1 := VectorObj (ints [3; -4]%Z) ]} in
  exists n1 n2 ninf : R,
    eigen.norm_l 1 1 h = Ok (n1, h) /\
    eigen.norm_l 2 1 h = Ok (n2, h) /\
    eigen.norm_l Eigen.Infinity 1 h = Ok (ninf, h) /\
    (ninf <= n2)%R /\ (n2 <= n1)%R.
Proof.
  intros h.
  destruct (norm_orders R_libm h 1 (ints [3; -4]%Z))
    as (n1 & n2 & ninf & H1 & H2 & H3 & _ & Hle1 & Hle2); [reflexivity|].
  exists n1, n2, ninf. repeat split; assumption.
Defined.
